(** * PublishPackages: the [publish-packages] command and its backup hooks

    A shallow embedding of [tools/src/commands/PublishPackages.ts]: the five
    hooks that [main] hands to the task runner ([validateBackup],
    [shouldUseBackup], [createBackupData], [restoreBackup],
    [backupValidationFailed]), [main] itself and [tasksForOptions].

    JavaScript objects that the hooks create, copy or share (the state bags
    of parcels and of a backup) live in an explicit heap, so that aliasing
    can be stated.  Everything the command reads from outside (the Git head,
    the list of packages, the locale) is a component of the program state. *)

From Stdlib Require Import ZArith.
From stdpp Require Import base tactics option list relations pretty strings sorting.


(** ** JavaScript values and the heap *)

Definition loc := nat.

(** A value is a primitive or a reference to a heap object.  Numbers are
    integers here; the command never computes with the numbers of a bag. *)
Inductive value :=
| VUndefined
| VNull
| VBool (b : bool)
| VNumber (n : Z)
| VString (s : string)
| VRef (l : loc).

(** A heap object is a plain object (its own enumerable properties, in
    insertion order) or an array. *)
Inductive object :=
| Obj (props : list (string * value))
| Arr (items : list value).

(** The heap: an object is referred to by its index, and a new object goes
    to the end. *)
Abbreviation heap := (list object).

(** JavaScript truthiness, as [&&] and [if] test it. *)
Definition truthy (v : value) : bool :=
  match v with
  | VUndefined | VNull => false
  | VBool b => b
  | VNumber n => negb (n =? 0)%Z
  | VString s => negb (String.eqb s "")
  | VRef _ => true
  end.

(** [o[k]] on a property list. *)
Fixpoint get_prop {A} (k : string) (ps : list (string * A)) : option A :=
  match ps with
  | [] => None
  | (k', v) :: rest => if String.eqb k k' then Some v else get_prop k rest
  end.

(** [o[k] = v]: an existing key keeps its position, a new key goes last. *)
Fixpoint set_prop {A} (k : string) (v : A) (ps : list (string * A)) : list (string * A) :=
  match ps with
  | [] => [(k, v)]
  | (k', v') :: rest =>
      if String.eqb k k' then (k', v) :: rest else (k', v') :: set_prop k v rest
  end.

(** Copying properties one by one into [target], as object spread and
    [JSON.parse] do. *)
Definition assign {A} (target props : list (string * A)) : list (string * A) :=
  fold_left (fun acc kv => set_prop kv.1 kv.2 acc) props target.

Definition keys {A} (ps : list (string * A)) : list string := map fst ps.

(** The values an object refers to directly. *)
Definition children (o : object) : list value :=
  match o with
  | Obj ps => map snd ps
  | Arr xs => xs
  end.

(** [reach h v l]: the object at [l] is [v] itself or is reachable from it
    through properties and array items. *)
Inductive reach (h : heap) : value -> loc -> Prop :=
| reach_here l : reach h (VRef l) l
| reach_step l o v l' :
    h !! l = Some o -> In v (children o) -> reach h v l' -> reach h (VRef l) l'.

(** Heap invariants of JavaScript: a property name occurs once in an
    object, and a reference points to an allocated object. *)
Definition value_ok (n : nat) (v : value) : Prop :=
  match v with
  | VRef l => l < n
  | _ => True
  end.

Definition object_ok (n : nat) (o : object) : Prop :=
  Forall (value_ok n) (children o) /\
  match o with
  | Obj ps => NoDup (keys ps)
  | Arr _ => True
  end.

Definition heap_ok (h : heap) : Prop := Forall (object_ok (length h)) h.

(** ** JSON documents *)

#[local] Unset Elimination Schemes.
Inductive json :=
| JNull
| JBool (b : bool)
| JNumber (n : Z)
| JString (s : string)
| JArray (items : list json)
| JObject (props : list (string * json)).
#[local] Set Elimination Schemes.

Inductive exn :=
| TypeError (msg : string)
| SyntaxError (msg : string).

(** What [JSON.stringify] throws on a circular structure. *)
Definition circular_error : exn := TypeError "Converting circular structure to JSON".

Inductive result (A : Type) :=
| Ok (a : A)
| Err (e : exn).
Arguments Ok {A} a.
Arguments Err {A} e.

Definition rbind {A B} (r : result A) (f : A -> result B) : result B :=
  match r with
  | Ok a => f a
  | Err e => Err e
  end.

(** The properties of an object, serialised in order by [rec]: a property
    whose value serialises to [undefined] is left out. *)
Fixpoint stringify_props (rec : value -> result (option json))
    (ps : list (string * value)) : result (list (string * json)) :=
  match ps with
  | [] => Ok []
  | (k, x) :: rest =>
      rbind (rec x) (fun o =>
      rbind (stringify_props rec rest) (fun js =>
      Ok (match o with Some j => (k, j) :: js | None => js end)))
  end.

(** The items of an array: an item that serialises to [undefined] is
    written as [null]. *)
Fixpoint stringify_items (rec : value -> result (option json))
    (xs : list value) : result (list json) :=
  match xs with
  | [] => Ok []
  | x :: rest =>
      rbind (rec x) (fun o =>
      rbind (stringify_items rec rest) (fun js =>
      Ok (default JNull o :: js)))
  end.

(** [JSON.stringify(v)], up to the text: the document that the text
    denotes.  [None] is the [undefined] that [JSON.stringify] returns for an
    [undefined] value.  Each object entered uses one unit of [fuel]; running
    out means the walk is deeper than the heap has objects, which is the
    circular structure that [JSON.stringify] rejects with a [TypeError]. *)
Fixpoint stringify (fuel : nat) (h : heap) (v : value) : result (option json) :=
  match v with
  | VUndefined => Ok None
  | VNull => Ok (Some JNull)
  | VBool b => Ok (Some (JBool b))
  | VNumber n => Ok (Some (JNumber n))
  | VString s => Ok (Some (JString s))
  | VRef l =>
      match fuel with
      | 0 => Err circular_error
      | S fuel' =>
          match h !! l with
          | None => Err (TypeError "Cannot read properties of undefined")
          | Some (Obj ps) =>
              rbind (stringify_props (stringify fuel' h) ps) (fun js => Ok (Some (JObject js)))
          | Some (Arr xs) =>
              rbind (stringify_items (stringify fuel' h) xs) (fun js => Ok (Some (JArray js)))
          end
      end
  end.

Definition JSON_stringify (h : heap) (v : value) : result (option json) :=
  stringify (S (length h)) h v.

(** Running [f] over a list from left to right, each call allocating in
    the heap that the previous one left. *)
Fixpoint thread {A B} (f : A -> heap -> B * heap) (xs : list A) (h : heap) : list B * heap :=
  match xs with
  | [] => ([], h)
  | x :: rest =>
      let '(y, h1) := f x h in
      let '(ys, h2) := thread f rest h1 in
      (y :: ys, h2)
  end.

(** [JSON.parse] of the text of a document: every object and array of the
    document is a newly allocated heap object, children before their parent.
    A key written twice keeps its first position and its last value. *)
Fixpoint parse (j : json) (h : heap) : value * heap :=
  match j with
  | JNull => (VNull, h)
  | JBool b => (VBool b, h)
  | JNumber n => (VNumber n, h)
  | JString s => (VString s, h)
  | JArray js =>
      let '(xs, h1) := thread parse js h in
      (VRef (length h1), h1 ++ [Arr xs])
  | JObject ps =>
      let '(qs, h1) :=
        thread (fun kj h => let '(x, h1) := parse kj.2 h in ((kj.1, x), h1)) ps h in
      (VRef (length h1), h1 ++ [Obj (assign [] qs)])
  end.

(** [JSON.parse(JSON.stringify(v))]: [JSON.parse] of [undefined] is a
    [SyntaxError]. *)
Definition JSON_parse (text : option json) (h : heap) : result (value * heap) :=
  match text with
  | None => Err (SyntaxError "undefined is not valid JSON")
  | Some j => Ok (parse j h)
  end.

(** ** jsondiffpatch

    [jsondiffpatch.diff(left, right)] returns a delta, or [undefined] when
    the two documents do not differ.  The command only tests whether the
    delta is defined.  Objects are compared property by property whatever
    the order of the keys; arrays are compared by position, which finds no
    difference exactly when the library's own array matching finds none. *)

#[local] Unset Elimination Schemes.
Inductive delta :=
| Added (new : json)
| Modified (old new : json)
| Deleted (old : json)
| ObjectDelta (changes : list (string * delta))
| ArrayDelta (changes : list (nat * delta)).
#[local] Set Elimination Schemes.

Definition has_prop {A} (k : string) (ps : list (string * A)) : bool :=
  match get_prop k ps with
  | Some _ => true
  | None => false
  end.

Definition added_props (ps qs : list (string * json)) : list (string * delta) :=
  map (fun kv => (kv.1, Added kv.2)) (filter (fun kv => has_prop kv.1 ps = false) qs).

Definition added_items (i : nat) (ys : list json) : list (nat * delta) :=
  imap (fun k y => (i + k, Added y)) ys.

(** The properties of the left object against the right one, by [rec]. *)
Fixpoint diff_props (rec : json -> json -> option delta)
    (ps qs : list (string * json)) : list (string * delta) :=
  match ps with
  | [] => []
  | (k, x) :: rest =>
      match get_prop k qs with
      | None => (k, Deleted x) :: diff_props rec rest qs
      | Some y =>
          match rec x y with
          | None => diff_props rec rest qs
          | Some d => (k, d) :: diff_props rec rest qs
          end
      end
  end.

(** The items of two arrays from index [i] on, by [rec]. *)
Fixpoint diff_items (rec : json -> json -> option delta) (i : nat)
    (xs ys : list json) : list (nat * delta) :=
  match xs, ys with
  | [], _ => added_items i ys
  | x :: xs', [] => (i, Deleted x) :: diff_items rec (S i) xs' []
  | x :: xs', y :: ys' =>
      match rec x y with
      | None => diff_items rec (S i) xs' ys'
      | Some d => (i, d) :: diff_items rec (S i) xs' ys'
      end
  end.

Fixpoint diff (left right : json) : option delta :=
  match left, right with
  | JNull, JNull => None
  | JBool a, JBool b => if Bool.eqb a b then None else Some (Modified left right)
  | JNumber a, JNumber b => if (a =? b)%Z then None else Some (Modified left right)
  | JString a, JString b => if String.eqb a b then None else Some (Modified left right)
  | JArray xs, JArray ys =>
      match diff_items diff 0 xs ys with
      | [] => None
      | changes => Some (ArrayDelta changes)
      end
  | JObject ps, JObject qs =>
      match diff_props diff ps qs ++ added_props ps qs with
      | [] => None
      | changes => Some (ObjectDelta changes)
      end
  | _, _ => Some (Modified left right)
  end.

(** ** Command options *)

(** [--prerelease [prereleaseIdentifier]]: [false], [true] or the identifier. *)
Inductive BoolOrString :=
| IsBool (b : bool)
| IsString (s : string).

(** The options object that Commander builds from the declared options.
    [packageNames] is not put there by Commander: [main] adds it. *)
Record CommandOptions := {
  packageNames : option (list string);
  prerelease : BoolOrString;
  tag : string;
  retry : bool;
  commitMessage : option string;
  force : bool;
  deps : bool;
  listUnpublished : bool;
  grantAccess : bool;
  checkIntegrity : bool;
  canary : bool;
  skipRepoChecks : bool;
  dry : bool
}.

Definition set_packageNames (names : list string) (o : CommandOptions) : CommandOptions :=
  {| packageNames := Some names;
     prerelease := prerelease o; tag := tag o; retry := retry o;
     commitMessage := commitMessage o; force := force o; deps := deps o;
     listUnpublished := listUnpublished o; grantAccess := grantAccess o;
     checkIntegrity := checkIntegrity o; canary := canary o;
     skipRepoChecks := skipRepoChecks o; dry := dry o |}.

Definition set_retry (b : bool) (o : CommandOptions) : CommandOptions :=
  {| packageNames := packageNames o;
     prerelease := prerelease o; tag := tag o; retry := b;
     commitMessage := commitMessage o; force := force o; deps := deps o;
     listUnpublished := listUnpublished o; grantAccess := grantAccess o;
     checkIntegrity := checkIntegrity o; canary := canary o;
     skipRepoChecks := skipRepoChecks o; dry := dry o |}.

(** The properties of the options object, by name. *)
Inductive OptionName :=
| OptPackageNames | OptPrerelease | OptTag | OptRetry | OptCommitMessage
| OptForce | OptDeps | OptListUnpublished | OptGrantAccess | OptCheckIntegrity
| OptCanary | OptSkipRepoChecks | OptDry.

#[local] Instance OptionName_eq_dec : EqDecision OptionName.
Proof. solve_decision. Defined.

(** The name of the property in the options object. *)
Definition option_key (f : OptionName) : string :=
  match f with
  | OptPackageNames => "packageNames"
  | OptPrerelease => "prerelease"
  | OptTag => "tag"
  | OptRetry => "retry"
  | OptCommitMessage => "commitMessage"
  | OptForce => "force"
  | OptDeps => "deps"
  | OptListUnpublished => "listUnpublished"
  | OptGrantAccess => "grantAccess"
  | OptCheckIntegrity => "checkIntegrity"
  | OptCanary => "canary"
  | OptSkipRepoChecks => "skipRepoChecks"
  | OptDry => "dry"
  end.

(** [options[name]] as a document; [None] when the property is not there. *)
Definition option_value (o : CommandOptions) (f : OptionName) : option json :=
  match f with
  | OptPackageNames => (fun names => JArray (map JString names)) <$> packageNames o
  | OptPrerelease =>
      Some (match prerelease o with IsBool b => JBool b | IsString s => JString s end)
  | OptTag => Some (JString (tag o))
  | OptRetry => Some (JBool (retry o))
  | OptCommitMessage => JString <$> commitMessage o
  | OptForce => Some (JBool (force o))
  | OptDeps => Some (JBool (deps o))
  | OptListUnpublished => Some (JBool (listUnpublished o))
  | OptGrantAccess => Some (JBool (grantAccess o))
  | OptCheckIntegrity => Some (JBool (checkIntegrity o))
  | OptCanary => Some (JBool (canary o))
  | OptSkipRepoChecks => Some (JBool (skipRepoChecks o))
  | OptDry => Some (JBool (dry o))
  end.

(** Modelled from the spec: the "declared subset" of the options that
    [pickBackupableOptions] keeps ([../publish-packages/helpers] is not among
    the sources): the object made of the listed properties of [o] that are
    there, in the order of the list. *)
Definition pick (o : CommandOptions) (fields : list OptionName) : list (string * json) :=
  fold_left
    (fun acc f =>
       match option_value o f with
       | Some v => set_prop (option_key f) v acc
       | None => acc
       end)
    fields [].

(** ** Packages, parcels and backups *)

Record Package := { packageName : string }.

(** A parcel pairs a package with its state bag: [state] is the reference
    held in [parcel.state].  The other members of a parcel are not used by
    the command. *)
Record Parcel := { pkg : Package; state : value }.

(** [PublishBackupData]: what [createBackupData] returns.  [data_state] is
    the object [data.state], its own properties in the order in which
    [Object.entries] enumerates them. *)
Record PublishBackupData := {
  data_options : json;
  data_head : string;
  data_state : list (string * value)
}.

(** A member that may be missing ([undefined]) or [null]. *)
Inductive nullable (A : Type) :=
| Undefined
| Null
| Present (a : A).
Arguments Undefined {A}.
Arguments Null {A}.
Arguments Present {A} a.

(** [TasksRunnerBackup<PublishBackupData>]: the members the hooks read. *)
Record TasksRunnerBackup := {
  timestamp : Z;
  data : nullable PublishBackupData
}.

(** The tasks that the command imports, as five distinct constants; the
    task [listUnpublished] is [listUnpublished_task] here, the name being
    the one of the option. *)
Inductive Task :=
| listUnpublished_task
| grantTeamAccessToPackages
| checkPackagesIntegrity
| publishCanaryPipeline
| publishPackagesPipeline.

(** ** Program state and effects *)

(** A logged message: the plain parts and the parts that chalk colours. *)
Inductive chunk :=
| Plain (s : string)
| Magenta (s : string).

Inductive LogEntry :=
| LogInfo (message : list chunk)
| LogWarn (message : list chunk).

Record State := {
  st_options : CommandOptions;      (* the options object that [main] received *)
  st_heap : heap;                   (* the objects of state bags *)
  st_log : list LogEntry;           (* what [logger] has printed, oldest first *)
  st_head : string;                 (* the head commit hash of the repository *)
  st_packages : list Package;       (* the packages of the repository *)
  st_locale : Z -> string           (* [new Date(t).toLocaleString()] *)
}.

Inductive outcome (A : Type) :=
| Return (a : A) (s : State)
| Raise (e : exn) (s : State).
Arguments Return {A} a s.
Arguments Raise {A} e s.

Definition M (A : Type) : Type := State -> outcome A.

Definition ret {A} (a : A) : M A := fun s => Return a s.

Definition bind {A B} (m : M A) (f : A -> M B) : M B :=
  fun s =>
    match m s with
    | Return a s' => f a s'
    | Raise e s' => Raise e s'
    end.

Definition throw {A} (e : exn) : M A := fun s => Raise e s.

Definition gets {A} (f : State -> A) : M A := fun s => Return (f s) s.

Definition lift {A} (r : result A) : M A :=
  match r with
  | Ok a => ret a
  | Err e => throw e
  end.

Declare Scope js_scope.
Delimit Scope js_scope with js.
Notation "'let*' x ':=' c 'in' k" := (bind c (fun x => k))
  (at level 10, x name, c at level 100, k at level 200) : js_scope.
Notation "c ';;;' k" := (bind c (fun _ => k))
  (at level 100, k at level 200, right associativity) : js_scope.
Local Open Scope js_scope.

Definition final_state {A} (r : outcome A) : State :=
  match r with
  | Return _ s => s
  | Raise _ s => s
  end.

Definition set_options (o : CommandOptions) : M unit :=
  fun s => Return tt
    {| st_options := o; st_heap := st_heap s; st_log := st_log s;
       st_head := st_head s; st_packages := st_packages s; st_locale := st_locale s |}.

Definition set_heap (h : heap) : M unit :=
  fun s => Return tt
    {| st_options := st_options s; st_heap := h; st_log := st_log s;
       st_head := st_head s; st_packages := st_packages s; st_locale := st_locale s |}.

Definition log (entry : LogEntry) : M unit :=
  fun s => Return tt
    {| st_options := st_options s; st_heap := st_heap s; st_log := st_log s ++ [entry];
       st_head := st_head s; st_packages := st_packages s; st_locale := st_locale s |}.

(** [logger.info] and [logger.warn]. *)
Definition logger_info (message : list chunk) : M unit := log (LogInfo message).
Definition logger_warn (message : list chunk) : M unit := log (LogWarn message).

(** Allocation of a new object. *)
Definition alloc (o : object) : M value :=
  let* h := gets st_heap in
  set_heap (h ++ [o]);;;
  ret (VRef (length h)).

(** [Git.getHeadCommitHashAsync()]: the head commit hash is read from the
    state. *)
Definition Git_getHeadCommitHashAsync : M string := gets st_head.

(** [getListOfPackagesAsync()]. *)
Definition getListOfPackagesAsync : M (list Package) := gets st_packages.

(** [x.member] where [x] may be missing: reading a member of [undefined] or
    [null] is a [TypeError]. *)
Definition member {A} (x : nullable A) : M A :=
  match x with
  | Present a => ret a
  | Undefined => throw (TypeError "Cannot read properties of undefined")
  | Null => throw (TypeError "Cannot read properties of null")
  end.

(** [x && rest] for a member [x] that is an object when it is there: the
    result is [x] itself when [x] is falsy. *)
Definition and_member {A} (x : nullable A) (rest : M value) : M value :=
  match x with
  | Undefined => ret VUndefined
  | Null => ret VNull
  | Present _ => rest
  end.

(** [a && b]. *)
Definition js_and (a b : M value) : M value :=
  let* x := a in
  if truthy x then b else ret x.

(** [!d] for the result of [jsondiffpatch.diff]. *)
Definition js_not {A} (d : option A) : bool :=
  match d with
  | Some _ => false
  | None => true
  end.

(** [JSON.parse(JSON.stringify(v))]. *)
Definition JSON_clone (v : value) : M value :=
  let* h := gets st_heap in
  let* text := lift (JSON_stringify h v) in
  let* parsed := lift (JSON_parse text h) in
  set_heap parsed.2;;;
  ret parsed.1.

(** The own enumerable properties that object spread copies from [v]: those
    of an object, the items of an array under their indices, the characters
    of a string under their indices, nothing for the other primitives. *)
Definition own_props (h : heap) (v : value) : list (string * value) :=
  match v with
  | VRef l =>
      match h !! l with
      | Some (Obj ps) => ps
      | Some (Arr xs) => imap (fun i x => (pretty i, x)) xs
      | None => []
      end
  | VString s =>
      imap (fun i c => (pretty i, VString (String c EmptyString))) (String.list_ascii_of_string s)
  | _ => []
  end.

(** [{ ...a, ...b }]: a new object. *)
Definition spread (a b : value) : M value :=
  let* h := gets st_heap in
  alloc (Obj (assign (assign [] (own_props h a)) (own_props h b))).

(** [v === undefined || v === null]. *)
Definition nullish (v : value) : bool :=
  match v with
  | VUndefined | VNull => true
  | _ => false
  end.

(** The own property [k] of a value that is not nullish: a property of an
    object, an item or the length of an array, a character or the length of
    a string, and [undefined] otherwise.  Inherited properties, the methods,
    are not values here; the names that the code reads are not inherited
    ones. *)
Definition own_member (h : heap) (v : value) (k : string) : value :=
  match v, String.eqb k "length" with
  | VRef l, true =>
      match h !! l with
      | Some (Arr xs) => VNumber (Z.of_nat (length xs))
      | _ => default VUndefined (get_prop k (own_props h v))
      end
  | VString s, true => VNumber (Z.of_nat (String.length s))
  | _, _ => default VUndefined (get_prop k (own_props h v))
  end.

(** [v.k] and [v[k]]: reading a property of [undefined] or [null] is a
    [TypeError]. *)
Definition js_get (v : value) (k : string) : M value :=
  match v with
  | VUndefined => throw (TypeError "Cannot read properties of undefined")
  | VNull => throw (TypeError "Cannot read properties of null")
  | _ => let* h := gets st_heap in ret (own_member h v k)
  end.

(** [v[i]] for a number [i]. *)
Definition js_index (v : value) (i : nat) : M value := js_get v (pretty i).

(** [v?.rest]: [undefined] when [v] is nullish. *)
Definition js_optional (v : value) (rest : value -> M value) : M value :=
  if nullish v then ret VUndefined else rest v.

(** [v ?? d]. *)
Definition js_coalesce (v : value) (d : M value) : M value :=
  if nullish v then d else ret v.

(** [v === s] for a string literal [s]. *)
Definition strict_eq_string (v : value) (s : string) : bool :=
  match v with
  | VString t => String.eqb t s
  | _ => false
  end.

(** The walk of [Array.prototype.find]: the first item on which the
    callback is true, [undefined] when there is none. *)
Fixpoint find_item (callback : value -> M bool) (items : list value) : M value :=
  match items with
  | [] => ret VUndefined
  | item :: rest =>
      let* found := callback item in
      if found then ret item else find_item callback rest
  end.

(** [v.find(callback)]: only an array has the method. *)
Definition js_find (v : value) (callback : value -> M bool) : M value :=
  let* h := gets st_heap in
  match v with
  | VRef l =>
      match h !! l with
      | Some (Arr items) => find_item callback items
      | _ => throw (TypeError "find is not a function")
      end
  | _ => throw (TypeError "find is not a function")
  end.

(** ** Assignment to a property of an ordinary object

    [o[k] = v] on an object made by an object literal.  The own properties
    of an object are kept in the order in which [Object.entries],
    [Object.keys] and [JSON.stringify] enumerate them: the keys that are
    array indices first, in ascending order, then the other keys in the
    order in which they were created. *)

(** The value of a decimal digit. *)
Definition digit_value (c : Ascii.ascii) : option N :=
  let n := Ascii.N_of_ascii c in
  if andb (48 <=? n)%N (n <=? 57)%N then Some (n - 48)%N else None.

Fixpoint numeral_value (s : string) (acc : N) : option N :=
  match s with
  | EmptyString => Some acc
  | String c rest =>
      match digit_value c with
      | Some d => numeral_value rest (10 * acc + d)%N
      | None => None
      end
  end.

(** [k] as an array index: the canonical numeral, without a sign and
    without leading zeros, of an integer below [2^32 - 1]. *)
Definition array_index (k : string) : option N :=
  match k with
  | EmptyString => None
  | _ =>
      match numeral_value k 0 with
      | Some n => if andb (String.eqb (pretty n) k) (n <? 4294967295)%N then Some n else None
      | None => None
      end
  end.

Definition is_array_index (k : string) : bool :=
  match array_index k with
  | Some _ => true
  | None => false
  end.

(** Both keys are array indices, the first one the smaller. *)
Definition index_below (k k' : string) : Prop :=
  match array_index k, array_index k' with
  | Some m, Some n => (m < n)%N
  | _, _ => False
  end.

(** A new property with the array index [n] goes behind the indices that
    are below it. *)
Fixpoint insert_index {A} (n : N) (k : string) (v : A) (ps : list (string * A))
    : list (string * A) :=
  match ps with
  | [] => [(k, v)]
  | (k', v') :: rest =>
      match array_index k' with
      | Some m => if (m <? n)%N then (k', v') :: insert_index n k v rest else (k, v) :: ps
      | None => (k, v) :: ps
      end
  end.

(** [CreateDataProperty] for a key that the object does not have. *)
Definition create_prop {A} (k : string) (v : A) (ps : list (string * A))
    : list (string * A) :=
  match array_index k with
  | Some n => insert_index n k v ps
  | None => ps ++ [(k, v)]
  end.

(** The prototype of an object: [Object.prototype], as object literals
    have it, [null], or an object of the heap. *)
Inductive Prototype :=
| ObjectPrototype
| NullPrototype
| PrototypeAt (v : value).

(** An ordinary, extensible object whose own properties are writable data
    properties. *)
Record OrdinaryObject := {
  own_properties : list (string * value);
  prototype_of : Prototype
}.

(** [{}]. *)
Definition empty_object : OrdinaryObject :=
  {| own_properties := []; prototype_of := ObjectPrototype |}.

(** Whether the look up of [__proto__] along the prototype chain comes to
    the accessor of [Object.prototype].  An object of the heap was made by
    [JSON.parse] and has [Object.prototype] or, for an array,
    [Array.prototype] as its prototype; [JSON.parse] makes an own data
    property of a key [__proto__], which hides the accessor. *)
Definition reaches_proto_setter (h : heap) (p : Prototype) : bool :=
  match p with
  | ObjectPrototype => true
  | NullPrototype => false
  | PrototypeAt v => negb (has_prop "__proto__" (own_props h v))
  end.

(** The setter of [__proto__]: an object or [null] becomes the prototype,
    any other value is ignored. *)
Definition set_prototype (v : value) (p : Prototype) : Prototype :=
  match v with
  | VRef _ => PrototypeAt v
  | VNull => NullPrototype
  | _ => p
  end.

(** [o[k] = v].  An own property gets the value and keeps its place.
    Otherwise the key is looked up along the prototype chain: for
    [__proto__] this finds the accessor of [Object.prototype], whose
    setter changes the prototype of [o] and makes no property; every
    other property of the chain is a writable data property, and [o] gets
    a new own property. *)
Definition put_member (h : heap) (k : string) (v : value) (o : OrdinaryObject)
    : OrdinaryObject :=
  if has_prop k (own_properties o)
  then {| own_properties := set_prop k v (own_properties o);
          prototype_of := prototype_of o |}
  else if andb (String.eqb k "__proto__") (reaches_proto_setter h (prototype_of o))
  then {| own_properties := own_properties o;
          prototype_of := set_prototype v (prototype_of o) |}
  else {| own_properties := create_prop k v (own_properties o);
          prototype_of := prototype_of o |}.

(** ** The package graph

    [PackagesGraph] ([../packages-graph]) is not among the sources.  It is
    the item-resolution collaborator of the specification, which "exposes
    look up item by identity against the current universe". *)

(** Modelled from the spec: a node of [PackagesGraph], the item that a
    package name resolves to; [../packages-graph] is missing. *)
Record PackagesGraphNode := { node_pkg : Package }.

(** Modelled from the spec: [PackagesGraph], the current item universe;
    [../packages-graph] is missing. *)
Definition PackagesGraph := list PackagesGraphNode.

(** Modelled from the spec: [new PackagesGraph(allPackages)], a node per
    package of the repository; [../packages-graph] is missing. *)
Definition new_PackagesGraph (allPackages : list Package) : PackagesGraph :=
  map (fun p => {| node_pkg := p |}) allPackages.

(** Modelled from the spec: [graph.getNode(packageName)], the look up of an
    item by identity, here the name of its package; nothing when the name
    does not resolve.  [../packages-graph] is missing. *)
Definition getNode (graph : PackagesGraph) (name : string) : option PackagesGraphNode :=
  find (fun node => String.eqb (packageName (node_pkg node)) name) graph.

(** ** The task runner

    [TaskRunner] ([../TasksRunner]) is not among the sources: a runner is
    the record of what [main] gives its constructor, and what
    [runAndExitAsync] does with it is a parameter of [main]. *)

Record TaskRunner := {
  tasks : list Task;
  backupFilePath : string;
  backupExpirationTime : Z;
  run_validateBackup : TasksRunnerBackup -> M value;
  run_shouldUseBackup : M bool;
  run_createBackupData : Task -> list Parcel -> CommandOptions -> M PublishBackupData;
  run_restoreBackup : TasksRunnerBackup -> list Parcel -> M (list Parcel);
  run_backupValidationFailed : M unit
}.

(** ** Observations on outcomes *)

(** The value returned or the exception raised, without the state. *)
Definition returned {A} (r : outcome A) : result A :=
  match r with
  | Return a _ => Ok a
  | Raise e _ => Err e
  end.

(** [s] with another options object. *)
Definition with_options (o : CommandOptions) (s : State) : State :=
  {| st_options := o; st_heap := st_heap s; st_log := st_log s;
     st_head := st_head s; st_packages := st_packages s; st_locale := st_locale s |}.

(** [s] with another heap. *)
Definition with_heap (h : heap) (s : State) : State :=
  {| st_options := st_options s; st_heap := h; st_log := st_log s;
     st_head := st_head s; st_packages := st_packages s; st_locale := st_locale s |}.

(** [s] with another log. *)
Definition with_log (l : list LogEntry) (s : State) : State :=
  {| st_options := st_options s; st_heap := st_heap s; st_log := l;
     st_head := st_head s; st_packages := st_packages s; st_locale := st_locale s |}.

(** [m] leaves the options object as it is, whether it returns or raises. *)
Definition preserves_options {A} (m : M A) : Prop :=
  forall s, st_options (final_state (m s)) = st_options s.

(** The name of the package of a parcel. *)
Definition parcel_name (p : Parcel) : string := packageName (pkg p).

(** [JSON.stringify] accepts [v] and gives a document. *)
Definition serializable (h : heap) (v : value) : Prop :=
  exists j, JSON_stringify h v = Ok (Some j).

(** No object of a document has a key twice. *)
Fixpoint json_nodup (j : json) : Prop :=
  match j with
  | JArray js => fold_right (fun x acc => json_nodup x /\ acc) True js
  | JObject ps => NoDup (keys ps) /\ fold_right (fun kx acc => json_nodup kx.2 /\ acc) True ps
  | _ => True
  end.

(** No object occurs in a document. *)
Fixpoint no_object (j : json) : bool :=
  match j with
  | JArray js => forallb no_object js
  | JObject _ => false
  | _ => true
  end.

(** The package of [name] is in the current package graph. *)
Definition resolves (graph : PackagesGraph) (name : string) : bool :=
  match getNode graph name with
  | Some _ => true
  | None => false
  end.

(** ** Regions of the heap *)

(** [v] is a primitive or refers to a location from [a] up to [b]. *)
Definition val_in (a b : nat) (v : value) : Prop :=
  match v with
  | VRef l => a <= l < b
  | _ => True
  end.

(** The objects of [h] from [a] up to [b] refer to each other only. *)
Definition region_closed (a b : nat) (h : heap) : Prop :=
  forall l o, a <= l -> l < b -> h !! l = Some o -> Forall (val_in a b) (children o).

(** Each name occurs once in the object. *)
Definition nodup_object (o : object) : Prop :=
  match o with
  | Obj ps => NoDup (keys ps)
  | Arr _ => True
  end.

(** What an allocating step [h] to [h ++ new] that returns [v] for the
    document [j] has done: [v] serialises to [j], it is a primitive or one
    of the new objects, and the new objects refer to each other only. *)
Definition allocated (h new : heap) (v : value) (j : json) : Prop :=
  JSON_stringify (h ++ new) v = Ok (Some j) /\
  val_in (length h) (length h + length new) v /\
  region_closed (length h) (length h + length new) (h ++ new) /\
  Forall nodup_object new.

(** [copy], in the heap [h'], is a structural clone of [v] as it is in [h]:
    both serialise to the same document, and every object that [copy]
    reaches was allocated after [h]. *)
Definition clone_of (h h' : heap) (v copy : value) : Prop :=
  (exists j, JSON_stringify h v = Ok (Some j) /\ JSON_stringify h' copy = Ok (Some j)) /\
  (forall l, reach h' copy l -> length h <= l < length h').

(** The two values reach a common object. *)
Definition aliased (h : heap) (v w : value) : Prop :=
  exists l, reach h v l /\ reach h w l.

(** ** What a restore pushes *)

(** [p] is the parcel pushed for the entry [(name, bag)] of a backup: the
    package of the node of [name], with a bag allocated after [h] that is
    the spread of the default bag of the package and then of [bag]. *)
Definition restored_parcel (defaultState : Package -> list (string * value))
    (graph : PackagesGraph) (h h' : heap) (entry : string * value) (p : Parcel) : Prop :=
  exists node l,
    getNode graph entry.1 = Some node /\
    pkg p = node_pkg node /\
    state p = VRef l /\
    length h <= l < length h' /\
    h' !! l = Some (Obj (assign (assign [] (assign [] (defaultState (node_pkg node))))
                               (own_props h entry.2))).

(** ** Circular structures *)

(** The object at [l] refers to the object at [l']. *)
Definition edge (h : heap) (l l' : loc) : Prop :=
  exists o, h !! l = Some o /\ In (VRef l') (children o).

(** [v] reaches an object that reaches itself. *)
Definition circular (h : heap) (v : value) : Prop :=
  exists c, reach h v c /\ tc (edge h) c c.

(** ** A small repository

    One package [pkgA]; a parcel whose state bag holds a version and a list
    of logs; a backup taken at head [abc123] with the options below, whose
    state names [pkgA] and a package [old-pkg] that is no longer there. *)

Definition example_fields : list OptionName :=
  [OptPackageNames; OptPrerelease; OptTag; OptCommitMessage; OptDry].

Definition example_options : CommandOptions :=
  {| packageNames := Some ["expo-gl"]; prerelease := IsBool false; tag := "next";
     retry := false; commitMessage := None; force := false; deps := false;
     listUnpublished := false; grantAccess := false; checkIntegrity := false;
     canary := false; skipRepoChecks := false; dry := false |}.

(** The options as Commander delivers them, before [main] has run. *)
Definition commander_options : CommandOptions :=
  {| packageNames := None; prerelease := IsBool false; tag := "next";
     retry := false; commitMessage := None; force := false; deps := false;
     listUnpublished := false; grantAccess := false; checkIntegrity := false;
     canary := false; skipRepoChecks := false; dry := false |}.

(** The heap: at 0 and 1 the logs and the state bag of the live parcel of
    [pkgA]; at 2, 3 and 4 the objects of a backup read from its file: the
    logs and the bag of [pkgA], and the bag of [old-pkg]. *)
Definition example_heap : heap :=
  [Arr [VString "fix crash"];
   Obj [("version", VString "1.2.0"); ("logs", VRef 0)];
   Arr [VString "fix crash"];
   Obj [("version", VString "1.2.0"); ("logs", VRef 2)];
   Obj [("version", VString "0.9.0")]].

Definition example_state : State :=
  {| st_options := example_options;
     st_heap := example_heap;
     st_log := [];
     st_head := "abc123";
     st_packages := [{| packageName := "pkgA" |}];
     st_locale := fun _ => "1/1/2026, 12:00:00 AM" |}.

Definition example_parcels : list Parcel :=
  [{| pkg := {| packageName := "pkgA" |}; state := VRef 1 |}].

Definition example_data : PublishBackupData :=
  {| data_options := JObject (pick example_options example_fields);
     data_head := "abc123";
     data_state := [("pkgA", VRef 3); ("old-pkg", VRef 4)] |}.

Definition example_backup : TasksRunnerBackup :=
  {| timestamp := 0; data := Present example_data |}.

Definition example_defaultState (p : Package) : list (string * value) :=
  [("published", VBool false)].

(** A backup whose payload is missing. *)
Definition missing_backup : TasksRunnerBackup :=
  {| timestamp := 0; data := Undefined |}.

(** The state in which Commander calls [main]. *)
Definition commander_state : State :=
  {| st_options := commander_options;
     st_heap := example_heap;
     st_log := [];
     st_head := "abc123";
     st_packages := [{| packageName := "pkgA" |}];
     st_locale := fun _ => "1/1/2026, 12:00:00 AM" |}.

(** The same invocation with [--retry], and with another [--tag]. *)
Definition retry_state : State :=
  with_options (set_retry true example_options) example_state.

Definition latest_options : CommandOptions :=
  {| packageNames := Some ["expo-gl"]; prerelease := IsBool false; tag := "latest";
     retry := false; commitMessage := None; force := false; deps := false;
     listUnpublished := false; grantAccess := false; checkIntegrity := false;
     canary := false; skipRepoChecks := false; dry := false |}.

Definition latest_state : State := with_options latest_options example_state.

(** Several of the exclusive options at once. *)
Definition list_and_canary_options : CommandOptions :=
  {| packageNames := Some []; prerelease := IsBool false; tag := "next";
     retry := false; commitMessage := None; force := false; deps := false;
     listUnpublished := true; grantAccess := false; checkIntegrity := true;
     canary := true; skipRepoChecks := false; dry := false |}.

Definition example_shouldUseBackupAsync (options : CommandOptions) : M bool :=
  ret (retry options).

(** A bag with a member that is [undefined], and a bag that holds itself. *)
Definition sparse_heap : heap :=
  [Obj [("version", VString "2.0.0"); ("releaseType", VUndefined)]].

Definition knot_heap : heap :=
  [Obj [("self", VRef 0)]].

(** Two parcels of the same package. *)
Definition twin_parcels : list Parcel :=
  [{| pkg := {| packageName := "pkgA" |}; state := VRef 1 |};
   {| pkg := {| packageName := "pkgA" |}; state := VRef 4 |}].

(** A parcel whose package is named [__proto__], before the parcel of
    [pkgA]; and parcels whose names are [b], [10] and [9]. *)
Definition proto_parcels : list Parcel :=
  [{| pkg := {| packageName := "__proto__" |}; state := VRef 4 |};
   {| pkg := {| packageName := "pkgA" |}; state := VRef 1 |}].

Definition numbered_parcels : list Parcel :=
  [{| pkg := {| packageName := "b" |}; state := VRef 4 |};
   {| pkg := {| packageName := "10" |}; state := VRef 4 |};
   {| pkg := {| packageName := "9" |}; state := VRef 4 |}].

(** A runner that does nothing, to look at what [main] itself does. *)
Definition idle_runner (runner : TaskRunner) (args : list Parcel)
    (options : CommandOptions) : M unit := ret tt.

(** ** The build properties

    The functions that follow [tasksForOptions] in the source.  What they
    import is not among the sources: the path of the [package.json] of the
    project, [path.dirname], and [getConfig] of [@expo/config], which is
    called with [skipSDKVersionRequirement]. *)

Section BuildProperties.

Variable getProjectPackageJsonPathAsync : string -> M string.
Variable path_dirname : string -> string.
Variable getConfig : string -> bool -> M value.

(** Gets the [expo-build-properties] settings from the app config. *)
Definition getBuildPropertiesAsync (projectRoot : string) : M value :=
  let* packageJsonPath := getProjectPackageJsonPathAsync projectRoot in
  let projectPackageRoot := path_dirname packageJsonPath in
  let* projectConfig := getConfig projectPackageRoot true in
  let* config := js_get projectConfig "exp" in
  let* plugins := js_get config "plugins" in
  let* entry :=
    js_optional plugins (fun plugins =>
      js_find plugins (fun item =>
        let* name := js_index item 0 in
        ret (strict_eq_string name "expo-build-properties"))) in
  let* buildPropertiesPlugin := js_optional entry (fun entry => js_index entry 1) in
  js_coalesce buildPropertiesPlugin (alloc (Obj [])).

(** Resolves the extra dependencies from [expo-build-properties] settings. *)
Definition resolveExtraDependenciesAsync (projectRoot : string) : M value :=
  let* buildProps := getBuildPropertiesAsync projectRoot in
  let* android := js_get buildProps "android" in
  let* extraMavenRepos := js_optional android (fun android => js_get android "extraMavenRepos") in
  let* androidMavenRepos := js_coalesce extraMavenRepos (alloc (Arr [])) in
  let* ios := js_get buildProps "ios" in
  let* extraPods := js_optional ios (fun ios => js_get ios "extraPods") in
  let* iosPods := js_coalesce extraPods (alloc (Obj [])) in
  alloc (Obj [("androidMavenRepos", androidMavenRepos); ("iosPods", iosPods)]).

(** The app config of the project is read as [config]: the collaborators
    return, and the project config has its [exp] read.  [st'] is the state
    they leave. *)
Definition loads_config (projectRoot : string) (st : State) (config : value)
    (st' : State) : Prop :=
  exists packageJsonPath st1 projectConfig,
    getProjectPackageJsonPathAsync projectRoot st = Return packageJsonPath st1 /\
    getConfig (path_dirname packageJsonPath) true st1 = Return projectConfig st' /\
    js_get projectConfig "exp" st' = Return config st'.

End BuildProperties.

(** [item[0] === 'expo-build-properties'] for an item that is not nullish. *)
Definition names_build_properties (h : heap) (item : value) : bool :=
  strict_eq_string (own_member h item "0") "expo-build-properties".

(** [buildProps.k?.m] on a value that has members. *)
Definition optional_member (h : heap) (v : value) (k m : string) : value :=
  if nullish (own_member h v k) then VUndefined
  else own_member h (own_member h v k) m.

(** An item of [plugins] that the search passes: it is not nullish, and it
    is not an entry of the build properties. *)
Definition passed (h : heap) (item : value) : Prop :=
  nullish item = false /\ names_build_properties h item = false.

(** *** An app config

    The plugins of the app: [expo-font] by its name only, then the build
    properties with an extra Maven repository for Android. *)

Definition config_heap : heap :=
  [Obj [("url", VString "https://maven.example.org")];
   Arr [VRef 0];
   Obj [("extraMavenRepos", VRef 1)];
   Obj [("android", VRef 2)];
   Arr [VString "expo-build-properties"; VRef 3];
   Arr [VString "expo-font"; VRef 4];
   Obj [("name", VString "app"); ("plugins", VRef 5)];
   Obj [("exp", VRef 6)]].

Definition config_state : State := with_heap config_heap example_state.

Definition example_getProjectPackageJsonPathAsync (projectRoot : string) : M string :=
  ret (projectRoot +:+ "/package.json").

Definition example_dirname (path : string) : string := "/app".

(** [getConfig] that gives the project config at [l]. *)
Definition config_at (l : loc) (projectRoot : string) (skipSDKVersionRequirement : bool)
    : M value :=
  ret (VRef l).

(** An app config without plugins, one whose plugins are names only, one
    with [null] among the plugins, and one whose build properties are
    listed twice. *)
Definition bare_heap : heap :=
  [Obj [("name", VString "app")];
   Obj [("exp", VRef 0)];
   Arr [VString "expo-font"; VString "expo-build-properties"];
   Obj [("plugins", VRef 2)];
   Obj [("exp", VRef 3)];
   Arr [VNull; VRef 7];
   Obj [("plugins", VRef 5)];
   Arr [VString "expo-build-properties"; VRef 9];
   Obj [("exp", VRef 6)];
   Obj [("ios", VRef 10)];
   Obj [("extraPods", VBool false)];
   Arr [VString "expo-build-properties"; VRef 12];
   Obj [];
   Arr [VRef 7; VRef 11; VNull];
   Obj [("plugins", VRef 13)];
   Obj [("exp", VRef 14)]].

Definition bare_state : State := with_heap bare_heap example_state.

(** ** The command *)

Section PublishPackages.

(** What the command imports from modules that are not among the
    sources. *)

(** The names of the options that [pickBackupableOptions] keeps. *)
Variable BACKUPABLE_OPTIONS_FIELDS : list OptionName.

(** The state bag of a newly made parcel. *)
Variable defaultState : Package -> list (string * value).

Variable shouldUseBackupAsync : CommandOptions -> M bool.
Variable BACKUP_PATH : string.
Variable BACKUP_EXPIRATION_TIME : Z.
Variable runAndExitAsync : TaskRunner -> list Parcel -> CommandOptions -> M unit.

(** Modelled from the spec: [pickBackupableOptions]
    ([../publish-packages/helpers] is not among the sources).  "A declared
    subset" of the options "is checkpoint-relevant": the object made of
    that subset of the properties of the options. *)
Definition pickBackupableOptions (options : CommandOptions) : json :=
  JObject (pick options BACKUPABLE_OPTIONS_FIELDS).

(** Modelled from the spec: [getCachedParcel]
    ([../publish-packages/tasks/loadRequestedParcels] is not among the
    sources).  Restored state is merged "onto freshly constructed default
    work units": the parcel of a node is its package with a new state bag
    that holds the default members. *)
Definition getCachedParcel (node : PackagesGraphNode) : M Parcel :=
  let* bag := alloc (Obj (assign [] (defaultState (node_pkg node)))) in
  ret {| pkg := node_pkg node; state := bag |}.

(** Backup is valid if current head commit hash is the same as from the
    time where the backup was saved, and there is no difference in command
    options. *)
Definition validateBackup (backup : TasksRunnerBackup) : M value :=
  let* headCommitHash := Git_getHeadCommitHashAsync in
  let* options := gets st_options in
  js_and
    (and_member (data backup)
       (let* d := member (data backup) in
        ret (VBool (String.eqb headCommitHash (data_head d)))))
    (let* d := member (data backup) in
     ret (VBool (js_not (diff (pickBackupableOptions options) (data_options d))))).

(** At this point a backup is valid but we can discard it if [--retry]
    option wasn't provided. *)
Definition shouldUseBackup : M bool :=
  let* options := gets st_options in
  shouldUseBackupAsync options.

(** The loop of [createBackupData]: [data.state[pkg.packageName] = ...]
    with a clone of the state of each parcel in turn, on the object
    [data.state]. *)
Fixpoint createBackupData_loop (parcels : list Parcel)
    (data_state : OrdinaryObject) : M OrdinaryObject :=
  match parcels with
  | [] => ret data_state
  | parcel :: rest =>
      let* copy := JSON_clone (state parcel) in
      let* h := gets st_heap in
      createBackupData_loop rest (put_member h (packageName (pkg parcel)) copy data_state)
  end.

(** Provides backup data for task runner.  [data.state] starts as [{}];
    the payload has its own properties, in the order of enumeration. *)
Definition createBackupData (task : Task) (parcels : list Parcel)
    (options : CommandOptions) : M PublishBackupData :=
  let picked := pickBackupableOptions options in
  let* head := Git_getHeadCommitHashAsync in
  let* states := createBackupData_loop parcels empty_object in
  ret {| data_options := picked; data_head := head;
         data_state := own_properties states |}.

(** The loop of [restoreBackup] over [Object.entries(backup.data.state)].
    The assignment to [parcel.state] gives the parcel the merged bag, and
    [parcels.push(parcel)] puts it at the end of the array; the result is
    the content of the [parcels] array after the pushes. *)
Fixpoint restoreBackup_loop (graph : PackagesGraph)
    (entries : list (string * value)) (parcels : list Parcel) : M (list Parcel) :=
  match entries with
  | [] => ret parcels
  | (packageName, restoredState) :: rest =>
      match getNode graph packageName with
      | Some node =>
          let* parcel := getCachedParcel node in
          let* merged := spread (state parcel) restoredState in
          restoreBackup_loop graph rest (parcels ++ [{| pkg := pkg parcel; state := merged |}])
      | None => restoreBackup_loop graph rest parcels
      end
  end.

(** Applies given backup to parcels array. *)
Definition restoreBackup (backup : TasksRunnerBackup) (parcels : list Parcel)
    : M (list Parcel) :=
  let* toLocaleString := gets st_locale in
  let dateString := toLocaleString (timestamp backup) in
  logger_info [Plain "♻️  Restoring from backup saved on "; Magenta dateString; Plain "..."];;;
  let* allPackages := getListOfPackagesAsync in
  let graph := new_PackagesGraph allPackages in
  let* d := member (data backup) in
  restoreBackup_loop graph (data_state d) parcels.

(** Method that is called once existing backup is no longer valid. *)
Definition backupValidationFailed : M unit :=
  logger_warn
    [Plain "⚠️  Found backup file but you've run the command with different options. Continuing from scratch..."].

(** Returns target task instances based on provided command options. *)
Definition tasksForOptions (options : CommandOptions) : list Task :=
  if listUnpublished options then [listUnpublished_task]
  else if grantAccess options then [grantTeamAccessToPackages]
  else if checkIntegrity options then [checkPackagesIntegrity]
  else if canary options then [publishCanaryPipeline]
  else [publishPackagesPipeline].

(** Main action of the command. Goes through appropriate tasks, based on
    command options. *)
Definition main (packageNames : list string) : M unit :=
  let* options := gets st_options in
  set_options (set_packageNames packageNames options);;;
  let* options := gets st_options in
  let tasks := tasksForOptions options in
  let taskRunner :=
    {| tasks := tasks;
       backupFilePath := BACKUP_PATH;
       backupExpirationTime := BACKUP_EXPIRATION_TIME;
       run_validateBackup := validateBackup;
       run_shouldUseBackup := shouldUseBackup;
       run_createBackupData := createBackupData;
       run_restoreBackup := restoreBackup;
       run_backupValidationFailed := backupValidationFailed |} in
  runAndExitAsync taskRunner [] options.

(** ** Property lists *)

Lemma get_prop_set_prop {A} (k k' : string) (v : A) (ps : list (string * A)) :
  get_prop k (set_prop k' v ps) = if String.eqb k k' then Some v else get_prop k ps.
Proof.
  induction ps as [|[k0 v0] ps IH]; simpl.
  - destruct (String.eqb k k'); reflexivity.
  - destruct (String.eqb k' k0) eqn:E0; simpl.
    + apply String.eqb_eq in E0; subst k0.
      destruct (String.eqb k k'); reflexivity.
    + rewrite IH. destruct (String.eqb k k') eqn:E; [|reflexivity].
      apply String.eqb_eq in E; subst k'. rewrite E0. reflexivity.
Qed.

Lemma get_prop_In {A} (k : string) (v : A) (ps : list (string * A)) :
  get_prop k ps = Some v -> In (k, v) ps.
Proof.
  induction ps as [|[k0 v0] ps IH]; simpl; [discriminate|].
  destruct (String.eqb k k0) eqn:E.
  - apply String.eqb_eq in E; subst k0. intros [= ->]. left; reflexivity.
  - intros H. right. apply IH, H.
Qed.

Lemma get_prop_None {A} (k : string) (ps : list (string * A)) :
  get_prop k ps = None <-> ~ In k (keys ps).
Proof.
  induction ps as [|[k0 v0] ps IH]; simpl.
  - split; [intros _ []|reflexivity].
  - destruct (String.eqb k k0) eqn:E.
    + apply String.eqb_eq in E; subst k0. split; [discriminate|]. intros H; destruct H; left; reflexivity.
    + apply String.eqb_neq in E. rewrite IH. split.
      * intros H [H1|H1]; [congruence|contradiction].
      * intros H H1. apply H. right. exact H1.
Qed.

Lemma get_prop_nodup {A} (k : string) (v : A) (ps : list (string * A)) :
  NoDup (keys ps) -> In (k, v) ps -> get_prop k ps = Some v.
Proof.
  induction ps as [|[k0 v0] ps IH]; simpl; [intros _ []|].
  intros Hnd [H|H].
  - injection H as -> ->. rewrite String.eqb_refl. reflexivity.
  - apply NoDup_cons in Hnd as [Hk Hnd].
    destruct (String.eqb k k0) eqn:E.
    + apply String.eqb_eq in E; subst k0. exfalso. apply Hk.
      apply list_elem_of_In. apply (in_map fst) in H. exact H.
    + apply IH; assumption.
Qed.

Lemma keys_set_prop {A} (k : string) (v : A) (ps : list (string * A)) :
  keys (set_prop k v ps) = if has_prop k ps then keys ps else keys ps ++ [k].
Proof.
  unfold has_prop, keys. induction ps as [|[k0 v0] ps IH]; simpl; [reflexivity|].
  destruct (String.eqb k k0) eqn:E; simpl; [reflexivity|].
  rewrite IH. destruct (get_prop k ps); reflexivity.
Qed.

Lemma In_keys_set_prop {A} (k k' : string) (v : A) (ps : list (string * A)) :
  In k' (keys (set_prop k v ps)) <-> k' = k \/ In k' (keys ps).
Proof.
  rewrite keys_set_prop. unfold has_prop. destruct (get_prop k ps) as [x|] eqn:E.
  - split; [tauto|]. intros [->|H]; [|exact H].
    apply get_prop_In in E. apply (in_map fst) in E. exact E.
  - rewrite in_app_iff. simpl. split; [intros [H|[H|[]]]; auto|intros [H|H]; auto].
Qed.

Lemma NoDup_keys_set_prop {A} (k : string) (v : A) (ps : list (string * A)) :
  NoDup (keys ps) -> NoDup (keys (set_prop k v ps)).
Proof.
  intros Hnd. rewrite keys_set_prop. unfold has_prop.
  destruct (get_prop k ps) eqn:E; [exact Hnd|].
  apply NoDup_app. split; [exact Hnd|]. split.
  - intros x Hx Hx'. apply list_elem_of_In in Hx. apply list_elem_of_In in Hx'.
    destruct Hx' as [<-|[]]. apply get_prop_None in E. contradiction.
  - apply NoDup_singleton.
Qed.

Lemma NoDup_keys_assign {A} (target ps : list (string * A)) :
  NoDup (keys target) -> NoDup (keys (assign target ps)).
Proof.
  unfold assign. revert target. induction ps as [|[k v] ps IH]; simpl; intros target H.
  - exact H.
  - apply IH. apply NoDup_keys_set_prop. exact H.
Qed.

Lemma set_prop_fresh {A} (k : string) (v : A) (ps : list (string * A)) :
  ~ In k (keys ps) -> set_prop k v ps = ps ++ [(k, v)].
Proof.
  induction ps as [|[k0 v0] ps IH]; simpl; intros H; [reflexivity|].
  destruct (String.eqb k k0) eqn:E.
  - apply String.eqb_eq in E. exfalso. apply H. left. congruence.
  - rewrite IH; [reflexivity|]. intros H'. apply H. right. exact H'.
Qed.

(** Copying properties with distinct names into an object that has none of
    them appends them in order. *)
Lemma assign_nodup {A} (target ps : list (string * A)) :
  NoDup (keys ps) -> (forall k, In k (keys ps) -> ~ In k (keys target)) ->
  assign target ps = target ++ ps.
Proof.
  unfold assign. revert target. induction ps as [|[k v] ps IH]; simpl; intros target Hnd Hdis.
  - rewrite app_nil_r. reflexivity.
  - apply NoDup_cons in Hnd as [Hk Hnd].
    rewrite set_prop_fresh by (apply Hdis; left; reflexivity).
    rewrite IH; [rewrite <- app_assoc; reflexivity|exact Hnd|].
    intros k' Hk' Hin. unfold keys in Hin. rewrite map_app, in_app_iff in Hin. simpl in Hin.
    destruct Hin as [Hin|[<-|[]]].
    + apply (Hdis k'); [right; exact Hk'|exact Hin].
    + apply Hk. apply list_elem_of_In. exact Hk'.
Qed.

Lemma assign_nil_nodup {A} (ps : list (string * A)) :
  NoDup (keys ps) -> assign [] ps = ps.
Proof.
  intros H. rewrite assign_nodup; [reflexivity|exact H|]. intros k _ [].
Qed.

Lemma get_prop_app {A} (k : string) (ps qs : list (string * A)) :
  get_prop k (ps ++ qs) =
  match get_prop k ps with
  | Some v => Some v
  | None => get_prop k qs
  end.
Proof.
  induction ps as [|[k0 v0] ps IH]; simpl; [reflexivity|].
  destruct (String.eqb k k0); [reflexivity|exact IH].
Qed.

(** After copying [ps] into [target], a name has the value that [ps] gives
    it last, or the value it had in [target]. *)
Lemma get_prop_assign_last {A} (k : string) (target ps : list (string * A)) :
  get_prop k (assign target ps) =
  match get_prop k (rev ps) with
  | Some v => Some v
  | None => get_prop k target
  end.
Proof.
  unfold assign. revert target. induction ps as [|[k0 v0] ps IH]; simpl; intros target.
  - reflexivity.
  - rewrite IH, get_prop_app, get_prop_set_prop. simpl.
    destruct (get_prop k (rev ps)); [reflexivity|].
    destruct (String.eqb k k0); reflexivity.
Qed.

(** Object spread: a property of the source wins over the target. *)
Lemma get_prop_assign {A} (k : string) (target ps : list (string * A)) :
  get_prop k (assign target ps) =
  match get_prop k (assign [] ps) with
  | Some v => Some v
  | None => get_prop k target
  end.
Proof.
  rewrite (get_prop_assign_last k target), (get_prop_assign_last k []).
  destruct (get_prop k (rev ps)); reflexivity.
Qed.

(** ** Documents and their differences *)

(** Induction on documents, through the lists of items and properties. *)
Lemma json_ind (P : json -> Prop) :
  P JNull -> (forall b, P (JBool b)) -> (forall n, P (JNumber n)) ->
  (forall s, P (JString s)) ->
  (forall js, Forall P js -> P (JArray js)) ->
  (forall ps, Forall (fun kx => P kx.2) ps -> P (JObject ps)) ->
  forall j, P j.
Proof.
  intros Hnull Hbool Hnum Hstr Harr Hobj.
  fix IH 1. intros [| b | n | s | js | ps].
  - exact Hnull.
  - apply Hbool.
  - apply Hnum.
  - apply Hstr.
  - apply Harr. induction js as [|j js IHjs]; constructor; [apply IH|exact IHjs].
  - apply Hobj. induction ps as [|[k j] ps IHps]; constructor; [apply IH|exact IHps].
Qed.

Lemma diff_props_nil (rec : json -> json -> option delta) (ps qs : list (string * json)) :
  diff_props rec ps qs = [] ->
  forall k x, In (k, x) ps -> exists y, get_prop k qs = Some y /\ rec x y = None.
Proof.
  induction ps as [|[k0 x0] ps IH]; simpl; intros H k x; [intros []|].
  destruct (get_prop k0 qs) as [y|] eqn:E; [|discriminate].
  destruct (rec x0 y) eqn:R; [discriminate|].
  intros [[= <- <-]|Hin].
  - exists y. split; assumption.
  - apply IH; assumption.
Qed.

Lemma added_props_nil (ps qs : list (string * json)) :
  added_props ps qs = [] ->
  forall k, has_prop k ps = false -> get_prop k qs = None.
Proof.
  unfold added_props. intros H k Hk.
  destruct (get_prop k qs) as [y|] eqn:E; [|reflexivity].
  apply get_prop_In in E. apply fmap_nil_inv in H.
  assert (Hin : (k, y) ∈ filter (fun kv : string * json => has_prop kv.1 ps = false) qs).
  { apply list_elem_of_filter. split; [exact Hk|]. apply list_elem_of_In. exact E. }
  rewrite H in Hin. inversion Hin.
Qed.

(** An empty difference from an object: the other side is an object with the
    same property names, and no property differs. *)
Lemma diff_object_none (ps : list (string * json)) (b : json) :
  diff (JObject ps) b = None ->
  exists qs, b = JObject qs /\
    (forall k x, In (k, x) ps -> exists y, get_prop k qs = Some y /\ diff x y = None) /\
    (forall k, has_prop k ps = false -> get_prop k qs = None).
Proof.
  destruct b as [| | | | |qs]; simpl; try discriminate.
  destruct (diff_props diff ps qs ++ added_props ps qs) eqn:E; [|discriminate].
  intros _. apply app_eq_nil in E as [E1 E2]. exists qs. split; [reflexivity|]. split.
  - apply diff_props_nil. exact E1.
  - apply added_props_nil. exact E2.
Qed.

Lemma diff_items_nil (rec : json -> json -> option delta) (xs : list json) :
  Forall (fun x => forall y, rec x y = None -> y = x) xs ->
  forall i ys, diff_items rec i xs ys = [] -> ys = xs.
Proof.
  induction 1 as [|x xs Hx _ IH]; intros i ys; simpl.
  - destruct ys; [reflexivity|discriminate].
  - destruct ys as [|y ys]; [discriminate|].
    destruct (rec x y) eqn:R; [discriminate|].
    intros H. f_equal; [apply Hx, R|apply (IH _ _ H)].
Qed.

(** On documents without objects an empty difference is equality. *)
Lemma diff_none_no_object (a b : json) :
  no_object a = true -> diff a b = None -> b = a.
Proof.
  revert b. induction a as [| x | x | x | js IH | ps IH] using json_ind; intros b Hno.
  - destruct b; simpl; try discriminate. reflexivity.
  - destruct b as [|y| | | |]; simpl; try discriminate.
    destruct (Bool.eqb x y) eqn:E; [|discriminate].
    apply Bool.eqb_prop in E. congruence.
  - destruct b as [| |y| | |]; simpl; try discriminate.
    destruct (x =? y)%Z eqn:E; [|discriminate].
    apply Z.eqb_eq in E. congruence.
  - destruct b as [| | |y| |]; simpl; try discriminate.
    destruct (String.eqb x y) eqn:E; [|discriminate].
    apply String.eqb_eq in E. congruence.
  - destruct b as [| | | |ys|]; simpl; try discriminate.
    destruct (diff_items diff 0 js ys) eqn:E; [|discriminate].
    intros _. f_equal. apply (diff_items_nil diff js) with (i := 0); [|exact E].
    simpl in Hno. clear E. induction IH as [|j js Hj _ IHjs]; constructor.
    + simpl in Hno. apply andb_true_iff in Hno as [Hno _]. intros y. apply Hj, Hno.
    + apply IHjs. simpl in Hno. apply andb_true_iff in Hno as [_ Hno]. exact Hno.
  - discriminate.
Qed.

(** ** The options that are kept *)

Lemma option_key_inj (f g : OptionName) : option_key f = option_key g -> f = g.
Proof. destruct f, g; simpl; intros H; try reflexivity; discriminate H. Qed.

Lemma option_value_no_object (o : CommandOptions) (f : OptionName) (v : json) :
  option_value o f = Some v -> no_object v = true.
Proof.
  destruct f; simpl; try (intros [= <-]; reflexivity).
  - destruct (packageNames o) as [names|]; simpl; [|discriminate].
    intros [= <-]. simpl. induction names; simpl; [reflexivity|assumption].
  - intros [= <-]. destruct (prerelease o); reflexivity.
  - destruct (commitMessage o); simpl; [|discriminate]. intros [= <-]. reflexivity.
Qed.

(** A kept property is read from the options; a name that is not kept is
    not in the picked object. *)
Lemma get_prop_pick (o : CommandOptions) (fields : list OptionName) (f : OptionName) :
  get_prop (option_key f) (pick o fields) =
  if decide (f ∈ fields) then option_value o f else None.
Proof.
  unfold pick.
  assert (G : forall acc,
    get_prop (option_key f)
      (fold_left (fun acc f => match option_value o f with
                               | Some v => set_prop (option_key f) v acc
                               | None => acc
                               end) fields acc) =
    if decide (f ∈ fields) then
      match option_value o f with
      | Some v => Some v
      | None => get_prop (option_key f) acc
      end
    else get_prop (option_key f) acc).
  { induction fields as [|g fields IH]; intros acc; simpl.
    - destruct (decide (f ∈ [])) as [H|_]; [inversion H|reflexivity].
    - rewrite IH. destruct (decide (g = f)) as [->|Hne].
      + destruct (decide (f ∈ f :: fields)) as [_|n]; [|exfalso; apply n; left].
        destruct (option_value o f) as [v|] eqn:Ev.
        * rewrite get_prop_set_prop, String.eqb_refl.
          destruct (decide (f ∈ fields)); reflexivity.
        * destruct (decide (f ∈ fields)); reflexivity.
      + assert (Hacc : get_prop (option_key f)
                  (match option_value o g with
                   | Some v => set_prop (option_key g) v acc
                   | None => acc
                   end) = get_prop (option_key f) acc).
        { destruct (option_value o g); [|reflexivity].
          rewrite get_prop_set_prop.
          destruct (String.eqb (option_key f) (option_key g)) eqn:E; [|reflexivity].
          apply String.eqb_eq, option_key_inj in E. congruence. }
        rewrite Hacc.
        destruct (decide (f ∈ fields)) as [Hin|Hnin].
        * destruct (decide (f ∈ g :: fields)) as [_|n]; [reflexivity|].
          exfalso; apply n; right; exact Hin.
        * destruct (decide (f ∈ g :: fields)) as [H|_]; [|reflexivity].
          apply elem_of_cons in H as [H|H]; [congruence|contradiction]. }
  rewrite G. simpl. destruct (decide (f ∈ fields)); [|reflexivity].
  destruct (option_value o f); reflexivity.
Qed.

Lemma pick_ext (o1 o2 : CommandOptions) (fields : list OptionName) :
  (forall f, f ∈ fields -> option_value o1 f = option_value o2 f) ->
  pick o1 fields = pick o2 fields.
Proof.
  unfold pick. generalize (@nil (string * json)).
  induction fields as [|g fields IH]; intros acc H; simpl; [reflexivity|].
  rewrite (H g) by left. apply IH. intros f Hf. apply H. right. exact Hf.
Qed.

(** ** The validity of a backup *)

(** What [validateBackup] computes, in one step: the state is left as it
    was and no exception is raised. *)
Lemma validateBackup_eval (backup : TasksRunnerBackup) (st : State) :
  validateBackup backup st =
  Return
    (match data backup with
     | Undefined => VUndefined
     | Null => VNull
     | Present d =>
         VBool (String.eqb (st_head st) (data_head d)
                && js_not (diff (pickBackupableOptions (st_options st)) (data_options d)))
     end) st.
Proof.
  unfold validateBackup, js_and, and_member, member, bind, gets,
    Git_getHeadCommitHashAsync, ret, throw.
  destruct (data backup) as [| |d]; simpl; try reflexivity.
  destruct (String.eqb (st_head st) (data_head d)); reflexivity.
Qed.

(** C1. Validity law: [validateBackup] returns [true] exactly when the
    payload of the backup is there, the current head commit hash is the one
    saved in the backup, and [jsondiffpatch] finds no difference between the
    picked options of the invocation and the options saved in the backup.
    The state is the same afterwards. *)
Theorem validateBackup_valid_iff (backup : TasksRunnerBackup) (st : State) :
  validateBackup backup st = Return (VBool true) st <->
  exists d, data backup = Present d /\
            st_head st = data_head d /\
            diff (pickBackupableOptions (st_options st)) (data_options d) = None.
Proof.
  rewrite validateBackup_eval. split.
  - destruct (data backup) as [| |d]; try discriminate.
    intros H.
    assert (Hb : String.eqb (st_head st) (data_head d)
                 && js_not (diff (pickBackupableOptions (st_options st)) (data_options d)) = true)
      by congruence.
    apply andb_true_iff in Hb as [Hh Hd].
    exists d. split; [reflexivity|]. split; [apply String.eqb_eq, Hh|].
    destruct (diff _ _); [discriminate Hd|reflexivity].
  - intros (d & -> & Hh & Hd). rewrite Hd, Hh, String.eqb_refl. reflexivity.
Qed.

(** C10. Missing-payload safety: when the payload of the backup is missing
    or [null], [validateBackup] raises nothing and returns that falsy
    payload itself ([undefined] or [null]); the members of the payload are
    never read. *)
Theorem validateBackup_missing_data (backup : TasksRunnerBackup) (st : State) :
  data backup = Undefined \/ data backup = Null ->
  exists v, validateBackup backup st = Return v st /\ truthy v = false /\
            (v = VUndefined \/ v = VNull).
Proof.
  intros H. rewrite validateBackup_eval.
  destruct H as [-> | ->]; eexists; (split; [reflexivity|]); simpl; auto.
Qed.

(** C5. Noninterference of the options that are not kept: two invocations
    with the same head and the same picked options get the same verdict on a
    backup; so do two invocations whose options differ in one option that is
    not kept, which is the case of [--retry] when it is not kept; and when a
    kept option differs, a backup that is valid for the first invocation is
    judged [false] for the second. *)
Theorem validateBackup_noninterference (backup : TasksRunnerBackup) (st1 st2 : State) :
  st_head st1 = st_head st2 ->
  (pickBackupableOptions (st_options st1) = pickBackupableOptions (st_options st2) ->
   returned (validateBackup backup st1) = returned (validateBackup backup st2)) /\
  (forall f, f ∉ BACKUPABLE_OPTIONS_FIELDS ->
     (forall g, g <> f -> option_value (st_options st1) g = option_value (st_options st2) g) ->
     returned (validateBackup backup st1) = returned (validateBackup backup st2)) /\
  (OptRetry ∉ BACKUPABLE_OPTIONS_FIELDS ->
   forall b, st_options st2 = set_retry b (st_options st1) ->
     returned (validateBackup backup st1) = returned (validateBackup backup st2)) /\
  (forall f, f ∈ BACKUPABLE_OPTIONS_FIELDS ->
     option_value (st_options st1) f <> option_value (st_options st2) f ->
     returned (validateBackup backup st1) = Ok (VBool true) ->
     returned (validateBackup backup st2) = Ok (VBool false)).
Proof.
  intros Hhead.
  assert (Hsame : pickBackupableOptions (st_options st1) = pickBackupableOptions (st_options st2) ->
                  returned (validateBackup backup st1) = returned (validateBackup backup st2)).
  { intros Hp. rewrite !validateBackup_eval. cbn [returned]. rewrite Hp, Hhead. reflexivity. }
  assert (Hother : forall f, f ∉ BACKUPABLE_OPTIONS_FIELDS ->
     (forall g, g <> f -> option_value (st_options st1) g = option_value (st_options st2) g) ->
     returned (validateBackup backup st1) = returned (validateBackup backup st2)).
  { intros f Hf Hg. apply Hsame. unfold pickBackupableOptions. f_equal.
    apply pick_ext. intros g Hin. apply Hg. intros ->. contradiction. }
  split; [exact Hsame|]. split; [exact Hother|]. split.
  - intros Hretry b Hb. apply (Hother OptRetry Hretry).
    intros g Hg. rewrite Hb. destruct g; try reflexivity. congruence.
  - intros f Hf Hne. rewrite !validateBackup_eval. cbn [returned].
    destruct (data backup) as [| |d]; try discriminate.
    intros H.
    assert (Hb : String.eqb (st_head st1) (data_head d)
                 && js_not (diff (pickBackupableOptions (st_options st1)) (data_options d)) = true)
      by congruence.
    clear H. apply andb_true_iff in Hb as [Hh Hd].
    rewrite <- Hhead, Hh. cbn [andb]. do 2 f_equal.
    destruct (diff (pickBackupableOptions (st_options st2)) (data_options d)) eqn:D2; [reflexivity|].
    exfalso.
    destruct (diff (pickBackupableOptions (st_options st1)) (data_options d)) eqn:D1; [discriminate|].
    unfold pickBackupableOptions in D1, D2.
    apply diff_object_none in D1 as (qs & Eq1 & In1 & Out1).
    apply diff_object_none in D2 as (qs2 & Eq2 & In2 & Out2).
    rewrite Eq1 in Eq2. injection Eq2 as <-.
    pose proof (get_prop_pick (st_options st1) BACKUPABLE_OPTIONS_FIELDS f) as G1.
    pose proof (get_prop_pick (st_options st2) BACKUPABLE_OPTIONS_FIELDS f) as G2.
    destruct (decide (f ∈ BACKUPABLE_OPTIONS_FIELDS)); [|contradiction].
    assert (Q : forall o,
                get_prop (option_key f) (pick o BACKUPABLE_OPTIONS_FIELDS) = option_value o f ->
                (forall k x, In (k, x) (pick o BACKUPABLE_OPTIONS_FIELDS) ->
                             exists y, get_prop k qs = Some y /\ diff x y = None) ->
                (forall k, has_prop k (pick o BACKUPABLE_OPTIONS_FIELDS) = false ->
                           get_prop k qs = None) ->
                get_prop (option_key f) qs = option_value o f).
    { intros o G Hin Hout. destruct (option_value o f) as [v|] eqn:Hv.
      - apply get_prop_In, Hin in G as (y & Hy & Hdiff).
        apply diff_none_no_object in Hdiff; [congruence|].
        apply (option_value_no_object o f). exact Hv.
      - apply Hout. unfold has_prop. rewrite G. reflexivity. }
    pose proof (Q _ G1 In1 Out1). pose proof (Q _ G2 In2 Out2). congruence.
Qed.

(** ** The choice of tasks *)

(** C9. Exclusive task selection: [tasksForOptions] returns one task,
    chosen by the first flag that is set in the order [listUnpublished],
    [grantAccess], [checkIntegrity], [canary]; the publish pipeline is the
    choice when none is set.  The flags after the first one that is set are
    not looked at. *)
Theorem tasksForOptions_exclusive (options : CommandOptions) :
  (exists task, tasksForOptions options = [task]) /\
  (listUnpublished options = true ->
   tasksForOptions options = [listUnpublished_task]) /\
  (listUnpublished options = false -> grantAccess options = true ->
   tasksForOptions options = [grantTeamAccessToPackages]) /\
  (listUnpublished options = false -> grantAccess options = false ->
   checkIntegrity options = true ->
   tasksForOptions options = [checkPackagesIntegrity]) /\
  (listUnpublished options = false -> grantAccess options = false ->
   checkIntegrity options = false -> canary options = true ->
   tasksForOptions options = [publishCanaryPipeline]) /\
  (listUnpublished options = false -> grantAccess options = false ->
   checkIntegrity options = false -> canary options = false ->
   tasksForOptions options = [publishPackagesPipeline]).
Proof.
  unfold tasksForOptions.
  destruct (listUnpublished options), (grantAccess options),
    (checkIntegrity options), (canary options);
    (split; [eexists; reflexivity|]); repeat split; intros; try reflexivity; discriminate.
Qed.

(** ** The notification of an invalid backup *)

(** C8. [backupValidationFailed] raises nothing and only logs: one warning
    is added to the log, and the options, the heap with the state bags of
    parcels and backups, and what is known of the repository are as they
    were. *)
Theorem backupValidationFailed_only_warns (st : State) :
  exists st' message,
    backupValidationFailed st = Return tt st' /\
    st_log st' = st_log st ++ [LogWarn message] /\
    st_options st' = st_options st /\
    st_heap st' = st_heap st /\
    st_head st' = st_head st /\
    st_packages st' = st_packages st /\
    st_locale st' = st_locale st.
Proof.
  unfold backupValidationFailed, logger_warn, log.
  eexists. eexists. split; [reflexivity|]. simpl. repeat split; reflexivity.
Qed.

(** ** Serialisation *)

Lemma stringify_props_weaken (rec1 rec2 : value -> result (option json))
    (ps : list (string * value)) (js : list (string * json)) :
  (forall x r, In x (map snd ps) -> rec1 x = Ok r -> rec2 x = Ok r) ->
  stringify_props rec1 ps = Ok js -> stringify_props rec2 ps = Ok js.
Proof.
  revert js. induction ps as [|[k x] ps IH]; simpl; intros js H; [exact id|].
  destruct (rec1 x) as [o|e] eqn:E1; simpl; [|discriminate].
  rewrite (H x o) by (left + idtac; auto). simpl.
  destruct (stringify_props rec1 ps) as [js'|e] eqn:E2; simpl; [|discriminate].
  rewrite (IH js') by (auto). simpl. exact id.
Qed.

Lemma stringify_items_weaken (rec1 rec2 : value -> result (option json))
    (xs : list value) (js : list json) :
  (forall x r, In x xs -> rec1 x = Ok r -> rec2 x = Ok r) ->
  stringify_items rec1 xs = Ok js -> stringify_items rec2 xs = Ok js.
Proof.
  revert js. induction xs as [|x xs IH]; simpl; intros js H; [exact id|].
  destruct (rec1 x) as [o|e] eqn:E1; simpl; [|discriminate].
  rewrite (H x o) by auto. simpl.
  destruct (stringify_items rec1 xs) as [js'|e] eqn:E2; simpl; [|discriminate].
  rewrite (IH js') by auto. simpl. exact id.
Qed.

(** A serialisation that succeeds is not changed by more fuel or by later
    allocations. *)
Lemma stringify_mono (n : nat) (h : heap) :
  forall v r m h2, n <= m -> stringify n h v = Ok r -> stringify m (h ++ h2) v = Ok r.
Proof.
  induction n as [|n IH]; intros v r m h2 Hle; destruct v as [| | | | |l]; simpl;
    try (destruct m; simpl; exact id); try discriminate.
  destruct m as [|m]; [lia|]. simpl.
  destruct (h !! l) as [o|] eqn:El; [|discriminate].
  rewrite (lookup_app_l_Some _ _ _ _ El).
  destruct o as [ps|xs].
  - destruct (stringify_props (stringify n h) ps) as [js|e] eqn:E; simpl; [|discriminate].
    rewrite (stringify_props_weaken (stringify n h) (stringify m (h ++ h2)) ps js); auto.
    intros x r' _ Hx. apply IH; [lia|exact Hx].
  - destruct (stringify_items (stringify n h) xs) as [js|e] eqn:E; simpl; [|discriminate].
    rewrite (stringify_items_weaken (stringify n h) (stringify m (h ++ h2)) xs js); auto.
    intros x r' _ Hx. apply IH; [lia|exact Hx].
Qed.

Lemma JSON_stringify_app (h h2 : heap) (v : value) (r : option json) :
  JSON_stringify h v = Ok r -> JSON_stringify (h ++ h2) v = Ok r.
Proof.
  unfold JSON_stringify. apply stringify_mono. rewrite length_app. lia.
Qed.

Lemma serializable_app (h h2 : heap) (v : value) :
  serializable h v -> serializable (h ++ h2) v.
Proof. intros [j Hj]. exists j. apply JSON_stringify_app, Hj. Qed.

(** The names of the serialised properties are names of the object, in
    their order. *)
Lemma stringify_props_keys (rec : value -> result (option json))
    (ps : list (string * value)) (js : list (string * json)) :
  stringify_props rec ps = Ok js -> sublist (keys js) (keys ps).
Proof.
  revert js. induction ps as [|[k x] ps IH]; simpl; intros js.
  - intros [= <-]. constructor.
  - destruct (rec x) as [o|e]; simpl; [|discriminate].
    destruct (stringify_props rec ps) as [js'|e]; simpl; [|discriminate].
    intros [= <-]. specialize (IH js' eq_refl).
    destruct o; simpl; [apply sublist_skip|apply sublist_cons]; exact IH.
Qed.

Lemma stringify_props_nodup (rec : value -> result (option json))
    (ps : list (string * value)) (js : list (string * json)) :
  (forall x j, In x (map snd ps) -> rec x = Ok (Some j) -> json_nodup j) ->
  stringify_props rec ps = Ok js ->
  fold_right (fun kx acc => json_nodup kx.2 /\ acc) True js.
Proof.
  revert js. induction ps as [|[k x] ps IH]; simpl; intros js H.
  - intros [= <-]. exact I.
  - destruct (rec x) as [o|e] eqn:E; simpl; [|discriminate].
    destruct (stringify_props rec ps) as [js'|e]; simpl; [|discriminate].
    intros [= <-]. specialize (IH js' (fun x j Hx => H x j (or_intror Hx)) eq_refl).
    destruct o as [j|]; simpl; [|exact IH]. split; [|exact IH].
    apply (H x j); [left; reflexivity|exact E].
Qed.

Lemma stringify_items_nodup (rec : value -> result (option json))
    (xs : list value) (js : list json) :
  (forall x j, In x xs -> rec x = Ok (Some j) -> json_nodup j) ->
  stringify_items rec xs = Ok js ->
  fold_right (fun x acc => json_nodup x /\ acc) True js.
Proof.
  revert js. induction xs as [|x xs IH]; simpl; intros js H.
  - intros [= <-]. exact I.
  - destruct (rec x) as [o|e] eqn:E; simpl; [|discriminate].
    destruct (stringify_items rec xs) as [js'|e]; simpl; [|discriminate].
    intros [= <-]. specialize (IH js' (fun x j Hx => H x j (or_intror Hx)) eq_refl).
    simpl. split; [|exact IH].
    destruct o as [j|]; simpl; [|exact I]. apply (H x j); [left; reflexivity|exact E].
Qed.

(** In a heap whose objects have each name once, a serialisation has each
    key once. *)
Lemma stringify_nodup (n : nat) (h : heap) :
  heap_ok h -> forall v j, stringify n h v = Ok (Some j) -> json_nodup j.
Proof.
  intros Hh. induction n as [|n IH]; intros v j; destruct v as [| | | | |l]; simpl;
    try discriminate; try (intros [= <-]; exact I).
  destruct (h !! l) as [o|] eqn:El; [|discriminate].
  assert (Ho : object_ok (length h) o).
  { unfold heap_ok in Hh. rewrite Forall_forall in Hh. apply Hh.
    apply list_elem_of_lookup. exists l. exact El. }
  destruct o as [ps|xs].
  - destruct (stringify_props (stringify n h) ps) as [js|e] eqn:E; simpl; [|discriminate].
    intros [= <-]. simpl. split.
    + destruct Ho as [_ Hnd]. eapply sublist_NoDup; [exact Hnd|eapply stringify_props_keys; exact E].
    + eapply stringify_props_nodup; [|exact E]. intros x j _. apply IH.
  - destruct (stringify_items (stringify n h) xs) as [js|e] eqn:E; simpl; [|discriminate].
    intros [= <-]. simpl.
    eapply stringify_items_nodup; [|exact E]. intros x j _. apply IH.
Qed.

(** ** Regions *)

Lemma val_in_weaken (a b a' b' : nat) (v : value) :
  a' <= a -> b <= b' -> val_in a b v -> val_in a' b' v.
Proof. destruct v; simpl; auto. lia. Qed.

Lemma region_closed_app (a b : nat) (h h2 : heap) :
  b <= length h -> region_closed a b h -> region_closed a b (h ++ h2).
Proof.
  intros Hb H l o Ha Hl Hlook. apply (H l o Ha Hl).
  rewrite lookup_app_l in Hlook by lia. exact Hlook.
Qed.

Lemma region_closed_join (a b c : nat) (h : heap) :
  a <= b -> b <= c -> region_closed a b h -> region_closed b c h -> region_closed a c h.
Proof.
  intros Hab Hbc H1 H2 l o Ha Hl Hlook.
  destruct (decide (l < b)) as [Hlt|Hge].
  - eapply Forall_impl; [apply (H1 l o Ha Hlt Hlook)|].
    intros v. apply val_in_weaken; lia.
  - eapply Forall_impl; [apply (H2 l o ltac:(lia) Hl Hlook)|].
    intros v. apply val_in_weaken; lia.
Qed.

Lemma region_closed_empty (a : nat) (h : heap) : region_closed a a h.
Proof. intros l o Ha Hl. lia. Qed.

(** From a value of a closed region only that region is reached. *)
Lemma reach_region (a b : nat) (h : heap) (v : value) (l : loc) :
  region_closed a b h -> val_in a b v -> reach h v l -> a <= l < b.
Proof.
  intros Hreg Hv Hr. induction Hr as [l|l o v l' Hlook Hin _ IH].
  - exact Hv.
  - apply IH. specialize (Hreg l o ltac:(simpl in Hv; lia) ltac:(simpl in Hv; lia) Hlook).
    rewrite Forall_forall in Hreg. apply Hreg. apply list_elem_of_In. exact Hin.
Qed.

Lemma heap_ok_region (h : heap) : heap_ok h -> region_closed 0 (length h) h.
Proof.
  intros Hh l o _ _ Hlook. unfold heap_ok in Hh. rewrite Forall_forall in Hh.
  destruct (Hh o) as [Hc _]; [apply list_elem_of_lookup; exists l; exact Hlook|].
  eapply Forall_impl; [exact Hc|]. intros v. destruct v; simpl; auto. lia.
Qed.

(** Allocating well-formed objects keeps the heap well formed. *)
Lemma heap_ok_app (h new : heap) :
  heap_ok h -> region_closed (length h) (length h + length new) (h ++ new) ->
  Forall nodup_object new -> heap_ok (h ++ new).
Proof.
  intros Hh Hreg Hnd. unfold heap_ok. rewrite length_app. apply Forall_app. split.
  - unfold heap_ok in Hh. eapply Forall_impl; [exact Hh|].
    intros o [Hc Ho]. split; [|exact Ho].
    eapply Forall_impl; [exact Hc|]. intros v. destruct v; simpl; auto. lia.
  - apply Forall_lookup. intros i o Hi. split.
    + assert (Hlt : i < length new) by (eapply lookup_lt_Some; exact Hi).
      specialize (Hreg (length h + i) o ltac:(lia) ltac:(lia)).
      rewrite lookup_app_r in Hreg by lia.
      replace (length h + i - length h) with i in Hreg by lia.
      specialize (Hreg Hi). eapply Forall_impl; [exact Hreg|].
      intros v. destruct v; simpl; auto. lia.
    + rewrite Forall_lookup in Hnd. specialize (Hnd i o Hi).
      destruct o; [exact Hnd|exact I].
Qed.

(** ** Parsing *)

Lemma allocated_nothing (h : heap) (v : value) (j : json) :
  (forall n, stringify n (h ++ []) v = Ok (Some j)) -> val_in (length h) (length h + 0) v ->
  allocated h [] v j.
Proof.
  intros Hs Hv. split; [apply Hs|]. split; [exact Hv|]. split; [|constructor].
  simpl. rewrite Nat.add_0_r. apply region_closed_empty.
Qed.

(** A step that has allocated, seen after a later allocation. *)
Lemma allocated_app_l (h n1 n2 : heap) (v : value) (j : json) :
  allocated h n1 v j ->
  JSON_stringify (h ++ n1 ++ n2) v = Ok (Some j) /\
  val_in (length h) (length h + length (n1 ++ n2)) v.
Proof.
  intros (Hs & Hv & _ & _). split.
  - rewrite app_assoc. apply JSON_stringify_app, Hs.
  - rewrite length_app. eapply val_in_weaken; [| |exact Hv]; lia.
Qed.

(** Running an allocating step over a list: every result serialises, in the
    last heap, to the document of its item. *)
Lemma thread_allocated {A B} (f : A -> heap -> B * heap) (val : B -> value)
    (doc : A -> json) (xs : list A) :
  Forall (fun a => forall h, exists b new, f a h = (b, h ++ new) /\
                                            allocated h new (val b) (doc a)) xs ->
  forall h, exists bs new,
    thread f xs h = (bs, h ++ new) /\
    Forall2 (fun b a => JSON_stringify (h ++ new) (val b) = Ok (Some (doc a))) bs xs /\
    Forall (fun b => val_in (length h) (length h + length new) (val b)) bs /\
    region_closed (length h) (length h + length new) (h ++ new) /\
    Forall nodup_object new.
Proof.
  induction 1 as [|a xs Ha _ IH]; intros h.
  - exists [], []. simpl. rewrite app_nil_r, Nat.add_0_r.
    repeat split; try constructor. apply region_closed_empty.
  - destruct (Ha h) as (b & n1 & Hf & Hb).
    destruct (IH (h ++ n1)) as (bs & n2 & Ht & Hall & Hvals & Hreg & Hnd).
    exists (b :: bs), (n1 ++ n2). simpl. rewrite Hf, Ht.
    destruct (allocated_app_l h n1 n2 _ _ Hb) as [Hs Hv].
    destruct Hb as (_ & _ & Hreg1 & Hnd1).
    rewrite length_app in *. rewrite <- app_assoc in *.
    split; [reflexivity|]. split; [|split; [|split]].
    + constructor; [exact Hs|exact Hall].
    + constructor; [exact Hv|].
      eapply Forall_impl; [exact Hvals|]. intros b'. apply val_in_weaken; lia.
    + apply (region_closed_join _ (length h + length n1)); [lia|lia| |].
      * rewrite app_assoc. apply region_closed_app; [rewrite length_app; lia|exact Hreg1].
      * replace (length h + (length n1 + length n2))
          with (length h + length n1 + length n2) by lia. exact Hreg.
    + apply Forall_app. split; assumption.
Qed.

Lemma region_closed_snoc (a b : nat) (h : heap) (o : object) :
  b = length h -> region_closed a b h -> Forall (val_in a b) (children o) ->
  region_closed a (S b) (h ++ [o]).
Proof.
  intros -> Hreg Ho l o' Ha Hl Hlook.
  destruct (decide (l < length h)) as [Hlt|Hge].
  - rewrite lookup_app_l in Hlook by exact Hlt.
    eapply Forall_impl; [apply (Hreg l o' Ha Hlt Hlook)|].
    intros v. apply val_in_weaken; lia.
  - assert (l = length h) as -> by lia.
    rewrite list_lookup_middle in Hlook by reflexivity. injection Hlook as <-.
    eapply Forall_impl; [exact Ho|]. intros v. apply val_in_weaken; lia.
Qed.

Lemma stringify_items_Forall2 (rec : value -> result (option json))
    (xs : list value) (js : list json) :
  Forall2 (fun x j => rec x = Ok (Some j)) xs js -> stringify_items rec xs = Ok js.
Proof.
  induction 1 as [|x j xs js Hx _ IH]; simpl; [reflexivity|].
  rewrite Hx, IH. reflexivity.
Qed.

Lemma stringify_props_Forall2 (rec : value -> result (option json))
    (qs : list (string * value)) (ps : list (string * json)) :
  Forall2 (fun q p => q.1 = p.1 /\ rec q.2 = Ok (Some p.2)) qs ps ->
  stringify_props rec qs = Ok ps.
Proof.
  induction 1 as [|[k x] [k' j] qs ps [Hk Hx] _ IH]; simpl in *; [reflexivity|].
  rewrite Hx, IH. simpl. subst k'. reflexivity.
Qed.

Lemma thread_keys {B C} (f : string * B -> heap -> (string * C) * heap)
    (ps : list (string * B)) :
  (forall a h, (f a h).1.1 = a.1) ->
  forall h, Forall2 (fun q p => q.1 = p.1) (thread f ps h).1 ps.
Proof.
  intros Hf. induction ps as [|a ps IH]; intros h; simpl; [constructor|].
  specialize (Hf a h). destruct (f a h) as [b h1]. specialize (IH h1).
  destruct (thread f ps h1) as [bs h2]. simpl in *. constructor; assumption.
Qed.

Lemma json_nodup_items (js : list json) :
  fold_right (fun x acc => json_nodup x /\ acc) True js -> Forall json_nodup js.
Proof. induction js; simpl; intros H; constructor; tauto. Qed.

Lemma json_nodup_props (ps : list (string * json)) :
  fold_right (fun kx acc => json_nodup kx.2 /\ acc) True ps ->
  Forall (fun kx => json_nodup kx.2) ps.
Proof. induction ps; simpl; intros H; constructor; tauto. Qed.

(** [JSON.parse] allocates new objects only, and what it returns serialises
    back to the document it was given. *)
Lemma parse_allocated (j : json) :
  json_nodup j -> forall h, exists v new, parse j h = (v, h ++ new) /\ allocated h new v j.
Proof.
  induction j as [| b | n | s | js IH | ps IH] using json_ind; intros Hnd h.
  - exists VNull, []. rewrite app_nil_r. split; [reflexivity|].
    apply allocated_nothing; [intros []; reflexivity|exact I].
  - exists (VBool b), []. rewrite app_nil_r. split; [reflexivity|].
    apply allocated_nothing; [intros []; reflexivity|exact I].
  - exists (VNumber n), []. rewrite app_nil_r. split; [reflexivity|].
    apply allocated_nothing; [intros []; reflexivity|exact I].
  - exists (VString s), []. rewrite app_nil_r. split; [reflexivity|].
    apply allocated_nothing; [intros []; reflexivity|exact I].
  - simpl in Hnd. apply json_nodup_items in Hnd.
    destruct (thread_allocated parse id id js) with (h := h)
      as (xs & new & Ht & Hall & Hvals & Hreg & Hnew).
    { rewrite Forall_forall in IH, Hnd. apply Forall_forall. intros j Hj h0.
      apply IH; [exact Hj|apply Hnd, Hj]. }
    exists (VRef (length (h ++ new))), (new ++ [Arr xs]).
    simpl. rewrite Ht. rewrite <- app_assoc. split; [reflexivity|].
    split; [|split; [|split]].
    + unfold JSON_stringify. rewrite app_assoc. simpl.
      rewrite list_lookup_middle by reflexivity.
      rewrite (stringify_items_Forall2 _ xs js); [reflexivity|].
      eapply Forall2_impl; [exact Hall|]. intros x j Hx. simpl in Hx.
      eapply stringify_mono; [|exact Hx]. rewrite !length_app; simpl; lia.
    + simpl. rewrite !length_app. simpl. lia.
    + rewrite !length_app. simpl. rewrite app_assoc.
      replace (length h + (length new + 1)) with (S (length h + length new)) by lia.
      apply region_closed_snoc; [rewrite length_app; reflexivity|exact Hreg|].
      simpl. rewrite Forall_forall in Hvals. apply Forall_forall. intros x Hx.
      apply (Hvals x Hx).
    + apply Forall_app. split; [exact Hnew|]. constructor; [exact I|constructor].
  - simpl in Hnd. destruct Hnd as [Hkeys Hnd]. apply json_nodup_props in Hnd.
    set (f := fun (kj : string * json) (h : heap) =>
                let '(x, h1) := parse kj.2 h in ((kj.1, x), h1)).
    destruct (thread_allocated f snd snd ps) with (h := h)
      as (qs & new & Ht & Hall & Hvals & Hreg & Hnew).
    { rewrite Forall_forall in IH, Hnd. apply Forall_forall. intros kj Hkj h0.
      destruct (IH kj Hkj (Hnd kj Hkj) h0) as (v & new & Hp & Ha).
      exists (kj.1, v), new. unfold f. rewrite Hp. split; [reflexivity|exact Ha]. }
    assert (Hk : Forall2 (fun q p => q.1 = p.1) qs ps).
    { pose proof (thread_keys f ps) as Hk. rewrite <- (f_equal fst Ht : (thread f ps h).1 = qs).
      apply Hk. intros a h0. unfold f. destruct (parse a.2 h0). reflexivity. }
    assert (Hkq : keys qs = keys ps).
    { unfold keys. clear -Hk. induction Hk; simpl; congruence. }
    exists (VRef (length (h ++ new))), (new ++ [Obj qs]).
    simpl. fold f. rewrite Ht. rewrite <- app_assoc.
    rewrite assign_nil_nodup by (rewrite Hkq; exact Hkeys).
    split; [reflexivity|]. split; [|split; [|split]].
    + unfold JSON_stringify. rewrite app_assoc. simpl.
      rewrite list_lookup_middle by reflexivity.
      rewrite (stringify_props_Forall2 _ qs ps); [reflexivity|].
      assert (Hn : S (length (h ++ new)) <= length ((h ++ new) ++ [Obj qs]))
        by (rewrite !length_app; simpl; lia).
      revert Hn. generalize (length ((h ++ new) ++ [Obj qs])). generalize [Obj qs].
      intros h2 n Hn. clear -Hk Hall Hn.
      induction Hk as [|q p' qs ps Hqp Hk IHk]; [constructor|].
      apply Forall2_cons_1 in Hall as [Hq Hall]. constructor; [|apply IHk, Hall].
      split; [exact Hqp|].
      eapply stringify_mono; [|exact Hq]. exact Hn.
    + simpl. rewrite !length_app. simpl. lia.
    + rewrite !length_app. simpl. rewrite app_assoc.
      replace (length h + (length new + 1)) with (S (length h + length new)) by lia.
      apply region_closed_snoc; [rewrite length_app; reflexivity|exact Hreg|].
      simpl. apply Forall_fmap. exact Hvals.
    + apply Forall_app. split; [exact Hnew|].
      constructor; [simpl; rewrite Hkq; exact Hkeys|constructor].
Qed.

Lemma thread_extends {A B} (f : A -> heap -> B * heap) (xs : list A) :
  Forall (fun a => forall h, exists new, (f a h).2 = h ++ new) xs ->
  forall h, exists new, (thread f xs h).2 = h ++ new.
Proof.
  induction 1 as [|a xs Ha _ IH]; intros h; simpl.
  - exists []. rewrite app_nil_r. reflexivity.
  - destruct (Ha h) as [n1 H1]. destruct (f a h) as [b h1]. simpl in H1. subst h1.
    destruct (IH (h ++ n1)) as [n2 H2]. destruct (thread f xs (h ++ n1)) as [bs h2].
    simpl in *. subst h2. exists (n1 ++ n2). rewrite app_assoc. reflexivity.
Qed.

(** [JSON.parse] leaves every object that was there as it is. *)
Lemma parse_extends (j : json) : forall h, exists new, (parse j h).2 = h ++ new.
Proof.
  induction j as [| b | n | s | js IH | ps IH] using json_ind; intros h;
    try (exists []; rewrite app_nil_r; reflexivity).
  - destruct (thread_extends parse js IH h) as [new Hnew].
    simpl. destruct (thread parse js h) as [xs h1]. simpl in *. subst h1.
    exists (new ++ [Arr xs]). rewrite app_assoc. reflexivity.
  - set (f := fun (kj : string * json) (h : heap) =>
                let '(x, h1) := parse kj.2 h in ((kj.1, x), h1)).
    destruct (thread_extends f ps) with (h := h) as [new Hnew].
    { eapply Forall_impl; [exact IH|]. intros kj Hkj h0. destruct (Hkj h0) as [new Hnew].
      exists new. unfold f. destruct (parse kj.2 h0). exact Hnew. }
    simpl. fold f. destruct (thread f ps h) as [qs h1]. simpl in *. subst h1.
    exists (new ++ [Obj (assign [] qs)]). rewrite app_assoc. reflexivity.
Qed.

(** ** Capture *)

(** [JSON.parse(JSON.stringify(v))] of a value that serialises returns, and
    allocates only; in a well-formed heap the copy serialises as [v] does
    and is made of new objects. *)
Lemma JSON_clone_returns (v : value) (st : State) (j : json) :
  JSON_stringify (st_heap st) v = Ok (Some j) ->
  exists copy new,
    JSON_clone v st = Return copy (with_heap (st_heap st ++ new) st) /\
    (heap_ok (st_heap st) -> allocated (st_heap st) new copy j).
Proof.
  intros Hj. unfold JSON_clone, bind, gets, lift, ret, set_heap. rewrite Hj. simpl.
  destruct (parse_extends j (st_heap st)) as [new Hnew].
  destruct (parse j (st_heap st)) as [copy h1] eqn:Hp. simpl in *. subst h1.
  exists copy, new. split; [reflexivity|].
  intros Hok. destruct (parse_allocated j) with (h := st_heap st) as (v' & new' & Hp' & Ha).
  { eapply stringify_nodup; [exact Hok|exact Hj]. }
  rewrite Hp in Hp'. injection Hp' as <- Hh. apply app_inv_head in Hh. subst new'. exact Ha.
Qed.

Lemma clone_of_allocated (h n1 n2 : heap) (v copy : value) (j : json) :
  JSON_stringify h v = Ok (Some j) -> allocated h n1 copy j ->
  clone_of h (h ++ n1 ++ n2) v copy.
Proof.
  intros Hv (Hs & Hval & Hreg & _). split.
  - exists j. split; [exact Hv|]. rewrite app_assoc. apply JSON_stringify_app, Hs.
  - intros l Hl. rewrite !length_app.
    enough (length h <= l < length h + length n1) by lia.
    apply (reach_region _ _ (h ++ n1 ++ n2) copy); [|exact Hval|exact Hl].
    rewrite app_assoc. apply region_closed_app; [rewrite length_app; lia|exact Hreg].
Qed.

Lemma clone_of_later (h n1 n2 : heap) (v copy : value) :
  serializable h v -> clone_of (h ++ n1) ((h ++ n1) ++ n2) v copy ->
  clone_of h (h ++ n1 ++ n2) v copy.
Proof.
  intros [j Hj] [(j' & Hv & Hc) Hr]. rewrite <- app_assoc in *. split.
  - exists j. split; [exact Hj|].
    rewrite (JSON_stringify_app h n1 v _ Hj) in Hv. congruence.
  - intros l Hl. specialize (Hr l Hl). rewrite !length_app in *. lia.
Qed.

(** The loop of [createBackupData] on parcels whose states serialise: it
    returns, it only allocates, its result has the names it started with
    and the names of the parcels, and a value under a name is the one it
    started with or a clone of the state of a parcel of that name. *)
(** *** Assignment to a property *)

Lemma In_keys_insert_index {A} (n : N) (k k' : string) (v : A) (ps : list (string * A)) :
  In k' (keys (insert_index n k v ps)) <-> k' = k \/ In k' (keys ps).
Proof.
  induction ps as [|[k0 v0] ps IH]; simpl; [intuition|].
  destruct (array_index k0) as [m|]; [destruct (m <? n)%N|]; simpl;
    try rewrite IH; intuition.
Qed.

Lemma In_keys_create_prop {A} (k k' : string) (v : A) (ps : list (string * A)) :
  In k' (keys (create_prop k v ps)) <-> k' = k \/ In k' (keys ps).
Proof.
  unfold create_prop. destruct (array_index k) as [n|]; [apply In_keys_insert_index|].
  unfold keys. rewrite map_app, in_app_iff. simpl. intuition.
Qed.

Lemma Permutation_keys_create_prop {A} (k : string) (v : A) (ps : list (string * A)) :
  keys (create_prop k v ps) ≡ₚ k :: keys ps.
Proof.
  unfold create_prop. destruct (array_index k) as [n|].
  - induction ps as [|[k0 v0] ps IH]; simpl; [reflexivity|].
    destruct (array_index k0) as [m|]; [destruct (m <? n)%N|]; simpl; try reflexivity.
    rewrite IH. apply Permutation_swap.
  - unfold keys. rewrite map_app. simpl. symmetry. apply Permutation_cons_append.
Qed.

Lemma get_prop_create_prop {A} (k k' : string) (v : A) (ps : list (string * A)) :
  ~ In k (keys ps) ->
  get_prop k' (create_prop k v ps) = if String.eqb k' k then Some v else get_prop k' ps.
Proof.
  intros Hnew. unfold create_prop. destruct (array_index k) as [n|].
  - induction ps as [|[k0 v0] ps IH]; simpl; [reflexivity|].
    assert (Hk0 : k0 <> k) by (intros ->; apply Hnew; left; reflexivity).
    assert (Hps : ~ In k (keys ps)) by (intros H; apply Hnew; right; exact H).
    destruct (array_index k0) as [m|]; [destruct (m <? n)%N|]; simpl; try reflexivity.
    rewrite (IH Hps).
    destruct (String.eqb k' k0) eqn:E0; [|reflexivity].
    apply String.eqb_eq in E0. subst k0.
    destruct (String.eqb k' k) eqn:E; [|reflexivity].
    apply String.eqb_eq in E. congruence.
  - rewrite get_prop_app. simpl.
    destruct (get_prop k' ps) as [x|] eqn:E; [|reflexivity].
    destruct (String.eqb k' k) eqn:Ek; [|reflexivity].
    apply String.eqb_eq in Ek. subst k'. exfalso. apply Hnew.
    apply get_prop_In in E. apply (in_map fst) in E. exact E.
Qed.

Lemma has_prop_false {A} (k : string) (ps : list (string * A)) :
  has_prop k ps = false <-> ~ In k (keys ps).
Proof.
  unfold has_prop. rewrite <- get_prop_None.
  destruct (get_prop k ps); split; congruence.
Qed.

(** The own keys after [o[k] = v] are those of [o], and [k] if it is
    new. *)
Lemma put_member_keys_sub (h : heap) (k k' : string) (v : value) (o : OrdinaryObject) :
  In k' (keys (own_properties (put_member h k v o))) ->
  k' = k \/ In k' (keys (own_properties o)).
Proof.
  unfold put_member. destruct (has_prop k (own_properties o)); simpl.
  - rewrite In_keys_set_prop. tauto.
  - destruct (andb _ _); simpl; [tauto|]. rewrite In_keys_create_prop. tauto.
Qed.

Lemma put_member_keys_mono (h : heap) (k k' : string) (v : value) (o : OrdinaryObject) :
  In k' (keys (own_properties o)) ->
  In k' (keys (own_properties (put_member h k v o))).
Proof.
  intros H. unfold put_member. destruct (has_prop k (own_properties o)); simpl.
  - apply In_keys_set_prop. right. exact H.
  - destruct (andb _ _); simpl; [exact H|]. apply In_keys_create_prop. right. exact H.
Qed.

(** A key other than [__proto__] is an own key after the assignment. *)
Lemma put_member_keys_named (h : heap) (k : string) (v : value) (o : OrdinaryObject) :
  k <> "__proto__" -> In k (keys (own_properties (put_member h k v o))).
Proof.
  intros Hk. unfold put_member. destruct (has_prop k (own_properties o)); simpl.
  - apply In_keys_set_prop. left. reflexivity.
  - apply String.eqb_neq in Hk. rewrite Hk. simpl.
    apply In_keys_create_prop. left. reflexivity.
Qed.

Lemma put_member_nodup (h : heap) (k : string) (v : value) (o : OrdinaryObject) :
  NoDup (keys (own_properties o)) ->
  NoDup (keys (own_properties (put_member h k v o))).
Proof.
  intros Hnd. unfold put_member. destruct (has_prop k (own_properties o)) eqn:E; simpl.
  - apply NoDup_keys_set_prop, Hnd.
  - destruct (andb _ _); simpl; [exact Hnd|].
    rewrite Permutation_keys_create_prop. apply NoDup_cons. split; [|exact Hnd].
    intros H. apply list_elem_of_In in H. apply has_prop_false in E. contradiction.
Qed.

Lemma get_prop_put_member_other (h : heap) (k k' : string) (v : value)
    (o : OrdinaryObject) :
  k' <> k ->
  get_prop k' (own_properties (put_member h k v o)) = get_prop k' (own_properties o).
Proof.
  intros Hk. apply String.eqb_neq in Hk.
  unfold put_member. destruct (has_prop k (own_properties o)) eqn:E; simpl.
  - rewrite get_prop_set_prop, Hk. reflexivity.
  - destruct (andb _ _); simpl; [reflexivity|].
    rewrite get_prop_create_prop by (apply has_prop_false, E). rewrite Hk. reflexivity.
Qed.

(** What is read under [k] after [o[k] = v]: the value [v], if there is an
    own property. *)
Lemma get_prop_put_member_same (h : heap) (k : string) (v x : value)
    (o : OrdinaryObject) :
  get_prop k (own_properties (put_member h k v o)) = Some x -> x = v.
Proof.
  unfold put_member. destruct (has_prop k (own_properties o)) eqn:E; simpl.
  - rewrite get_prop_set_prop, String.eqb_refl. congruence.
  - destruct (andb _ _); simpl.
    + intros H. apply has_prop_false, get_prop_None in E. congruence.
    + rewrite get_prop_create_prop by (apply has_prop_false, E).
      rewrite String.eqb_refl. congruence.
Qed.

Lemma get_prop_put_member_named (h : heap) (k : string) (v : value)
    (o : OrdinaryObject) :
  k <> "__proto__" -> get_prop k (own_properties (put_member h k v o)) = Some v.
Proof.
  intros Hk. pose proof (put_member_keys_named h k v o Hk) as Hin.
  destruct (get_prop k (own_properties (put_member h k v o))) as [x|] eqn:E.
  - f_equal. eapply get_prop_put_member_same, E.
  - apply get_prop_None in E. contradiction.
Qed.

(** One turn of the loop of [createBackupData], when the clone is made. *)
Lemma createBackupData_loop_cons (p : Parcel) (rest : list Parcel) (acc : OrdinaryObject)
    (st : State) (copy : value) (n1 : heap) :
  JSON_clone (state p) st = Return copy (with_heap (st_heap st ++ n1) st) ->
  createBackupData_loop (p :: rest) acc st =
  createBackupData_loop rest
    (put_member (st_heap st ++ n1) (packageName (pkg p)) copy acc)
    (with_heap (st_heap st ++ n1) st).
Proof.
  intros Hclone. cbn [createBackupData_loop]. unfold bind at 1. rewrite Hclone.
  reflexivity.
Qed.

(** The loop of [createBackupData] on state bags that [JSON.stringify]
    accepts: it returns; every own key of the result was there or is the
    name of a parcel, and every name but [__proto__] is a key; what is
    stored under a name of a parcel is a clone of the state of a parcel of
    that name. *)
Lemma createBackupData_loop_spec (parcels : list Parcel) :
  forall (acc : OrdinaryObject) (st : State),
    (forall p, In p parcels -> serializable (st_heap st) (state p)) ->
    exists states new,
      createBackupData_loop parcels acc st
        = Return states (with_heap (st_heap st ++ new) st) /\
      (forall k, In k (keys (own_properties states)) ->
                 In k (keys (own_properties acc)) \/ In k (map parcel_name parcels)) /\
      (forall k, In k (keys (own_properties acc)) \/
                 (In k (map parcel_name parcels) /\ k <> "__proto__") ->
                 In k (keys (own_properties states))) /\
      (NoDup (keys (own_properties acc)) -> NoDup (keys (own_properties states))) /\
      (heap_ok (st_heap st) ->
       heap_ok (st_heap st ++ new) /\
       forall name bag, get_prop name (own_properties states) = Some bag ->
         (get_prop name (own_properties acc) = Some bag /\
          ~ In name (map parcel_name parcels)) \/
         (exists p, In p parcels /\ packageName (pkg p) = name /\
                    clone_of (st_heap st) (st_heap st ++ new) (state p) bag)).
Proof.
  induction parcels as [|p rest IH]; intros acc st Hser.
  - exists acc, []. simpl. rewrite app_nil_r. split; [destruct st; reflexivity|].
    split; [tauto|]. split; [tauto|]. split; [exact id|]. intros Hok. split; [exact Hok|].
    intros name bag Hb. left. split; [exact Hb|]. intros [].
  - destruct (Hser p (or_introl eq_refl)) as [j Hj].
    destruct (JSON_clone_returns (state p) st j Hj) as (copy & n1 & Hclone & Halloc).
    destruct (IH (put_member (st_heap st ++ n1) (packageName (pkg p)) copy acc)
                (with_heap (st_heap st ++ n1) st))
      as (states & n2 & Hloop & Hsub & Hsup & Hnd & Hrest).
    { intros p' Hp'. simpl. apply serializable_app. apply Hser. right. exact Hp'. }
    exists states, (n1 ++ n2).
    rewrite (createBackupData_loop_cons p rest acc st copy n1 Hclone), Hloop.
    cbn [st_heap with_heap] in *. rewrite <- app_assoc.
    split; [reflexivity|]. split; [|split; [|split]].
    + intros k Hk. apply Hsub in Hk as [Hk|Hk]; [|right; right; exact Hk].
      apply put_member_keys_sub in Hk as [->|Hk]; [right; left; reflexivity|left; exact Hk].
    + intros k [Hk|[[Hk|Hk] Hproto]].
      * apply Hsup. left. apply put_member_keys_mono, Hk.
      * apply Hsup. left. unfold parcel_name in Hk. subst k.
        apply put_member_keys_named, Hproto.
      * apply Hsup. right. split; [exact Hk|exact Hproto].
    + intros H. apply Hnd. apply put_member_nodup. exact H.
    + intros Hok. specialize (Halloc Hok).
      assert (Hok1 : heap_ok (st_heap st ++ n1)).
      { destruct Halloc as (_ & _ & Hreg & Hn). apply heap_ok_app; assumption. }
      destruct (Hrest Hok1) as [Hok2 Hbags]. rewrite <- app_assoc in *.
      split; [exact Hok2|]. intros name bag Hb.
      destruct (Hbags name bag Hb) as [[Hacc Hnot]|(p' & Hp' & Hname & Hc)].
      * destruct (String.eqb name (packageName (pkg p))) eqn:E.
        -- apply String.eqb_eq in E. subst name.
           apply get_prop_put_member_same in Hacc. subst bag. right. exists p.
           split; [left; reflexivity|]. split; [reflexivity|].
           eapply clone_of_allocated; [exact Hj|exact Halloc].
        -- apply String.eqb_neq in E.
           rewrite get_prop_put_member_other in Hacc by exact E.
           left. split; [exact Hacc|]. intros [H|H]; [|contradiction].
           unfold parcel_name in H. congruence.
      * right. exists p'. split; [right; exact Hp'|]. split; [exact Hname|].
        apply clone_of_later; [apply Hser; right; exact Hp'|].
        rewrite <- app_assoc. exact Hc.
Qed.

(** ** Restore *)

Lemma own_props_app (h h2 : heap) (v : value) :
  value_ok (length h) v -> own_props (h ++ h2) v = own_props h v.
Proof.
  destruct v as [| | | | |l]; simpl; try reflexivity.
  intros Hl. rewrite lookup_app_l by exact Hl. reflexivity.
Qed.

Lemma value_ok_weaken (n m : nat) (v : value) : n <= m -> value_ok n v -> value_ok m v.
Proof. destruct v; simpl; auto. lia. Qed.

(** One turn of the loop of [restoreBackup] for a name that resolves: the
    default bag of the parcel and the merged bag are allocated, in this
    order, and the parcel is pushed with the merged bag as its state. *)
Lemma restoreBackup_loop_resolved (graph : PackagesGraph) (name : string)
    (restoredState : value) (rest : list (string * value)) (parcels : list Parcel)
    (st : State) (node : PackagesGraphNode) :
  getNode graph name = Some node ->
  restoreBackup_loop graph ((name, restoredState) :: rest) parcels st =
  restoreBackup_loop graph rest
    (parcels ++ [{| pkg := node_pkg node; state := VRef (S (length (st_heap st))) |}])
    (with_heap
       (st_heap st ++
        [Obj (assign [] (defaultState (node_pkg node)));
         Obj (assign (assign [] (assign [] (defaultState (node_pkg node))))
                (own_props (st_heap st ++ [Obj (assign [] (defaultState (node_pkg node)))])
                   restoredState))]) st).
Proof.
  intros Hnode. simpl. rewrite Hnode.
  unfold getCachedParcel, spread, alloc, bind, gets, set_heap, ret, with_heap. simpl.
  rewrite list_lookup_middle by reflexivity.
  rewrite length_app, Nat.add_1_r, <- app_assoc. reflexivity.
Qed.

Lemma restoreBackup_loop_unresolved (graph : PackagesGraph) (name : string)
    (restoredState : value) (rest : list (string * value)) (parcels : list Parcel)
    (st : State) :
  getNode graph name = None ->
  restoreBackup_loop graph ((name, restoredState) :: rest) parcels st =
  restoreBackup_loop graph rest parcels st.
Proof. intros Hnode. simpl. rewrite Hnode. reflexivity. Qed.

(** The loop of [restoreBackup] returns; it pushes one parcel for each
    entry whose name resolves, in the order of the entries, and allocates
    the bags of these parcels only. *)
Lemma restoreBackup_loop_spec (graph : PackagesGraph) (entries : list (string * value)) :
  forall (parcels : list Parcel) (st : State),
    Forall (fun e => value_ok (length (st_heap st)) e.2) entries ->
    exists restored new,
      restoreBackup_loop graph entries parcels st
        = Return (parcels ++ restored) (with_heap (st_heap st ++ new) st) /\
      Forall2 (restored_parcel defaultState graph (st_heap st) (st_heap st ++ new))
        (filter (fun e => resolves graph e.1 = true) entries) restored.
Proof.
  induction entries as [|[name bag] rest IH]; intros parcels st Hok.
  - exists [], []. simpl. rewrite !app_nil_r. split; [destruct st; reflexivity|constructor].
  - apply Forall_cons_1 in Hok as [Hbag Hok]. simpl in Hbag.
    destruct (getNode graph name) as [node|] eqn:Hnode.
    + rewrite (restoreBackup_loop_resolved _ _ _ _ _ _ node Hnode).
      rewrite (own_props_app _ _ _ Hbag).
      set (D := assign [] (defaultState (node_pkg node))).
      set (merged := assign (assign [] D) (own_props (st_heap st) bag)).
      set (p := {| pkg := node_pkg node; state := VRef (S (length (st_heap st))) |}).
      destruct (IH (parcels ++ [p]) (with_heap (st_heap st ++ [Obj D; Obj merged]) st))
        as (restored & new & Hloop & Hall).
      { simpl. eapply Forall_impl; [exact Hok|]. intros e.
        apply value_ok_weaken. rewrite length_app. lia. }
      exists (p :: restored), ([Obj D; Obj merged] ++ new).
      rewrite Hloop. simpl. rewrite <- !app_assoc. simpl. split; [reflexivity|].
      rewrite filter_cons_True by (unfold resolves; simpl; rewrite Hnode; reflexivity).
      constructor.
      * exists node, (S (length (st_heap st))). simpl.
        split; [exact Hnode|]. split; [reflexivity|]. split; [reflexivity|].
        split; [rewrite length_app; simpl; lia|].
        change (st_heap st ++ Obj D :: Obj merged :: new)
          with (st_heap st ++ [Obj D] ++ Obj merged :: new).
        rewrite app_assoc. apply list_lookup_middle. rewrite length_app. simpl. lia.
      * simpl in Hall. rewrite <- app_assoc in Hall. simpl in Hall.
        assert (Hok' : Forall (fun e : string * value => value_ok (length (st_heap st)) e.2)
                         (filter (fun e => resolves graph e.1 = true) rest)).
        { apply Forall_forall. intros e He. apply list_elem_of_filter in He as [_ He].
          rewrite Forall_forall in Hok. apply Hok, He. }
        revert Hok'. clear -Hall. induction Hall as [|e q es qs Heq _ IHall]; intros Hok'.
        -- constructor.
        -- apply Forall_cons_1 in Hok' as [He Hes]. constructor; [|apply IHall, Hes].
           destruct Heq as (node' & l & Hn & Hp & Hs & Hl & Hlook).
           exists node', l. split; [exact Hn|]. split; [exact Hp|]. split; [exact Hs|].
           split; [rewrite length_app in Hl; lia|].
           rewrite (own_props_app _ _ _ He) in Hlook. exact Hlook.
    + rewrite (restoreBackup_loop_unresolved _ _ _ _ _ _ Hnode).
      destruct (IH parcels st Hok) as (restored & new & Hloop & Hall).
      exists restored, new. split; [exact Hloop|].
      rewrite filter_cons_False by (unfold resolves; simpl; rewrite Hnode; discriminate).
      exact Hall.
Qed.

(** ** What leaves the options alone *)

Lemma preserves_ret {A} (a : A) : preserves_options (ret a).
Proof. intros s. reflexivity. Qed.

Lemma preserves_throw {A} (e : exn) : preserves_options (@throw A e).
Proof. intros s. reflexivity. Qed.

Lemma preserves_gets {A} (f : State -> A) : preserves_options (gets f).
Proof. intros s. reflexivity. Qed.

Lemma preserves_lift {A} (r : result A) : preserves_options (lift r).
Proof. destruct r; intros s; reflexivity. Qed.

Lemma preserves_set_heap (h : heap) : preserves_options (set_heap h).
Proof. intros s. reflexivity. Qed.

Lemma preserves_log (entry : LogEntry) : preserves_options (log entry).
Proof. intros s. reflexivity. Qed.

Lemma preserves_bind {A B} (m : M A) (f : A -> M B) :
  preserves_options m -> (forall a, preserves_options (f a)) -> preserves_options (bind m f).
Proof.
  intros Hm Hf s. unfold bind. specialize (Hm s).
  destruct (m s) as [a s'|e s']; simpl in *; [|exact Hm].
  rewrite Hf. exact Hm.
Qed.

Create HintDb frame.
#[local] Hint Resolve preserves_ret preserves_throw preserves_gets preserves_lift
  preserves_set_heap preserves_log : frame.

Ltac frame :=
  repeat first
    [ apply preserves_bind; [|intros ?]
    | solve [auto with frame] ].

Lemma preserves_JSON_clone (v : value) : preserves_options (JSON_clone v).
Proof. unfold JSON_clone. frame. Qed.

Lemma preserves_alloc (o : object) : preserves_options (alloc o).
Proof. unfold alloc. frame. Qed.

Lemma preserves_validateBackup (backup : TasksRunnerBackup) :
  preserves_options (validateBackup backup).
Proof. intros s. rewrite validateBackup_eval. reflexivity. Qed.

Lemma preserves_createBackupData_loop (parcels : list Parcel) :
  forall acc, preserves_options (createBackupData_loop parcels acc).
Proof.
  induction parcels as [|p rest IH]; intros acc; simpl.
  - apply preserves_ret.
  - apply preserves_bind; [apply preserves_JSON_clone|]. intros copy.
    apply preserves_bind; [apply preserves_gets|]. intros h. apply IH.
Qed.

Lemma preserves_createBackupData (task : Task) (parcels : list Parcel)
    (options : CommandOptions) :
  preserves_options (createBackupData task parcels options).
Proof.
  unfold createBackupData, Git_getHeadCommitHashAsync.
  apply preserves_bind; [apply preserves_gets|]. intros head.
  apply preserves_bind; [apply preserves_createBackupData_loop|]. intros states.
  apply preserves_ret.
Qed.

Lemma preserves_restoreBackup_loop (graph : PackagesGraph) (entries : list (string * value)) :
  forall parcels, preserves_options (restoreBackup_loop graph entries parcels).
Proof.
  induction entries as [|[name bag] rest IH]; intros parcels; simpl.
  - apply preserves_ret.
  - destruct (getNode graph name) as [node|]; [|apply IH].
    apply preserves_bind.
    { unfold getCachedParcel. apply preserves_bind; [apply preserves_alloc|].
      intros b. apply preserves_ret. }
    intros parcel. apply preserves_bind; [|intros merged; apply IH].
    unfold spread. apply preserves_bind; [apply preserves_gets|].
    intros h. apply preserves_alloc.
Qed.

Lemma preserves_restoreBackup (backup : TasksRunnerBackup) (parcels : list Parcel) :
  preserves_options (restoreBackup backup parcels).
Proof.
  unfold restoreBackup, logger_info, getListOfPackagesAsync.
  apply preserves_bind; [apply preserves_gets|]. intros toLocaleString.
  apply preserves_bind; [apply preserves_log|]. intros _.
  apply preserves_bind; [apply preserves_gets|]. intros allPackages.
  apply preserves_bind; [destruct (data backup); simpl; auto with frame|]. intros d.
  apply preserves_restoreBackup_loop.
Qed.

Lemma preserves_backupValidationFailed : preserves_options backupValidationFailed.
Proof. unfold backupValidationFailed, logger_warn. apply preserves_log. Qed.

Lemma preserves_shouldUseBackup :
  (forall options, preserves_options (shouldUseBackupAsync options)) ->
  preserves_options shouldUseBackup.
Proof.
  intros H. unfold shouldUseBackup.
  apply preserves_bind; [apply preserves_gets|]. exact H.
Qed.

(** C7, as amended. The options object is written once, by [main] itself:
    before it builds the runner, [main] sets [packageNames] to the package
    names of the command line, and the runner gets the options with only
    that property changed; if the runner leaves the options as they are,
    that is all [main] has changed at its end.  The hooks [validateBackup],
    [createBackupData], [restoreBackup] and [backupValidationFailed] leave
    the options object as it is, whether they return or raise, and so does
    [shouldUseBackup] if [shouldUseBackupAsync] does; [tasksForOptions] is a
    function of the options and has no effect. *)
Theorem options_written_by_main_only (names : list string) (st : State) :
  (exists taskRunner,
     main names st =
       runAndExitAsync taskRunner [] (set_packageNames names (st_options st))
         (with_options (set_packageNames names (st_options st)) st) /\
     tasks taskRunner = tasksForOptions (set_packageNames names (st_options st))) /\
  (forall f, f <> OptPackageNames ->
     option_value (set_packageNames names (st_options st)) f = option_value (st_options st) f) /\
  ((forall runner args options, preserves_options (runAndExitAsync runner args options)) ->
   st_options (final_state (main names st)) = set_packageNames names (st_options st)) /\
  (forall backup, preserves_options (validateBackup backup)) /\
  ((forall options, preserves_options (shouldUseBackupAsync options)) ->
   preserves_options shouldUseBackup) /\
  (forall task parcels options, preserves_options (createBackupData task parcels options)) /\
  (forall backup parcels, preserves_options (restoreBackup backup parcels)) /\
  preserves_options backupValidationFailed.
Proof.
  split; [|split; [|split; [|split; [|split; [|split; [|split]]]]]].
  - eexists. split; [reflexivity|reflexivity].
  - intros f Hf. destruct f; try reflexivity. congruence.
  - intros Hrun. unfold main, bind, gets, set_options. simpl. rewrite Hrun. reflexivity.
  - apply preserves_validateBackup.
  - apply preserves_shouldUseBackup.
  - apply preserves_createBackupData.
  - apply preserves_restoreBackup.
  - apply preserves_backupValidationFailed.
Qed.

(** ** The payload of a backup *)

Lemma createBackupData_eval (task : Task) (parcels : list Parcel)
    (options : CommandOptions) (st : State) :
  createBackupData task parcels options st =
  match createBackupData_loop parcels empty_object st with
  | Return states st' =>
      Return {| data_options := pickBackupableOptions options;
                data_head := st_head st;
                data_state := own_properties states |} st'
  | Raise e st' => Raise e st'
  end.
Proof.
  unfold createBackupData, Git_getHeadCommitHashAsync, bind, gets, ret.
  destruct (createBackupData_loop parcels empty_object st); reflexivity.
Qed.


(** ** Restoring *)

Lemma restoreBackup_eval (backup : TasksRunnerBackup) (parcels : list Parcel)
    (st : State) (d : PublishBackupData) :
  data backup = Present d ->
  restoreBackup backup parcels st =
  restoreBackup_loop (new_PackagesGraph (st_packages st)) (data_state d) parcels
    (with_log
       (st_log st ++
        [LogInfo [Plain "♻️  Restoring from backup saved on ";
                  Magenta (st_locale st (timestamp backup)); Plain "..."]]) st).
Proof.
  intros Hd. unfold restoreBackup, logger_info, log, getListOfPackagesAsync, member,
    bind, gets, ret. rewrite Hd. reflexivity.
Qed.

Lemma getNode_name (graph : PackagesGraph) (name : string) (node : PackagesGraphNode) :
  getNode graph name = Some node -> packageName (node_pkg node) = name.
Proof.
  unfold getNode. intros H. apply find_some in H as [_ H]. apply String.eqb_eq, H.
Qed.

(** The entries whose names do not resolve could as well not be there. *)
Lemma restoreBackup_loop_filter (graph : PackagesGraph) (entries : list (string * value)) :
  forall parcels st,
    restoreBackup_loop graph (filter (fun e => resolves graph e.1 = true) entries) parcels st =
    restoreBackup_loop graph entries parcels st.
Proof.
  induction entries as [|[name bag] rest IH]; intros parcels st; [reflexivity|].
  destruct (getNode graph name) as [node|] eqn:Hnode.
  - rewrite filter_cons_True by (unfold resolves; simpl; rewrite Hnode; reflexivity).
    rewrite !(restoreBackup_loop_resolved _ _ _ _ _ _ node Hnode). apply IH.
  - rewrite filter_cons_False by (unfold resolves; simpl; rewrite Hnode; discriminate).
    rewrite (restoreBackup_loop_unresolved _ _ _ _ _ _ Hnode). apply IH.
Qed.

(** The loop of [restoreBackup] returns whatever the entries are, and the
    parcels it pushes are named by the entries that resolve, in order. *)
Lemma restoreBackup_loop_names (graph : PackagesGraph) (entries : list (string * value)) :
  forall parcels st,
    exists restored st',
      restoreBackup_loop graph entries parcels st = Return (parcels ++ restored) st' /\
      map parcel_name restored = filter (fun name => resolves graph name = true) (keys entries).
Proof.
  induction entries as [|[name bag] rest IH]; intros parcels st.
  - exists [], st. simpl. rewrite app_nil_r. split; reflexivity.
  - destruct (getNode graph name) as [node|] eqn:Hnode.
    + rewrite (restoreBackup_loop_resolved _ _ _ _ _ _ node Hnode).
      match goal with
      | |- context [restoreBackup_loop graph rest (parcels ++ [?p]) ?s] =>
          destruct (IH (parcels ++ [p]) s) as (restored & st' & Hloop & Hnames);
          exists (p :: restored), st'
      end.
      rewrite Hloop, <- app_assoc. split; [reflexivity|].
      simpl. rewrite filter_cons_True by (unfold resolves; rewrite Hnode; reflexivity).
      rewrite Hnames. unfold parcel_name at 1. simpl.
      rewrite (getNode_name _ _ _ Hnode). reflexivity.
    + rewrite (restoreBackup_loop_unresolved _ _ _ _ _ _ Hnode).
      destruct (IH parcels st) as (restored & st' & Hloop & Hnames).
      exists restored, st'. split; [exact Hloop|].
      simpl. rewrite filter_cons_False by (unfold resolves; rewrite Hnode; discriminate).
      exact Hnames.
Qed.

(** C3. Restore-gap tolerance: [restoreBackup] of a backup that has its
    payload returns, whatever names the state of the backup holds.  The
    parcels it pushes are those of the names that resolve in the package
    graph, so no parcel is pushed for a name that does not resolve, and the
    collection has none when it had none before; the outcome is the one of
    the same backup without the entries that do not resolve. *)
Theorem restoreBackup_tolerates_gaps (backup : TasksRunnerBackup) (parcels : list Parcel)
    (st : State) (d : PublishBackupData) :
  data backup = Present d ->
  let graph := new_PackagesGraph (st_packages st) in
  exists restored st',
    restoreBackup backup parcels st = Return (parcels ++ restored) st' /\
    map parcel_name restored =
      filter (fun name => resolves graph name = true) (keys (data_state d)) /\
    (forall name, getNode graph name = None ->
       ~ In name (map parcel_name restored) /\
       (~ In name (map parcel_name parcels) ->
        ~ In name (map parcel_name (parcels ++ restored)))) /\
    restoreBackup
      {| timestamp := timestamp backup;
         data := Present
           {| data_options := data_options d; data_head := data_head d;
              data_state := filter (fun e => resolves graph e.1 = true) (data_state d) |} |}
      parcels st
    = restoreBackup backup parcels st.
Proof.
  intros Hd graph.
  rewrite (restoreBackup_eval backup parcels st d Hd).
  destruct (restoreBackup_loop_names graph (data_state d) parcels
              (with_log
                 (st_log st ++
                  [LogInfo [Plain "♻️  Restoring from backup saved on ";
                            Magenta (st_locale st (timestamp backup)); Plain "..."]]) st))
    as (restored & st' & Hloop & Hnames).
  exists restored, st'. fold graph. split; [exact Hloop|]. split; [exact Hnames|].
  assert (Hnot : forall name, getNode graph name = None -> ~ In name (map parcel_name restored)).
  { intros name Hnone Hin. rewrite Hnames in Hin. apply list_elem_of_In in Hin.
    apply list_elem_of_filter in Hin as [Hres _]. unfold resolves in Hres.
    rewrite Hnone in Hres. discriminate. }
  split.
  - intros name Hnone. split; [apply Hnot, Hnone|].
    intros Hp Hin. rewrite map_app, in_app_iff in Hin.
    destruct Hin as [Hin|Hin]; [contradiction|]. apply (Hnot name Hnone Hin).
  - erewrite restoreBackup_eval by reflexivity. simpl.
    fold graph. rewrite restoreBackup_loop_filter. reflexivity.
Qed.

Lemma assign_nil_idem {A} (ps : list (string * A)) :
  assign [] (assign [] ps) = assign [] ps.
Proof. apply assign_nil_nodup. apply NoDup_keys_assign. constructor. Qed.

(** C4. Restore merge semantics: for a backup that has its payload,
    [restoreBackup] returns the collection with one parcel pushed for each
    entry of the state whose name resolves, in the order of the entries.
    The parcel is the one of the node of that name, and its state is an
    object in which every name has the value that the persisted bag gives
    it, or else the value that the default bag of the parcel gives it. *)
Theorem restoreBackup_merges (backup : TasksRunnerBackup) (parcels : list Parcel)
    (st : State) (d : PublishBackupData) :
  data backup = Present d ->
  Forall (fun e => value_ok (length (st_heap st)) e.2) (data_state d) ->
  let graph := new_PackagesGraph (st_packages st) in
  exists restored st',
    restoreBackup backup parcels st = Return (parcels ++ restored) st' /\
    Forall2
      (fun e p =>
         exists node l ps,
           getNode graph e.1 = Some node /\
           pkg p = node_pkg node /\
           state p = VRef l /\
           st_heap st' !! l = Some (Obj ps) /\
           forall k,
             get_prop k ps =
             match get_prop k (assign [] (own_props (st_heap st) e.2)) with
             | Some v => Some v
             | None => get_prop k (assign [] (defaultState (node_pkg node)))
             end)
      (filter (fun e => resolves graph e.1 = true) (data_state d)) restored.
Proof.
  intros Hd Hok graph. rewrite (restoreBackup_eval backup parcels st d Hd).
  match goal with
  | |- context [restoreBackup_loop _ _ _ ?s] =>
      destruct (restoreBackup_loop_spec graph (data_state d) parcels s Hok)
        as (restored & new & Hloop & Hall)
  end.
  eexists restored, _. fold graph. split; [exact Hloop|].
  eapply Forall2_impl; [exact Hall|].
  intros e p (node & l & Hn & Hp & Hs & _ & Hlook).
  exists node, l. eexists. split; [exact Hn|]. split; [exact Hp|]. split; [exact Hs|].
  split; [exact Hlook|]. intros k.
  rewrite get_prop_assign, assign_nil_idem. reflexivity.
Qed.

(** ** Aliasing *)

Lemma serializable_value_ok (h : heap) (v : value) (r : option json) :
  JSON_stringify h v = Ok r -> value_ok (length h) v.
Proof.
  destruct v as [| | | | |l]; unfold JSON_stringify; simpl; auto.
  destruct (h !! l) eqn:E; [|intros H; discriminate H].
  intros _. eapply lookup_lt_Some, E.
Qed.

(** What was there before is not reached from an object allocated later. *)
Lemma not_aliased_new (h new : heap) (v w : value) :
  heap_ok h -> value_ok (length h) w ->
  (forall l, reach (h ++ new) v l -> length h <= l < length (h ++ new)) ->
  ~ aliased (h ++ new) v w.
Proof.
  intros Hok Hw Hv (l & Hl1 & Hl2). apply Hv in Hl1.
  assert (0 <= l < length h); [|lia].
  apply (reach_region _ _ (h ++ new) w); [| |exact Hl2].
  - apply region_closed_app; [lia|]. apply heap_ok_region, Hok.
  - destruct w; simpl in *; auto. lia.
Qed.

Lemma NoDup_map_inj {A B} (f : A -> B) (l : list A) (x y : A) :
  NoDup (map f l) -> In x l -> In y l -> f x = f y -> x = y.
Proof.
  induction l as [|a l IH]; simpl; intros Hnd Hx Hy Hf; [contradiction|].
  apply NoDup_cons in Hnd as [Ha Hnd].
  destruct Hx as [->|Hx], Hy as [->|Hy]; auto.
  - exfalso. apply Ha. rewrite Hf. apply list_elem_of_In, in_map, Hy.
  - exfalso. apply Ha. rewrite <- Hf. apply list_elem_of_In, in_map, Hx.
Qed.

(** C2, as amended. On capture, [createBackupData] stores under each name a
    full structural clone of the state bag of a parcel of that name: the
    clone serialises to the same document, is made of objects allocated by
    the call, and reaches no object that a live bag reaches; with distinct
    package names this holds of every parcel whose package is not named
    [__proto__] (an assignment to [__proto__] makes no key), and the live
    objects are as they were.  On restore, [restoreBackup] gives each pushed parcel a newly
    allocated object as its state, which is not the bag of the backup, but
    whose members have the very values of the members of that bag: what the
    bag of the backup refers to is shared, not cloned. *)
Theorem capture_clones_restore_copies_members :
  (forall task parcels options st,
     heap_ok (st_heap st) ->
     (forall p, In p parcels -> serializable (st_heap st) (state p)) ->
     exists d st' new,
       createBackupData task parcels options st = Return d st' /\
       st_heap st' = st_heap st ++ new /\
       (forall name bag, get_prop name (data_state d) = Some bag ->
          (exists p, In p parcels /\ parcel_name p = name /\
                     clone_of (st_heap st) (st_heap st') (state p) bag) /\
          (forall q, In q parcels -> ~ aliased (st_heap st') bag (state q))) /\
       (NoDup (map parcel_name parcels) ->
        forall p, In p parcels -> parcel_name p <> "__proto__" ->
          exists bag, get_prop (parcel_name p) (data_state d) = Some bag /\
                      clone_of (st_heap st) (st_heap st') (state p) bag)) /\
  (forall backup parcels st d,
     data backup = Present d ->
     Forall (fun e => value_ok (length (st_heap st)) e.2) (data_state d) ->
     exists restored st' new,
       restoreBackup backup parcels st = Return (parcels ++ restored) st' /\
       st_heap st' = st_heap st ++ new /\
       Forall2
         (fun e p =>
            exists l ps,
              state p = VRef l /\
              length (st_heap st) <= l /\
              state p <> e.2 /\
              st_heap st' !! l = Some (Obj ps) /\
              forall k v, get_prop k (assign [] (own_props (st_heap st) e.2)) = Some v ->
                          get_prop k ps = Some v)
         (filter (fun e => resolves (new_PackagesGraph (st_packages st)) e.1 = true)
            (data_state d))
         restored).
Proof.
  split.
  - intros task parcels options st Hok Hser.
    destruct (createBackupData_loop_spec parcels empty_object st Hser)
      as (states & new & Hloop & _ & Hkeys & _ & Hclones).
    destruct (Hclones Hok) as [_ Hbags].
    eexists. exists (with_heap (st_heap st ++ new) st), new.
    rewrite createBackupData_eval, Hloop. split; [reflexivity|]. split; [reflexivity|].
    simpl.
    assert (Hback : forall name bag, get_prop name (own_properties states) = Some bag ->
              exists p, In p parcels /\ parcel_name p = name /\
                        clone_of (st_heap st) (st_heap st ++ new) (state p) bag).
    { intros name bag Hb. destruct (Hbags name bag Hb) as [[Hnil _]|H]; [discriminate Hnil|].
      exact H. }
    split.
    + intros name bag Hb. split; [apply Hback, Hb|].
      intros q Hq. destruct (Hback name bag Hb) as (p & _ & _ & [_ Hreach]).
      apply not_aliased_new; [exact Hok| |exact Hreach].
      destruct (Hser q Hq) as [j Hj]. eapply serializable_value_ok, Hj.
    + intros Hnd p Hp Hproto.
      destruct (get_prop (parcel_name p) (own_properties states)) as [bag|] eqn:Hb.
      * exists bag. split; [reflexivity|].
        destruct (Hback _ bag Hb) as (p' & Hp' & Hname & Hc).
        assert (p' = p) as <- by (eapply NoDup_map_inj; eauto). exact Hc.
      * exfalso. apply get_prop_None in Hb. apply Hb, Hkeys. right.
        split; [apply in_map, Hp|exact Hproto].
  - intros backup parcels st d Hd Hok.
    rewrite (restoreBackup_eval backup parcels st d Hd).
    match goal with
    | |- context [restoreBackup_loop ?g _ _ ?s] =>
        destruct (restoreBackup_loop_spec g (data_state d) parcels s Hok)
          as (restored & new & Hloop & Hall)
    end.
    exists restored. eexists. exists new. split; [exact Hloop|]. split; [reflexivity|].
    simpl in Hall. simpl.
    assert (Hok' : Forall (fun e : string * value => value_ok (length (st_heap st)) e.2)
                     (filter (fun e => resolves (new_PackagesGraph (st_packages st)) e.1 = true)
                        (data_state d))).
    { apply Forall_forall. intros e He. apply list_elem_of_filter in He as [_ He].
      rewrite Forall_forall in Hok. apply Hok, He. }
    clear Hloop. revert Hok'.
    induction Hall as [|e p es ps He _ IH]; intros Hok'; [constructor|].
    apply Forall_cons_1 in Hok' as [Hv Hvs]. constructor; [|apply IH, Hvs].
    destruct He as (node & l & _ & _ & Hs & Hl & Hlook).
    exists l. eexists. split; [exact Hs|]. split; [lia|]. split.
    + rewrite Hs. intros Heq. rewrite <- Heq in Hv. simpl in Hv. lia.
    + split; [exact Hlook|]. intros k v Hk. rewrite get_prop_assign, Hk. reflexivity.
Qed.

(** ** When serialisation is refused *)

Lemma stringify_props_Err (rec : value -> result (option json))
    (ps : list (string * value)) (e : exn) :
  stringify_props rec ps = Err e -> exists x, In x (map snd ps) /\ rec x = Err e.
Proof.
  induction ps as [|[k x] ps IH]; simpl; [discriminate|].
  destruct (rec x) as [o|e'] eqn:E; simpl.
  - destruct (stringify_props rec ps) as [js|e'] eqn:E'; simpl; [discriminate|].
    intros [= <-]. destruct (IH eq_refl) as (y & Hy & Hr). exists y. auto.
  - intros [= <-]. exists x. auto.
Qed.

Lemma stringify_items_Err (rec : value -> result (option json))
    (xs : list value) (e : exn) :
  stringify_items rec xs = Err e -> exists x, In x xs /\ rec x = Err e.
Proof.
  induction xs as [|x xs IH]; simpl; [discriminate|].
  destruct (rec x) as [o|e'] eqn:E; simpl.
  - destruct (stringify_items rec xs) as [js|e'] eqn:E'; simpl; [discriminate|].
    intros [= <-]. destruct (IH eq_refl) as (y & Hy & Hr). exists y. auto.
  - intros [= <-]. exists x. auto.
Qed.

Lemma stringify_props_Ok (rec : value -> result (option json))
    (ps : list (string * value)) (js : list (string * json)) :
  stringify_props rec ps = Ok js -> forall x, In x (map snd ps) -> exists r, rec x = Ok r.
Proof.
  revert js. induction ps as [|[k x] ps IH]; simpl; intros js H y; [intros []|].
  destruct (rec x) as [o|e] eqn:E; simpl in H; [|discriminate].
  destruct (stringify_props rec ps) as [js'|e] eqn:E'; simpl in H; [|discriminate].
  intros [<-|Hy]; [exists o; exact E|apply (IH js' eq_refl y Hy)].
Qed.

Lemma stringify_items_Ok (rec : value -> result (option json))
    (xs : list value) (js : list json) :
  stringify_items rec xs = Ok js -> forall x, In x xs -> exists r, rec x = Ok r.
Proof.
  revert js. induction xs as [|x xs IH]; simpl; intros js H y; [intros []|].
  destruct (rec x) as [o|e] eqn:E; simpl in H; [|discriminate].
  destruct (stringify_items rec xs) as [js'|e] eqn:E'; simpl in H; [|discriminate].
  intros [<-|Hy]; [exists o; exact E|apply (IH js' eq_refl y Hy)].
Qed.

(** A failure of the serialisation of an object is the failure of one of
    the values it refers to. *)
Lemma stringify_Err_child (n : nat) (h : heap) (l : loc) (o : object) (e : exn) :
  h !! l = Some o -> stringify (S n) h (VRef l) = Err e ->
  exists x, In x (children o) /\ stringify n h x = Err e.
Proof.
  intros Hl. simpl. rewrite Hl. destruct o as [ps|xs]; simpl.
  - destruct (stringify_props (stringify n h) ps) as [js|e'] eqn:E; simpl; [discriminate|].
    intros [= <-]. apply stringify_props_Err. exact E.
  - destruct (stringify_items (stringify n h) xs) as [js|e'] eqn:E; simpl; [discriminate|].
    intros [= <-]. apply stringify_items_Err. exact E.
Qed.

Lemma stringify_Ok_child (n : nat) (h : heap) (l : loc) (o : object) (r : option json) :
  h !! l = Some o -> stringify (S n) h (VRef l) = Ok r ->
  forall x, In x (children o) -> exists r', stringify n h x = Ok r'.
Proof.
  intros Hl. simpl. rewrite Hl. destruct o as [ps|xs]; simpl.
  - destruct (stringify_props (stringify n h) ps) as [js|e'] eqn:E; simpl; [|discriminate].
    intros _. eapply stringify_props_Ok. exact E.
  - destruct (stringify_items (stringify n h) xs) as [js|e'] eqn:E; simpl; [|discriminate].
    intros _. eapply stringify_items_Ok. exact E.
Qed.

(** Running out of fuel below a stack of distinct allocated objects that is
    as deep as the fuel is short: the walk has come back to an object. *)
Lemma stringify_out_of_fuel (h : heap) (n : nat) :
  forall (stack : list loc) (l : loc),
    NoDup stack -> Forall (fun s => s < length h) stack ->
    (forall s, s ∈ stack -> tc (edge h) s l) ->
    length h < length stack + n ->
    stringify n h (VRef l) = Err circular_error ->
    circular h (VRef l).
Proof.
  induction n as [|n IH]; intros stack l Hnd Hlt Hpath Hlen Herr.
  - exfalso. rewrite Nat.add_0_r in Hlen.
    assert (Hincl : incl stack (seq 0 (length h))).
    { intros s Hs. apply in_seq. rewrite Forall_forall in Hlt.
      specialize (Hlt s (proj2 (list_elem_of_In _ _) Hs)). lia. }
    apply NoDup_ListNoDup in Hnd.
    pose proof (NoDup_incl_length Hnd Hincl) as Hle. rewrite length_seq in Hle. lia.
  - destruct (decide (l ∈ stack)) as [Hin|Hnin].
    { exists l. split; [apply reach_here|apply Hpath, Hin]. }
    destruct (h !! l) as [o|] eqn:Hl.
    2:{ simpl in Herr. rewrite Hl in Herr. discriminate Herr. }
    destruct (stringify_Err_child n h l o _ Hl Herr) as (x & Hx & Hxe).
    destruct x as [| | | | |l']; try (destruct n; discriminate Hxe).
    assert (Hedge : edge h l l') by (exists o; split; assumption).
    destruct (IH (l :: stack) l') as (c & Hreach & Hcycle).
    + constructor; assumption.
    + constructor; [eapply lookup_lt_Some; exact Hl|exact Hlt].
    + intros s Hs. apply elem_of_cons in Hs as [->|Hs].
      * apply tc_once, Hedge.
      * eapply tc_r; [apply Hpath, Hs|exact Hedge].
    + simpl. lia.
    + exact Hxe.
    + exists c. split; [|exact Hcycle].
      eapply reach_step; [exact Hl|exact Hx|exact Hreach].
Qed.

(** When [JSON.stringify] reports a circular structure, there is one. *)
Lemma JSON_stringify_circular (h : heap) (v : value) :
  JSON_stringify h v = Err circular_error -> circular h v.
Proof.
  unfold JSON_stringify. destruct v as [| | | | |l]; try discriminate.
  apply (stringify_out_of_fuel h (S (length h)) []).
  - constructor.
  - constructor.
  - intros s Hs. inversion Hs.
  - simpl. lia.
Qed.

Lemma stringify_Ok_reach (h : heap) (v : value) (c : loc) :
  reach h v c ->
  forall n r, stringify n h v = Ok r -> exists m r', m <= n /\ stringify m h (VRef c) = Ok r'.
Proof.
  induction 1 as [l|l o x c Hl Hx _ IH]; intros n r Hok.
  - exists n, r. split; [lia|exact Hok].
  - destruct n as [|n]; [discriminate Hok|].
    destruct (stringify_Ok_child n h l o r Hl Hok x Hx) as [r' Hr'].
    destruct (IH n r' Hr') as (m & r'' & Hm & Hr''). exists m, r''. split; [lia|exact Hr''].
Qed.

Lemma stringify_Ok_tc (h : heap) (c c' : loc) :
  tc (edge h) c c' ->
  forall n r, stringify n h (VRef c) = Ok r ->
              exists m r', m < n /\ stringify m h (VRef c') = Ok r'.
Proof.
  induction 1 as [c c' (o & Hl & Hx)|c c1 c' (o & Hl & Hx) _ IH]; intros n r Hok.
  - destruct n as [|n]; [discriminate Hok|].
    destruct (stringify_Ok_child n h c o r Hl Hok _ Hx) as [r' Hr'].
    exists n, r'. split; [lia|exact Hr'].
  - destruct n as [|n]; [discriminate Hok|].
    destruct (stringify_Ok_child n h c o r Hl Hok _ Hx) as [r' Hr'].
    destruct (IH n r' Hr') as (m & r'' & Hm & Hr''). exists m, r''. split; [lia|exact Hr''].
Qed.

(** A circular structure is never serialised, whatever the fuel. *)
Lemma stringify_circular_raises (h : heap) (v : value) :
  circular h v -> forall n r, stringify n h v <> Ok r.
Proof.
  intros (c & Hreach & Hcycle) n r Hok.
  destruct (stringify_Ok_reach h v c Hreach n r Hok) as (m & r' & _ & Hm).
  clear Hok Hreach. revert r' Hm.
  induction m as [m IH] using lt_wf_ind. intros r' Hm.
  destruct (stringify_Ok_tc h c c Hcycle m r' Hm) as (m' & r'' & Hlt & Hm').
  apply (IH m' Hlt r'' Hm').
Qed.

(** In a well-formed heap [JSON.stringify] returns on every structure that
    is not circular. *)
Lemma stringify_dangling (h : heap) :
  heap_ok h -> forall n v e, value_ok (length h) v -> stringify n h v = Err e ->
  e = circular_error.
Proof.
  intros Hok. induction n as [|n IH]; intros v e Hv; destruct v as [| | | | |l];
    try discriminate; simpl.
  - intros [= <-]. reflexivity.
  - simpl in Hv. destruct (h !! l) as [o|] eqn:Hl.
    2:{ apply lookup_ge_None in Hl. lia. }
    intros Herr.
    destruct (stringify_Err_child n h l o e Hl) as (x & Hx & Hxe).
    { simpl. rewrite Hl. exact Herr. }
    apply (IH x e); [|exact Hxe].
    unfold heap_ok in Hok. rewrite Forall_forall in Hok.
    destruct (Hok o) as [Hc _]; [apply list_elem_of_lookup; exists l; exact Hl|].
    rewrite Forall_forall in Hc. apply Hc, list_elem_of_In, Hx.
Qed.

Lemma JSON_stringify_total (h : heap) (v : value) :
  heap_ok h -> value_ok (length h) v -> ~ circular h v ->
  exists r, JSON_stringify h v = Ok r.
Proof.
  intros Hok Hv Hnc. destruct (JSON_stringify h v) as [r|e] eqn:E; [exists r; reflexivity|].
  exfalso. apply Hnc. apply JSON_stringify_circular.
  rewrite E. f_equal. eapply stringify_dangling; [exact Hok|exact Hv|exact E].
Qed.

(** ** Equal documents have no difference *)

Lemma diff_props_refl (rec : json -> json -> option delta) (ps qs : list (string * json)) :
  (forall k x, In (k, x) ps -> get_prop k qs = Some x /\ rec x x = None) ->
  diff_props rec ps qs = [].
Proof.
  induction ps as [|[k x] ps IH]; simpl; intros H; [reflexivity|].
  destruct (H k x (or_introl eq_refl)) as [Hk Hx]. rewrite Hk, Hx.
  apply IH. intros k' x' Hin. apply H. right. exact Hin.
Qed.

Lemma added_props_refl (ps : list (string * json)) : added_props ps ps = [].
Proof.
  unfold added_props.
  assert (H : filter (fun kv : string * json => has_prop kv.1 ps = false) ps = []);
    [|rewrite H; reflexivity].
  destruct (filter _ ps) as [|[k x] rest] eqn:F; [reflexivity|]. exfalso.
  assert (Hin : (k, x) ∈ filter (fun kv : string * json => has_prop kv.1 ps = false) ps)
    by (rewrite F; left).
  apply list_elem_of_filter in Hin as [Hk Hin]. simpl in Hk.
  unfold has_prop in Hk. destruct (get_prop k ps) eqn:E; [discriminate Hk|].
  apply get_prop_None in E. apply E. apply list_elem_of_In in Hin.
  apply (in_map fst) in Hin. exact Hin.
Qed.

Lemma diff_items_refl (rec : json -> json -> option delta) (xs : list json) :
  Forall (fun x => rec x x = None) xs -> forall i, diff_items rec i xs xs = [].
Proof.
  induction 1 as [|x xs Hx _ IH]; intros i; simpl; [reflexivity|].
  rewrite Hx. apply IH.
Qed.

(** [jsondiffpatch.diff(a, a)] is [undefined]. *)
Lemma diff_refl (j : json) : json_nodup j -> diff j j = None.
Proof.
  induction j as [| b | n | s | js IH | ps IH] using json_ind; intros Hnd; simpl.
  - reflexivity.
  - rewrite Bool.eqb_reflx. reflexivity.
  - rewrite Z.eqb_refl. reflexivity.
  - rewrite String.eqb_refl. reflexivity.
  - simpl in Hnd. apply json_nodup_items in Hnd.
    rewrite diff_items_refl; [reflexivity|].
    rewrite Forall_forall in IH, Hnd. apply Forall_forall. intros x Hx.
    apply IH; [exact Hx|apply Hnd, Hx].
  - simpl in Hnd. destruct Hnd as [Hkeys Hnd]. apply json_nodup_props in Hnd.
    rewrite diff_props_refl, added_props_refl; [reflexivity|].
    intros k x Hin. split; [apply get_prop_nodup; assumption|].
    rewrite Forall_forall in IH, Hnd. apply list_elem_of_In in Hin.
    apply (IH (k, x) Hin). apply (Hnd (k, x) Hin).
Qed.

Lemma no_object_nodup (j : json) : no_object j = true -> json_nodup j.
Proof.
  induction j as [| b | n | s | js IH | ps IH] using json_ind; simpl; intros H;
    try exact I; [|discriminate H].
  induction IH as [|x xs Hx _ IHxs]; simpl in *; [exact I|].
  apply andb_true_iff in H as [H1 H2]. split; [apply Hx, H1|apply IHxs, H2].
Qed.

(** On documents without objects the difference is [undefined] exactly for
    equal documents. *)
Lemma diff_none_iff (a b : json) :
  no_object a = true -> diff a b = None <-> b = a.
Proof.
  intros Hno. split; [apply diff_none_no_object, Hno|].
  intros ->. apply diff_refl, no_object_nodup, Hno.
Qed.

(** In a well-formed heap the state bag of a parcel, an object that is not
    part of a circular structure, is one that [JSON.stringify] accepts. *)
Lemma serializable_object (h : heap) (l : loc) :
  heap_ok h -> l < length h -> ~ circular h (VRef l) -> serializable h (VRef l).
Proof.
  intros Hok Hl Hnc. destruct (JSON_stringify_total h (VRef l) Hok Hl Hnc) as [r Hr].
  destruct r as [j|]; [exists j; exact Hr|]. exfalso.
  unfold JSON_stringify in Hr. simpl in Hr. destruct (h !! l) as [[ps|xs]|]; simpl in Hr.
  - destruct (stringify_props _ ps); discriminate Hr.
  - destruct (stringify_items _ xs); discriminate Hr.
  - discriminate Hr.
Qed.

(** ** What an empty difference from the picked options means *)

Lemma NoDup_keys_pick (o : CommandOptions) (fields : list OptionName) :
  NoDup (keys (pick o fields)).
Proof.
  unfold pick. generalize (NoDup_nil_2 (A := string)).
  change (@nil string) with (keys (@nil (string * json))).
  generalize (@nil (string * json)).
  induction fields as [|f fields IH]; intros acc Hacc; simpl; [exact Hacc|].
  apply IH. destruct (option_value o f); [apply NoDup_keys_set_prop|]; exact Hacc.
Qed.

Lemma pick_no_object (o : CommandOptions) (fields : list OptionName) (k : string) (x : json) :
  In (k, x) (pick o fields) -> no_object x = true.
Proof.
  unfold pick.
  assert (G : forall acc : list (string * json),
            (forall k x, In (k, x) acc -> no_object x = true) ->
            forall k x,
              In (k, x) (fold_left (fun acc f => match option_value o f with
                                                 | Some v => set_prop (option_key f) v acc
                                                 | None => acc
                                                 end) fields acc) ->
              no_object x = true).
  { induction fields as [|f fields IH]; intros acc Hacc k' x'; simpl; [apply Hacc|].
    apply IH. destruct (option_value o f) as [v|] eqn:Hv; [|exact Hacc].
    intros k0 x0 Hin. clear IH.
    induction acc as [|[k1 x1] acc IHacc]; simpl in Hin.
    - destruct Hin as [[= _ <-]|[]]. eapply option_value_no_object, Hv.
    - destruct (String.eqb (option_key f) k1).
      + destruct Hin as [[= _ <-]|Hin]; [eapply option_value_no_object, Hv|].
        apply (Hacc k0 x0). right. exact Hin.
      + destruct Hin as [[= <- <-]|Hin]; [apply (Hacc k1 x1); left; reflexivity|].
        apply IHacc; [|exact Hin]. intros k2 x2 H2. apply (Hacc k2 x2). right. exact H2. }
  apply G. intros k0 x0 [].
Qed.

(** [jsondiffpatch] finds no difference between the picked options and a
    document exactly when the document is an object with the same
    properties: the same names, each with the same value. *)
Lemma diff_picked_none_iff (o : CommandOptions) (fields : list OptionName) (b : json) :
  diff (JObject (pick o fields)) b = None <->
  exists qs, b = JObject qs /\ forall k, get_prop k qs = get_prop k (pick o fields).
Proof.
  split.
  - intros H. apply diff_object_none in H as (qs & -> & Hin & Hout).
    exists qs. split; [reflexivity|]. intros k.
    destruct (get_prop k (pick o fields)) as [x|] eqn:E.
    + destruct (Hin k x (get_prop_In _ _ _ E)) as (y & Hy & Hd).
      apply diff_none_no_object in Hd; [congruence|].
      eapply pick_no_object, get_prop_In, E.
    + apply Hout. unfold has_prop. rewrite E. reflexivity.
  - intros (qs & -> & Hsame). simpl.
    rewrite diff_props_refl.
    + assert (Hadd : added_props (pick o fields) qs = []); [|rewrite Hadd; reflexivity].
      unfold added_props.
      destruct (filter _ qs) as [|[k y] rest] eqn:F; [reflexivity|]. exfalso.
      assert (Hin : (k, y) ∈ filter
                (fun kv : string * json => has_prop kv.1 (pick o fields) = false) qs)
        by (rewrite F; left).
      apply list_elem_of_filter in Hin as [Hk Hin]. simpl in Hk.
      unfold has_prop in Hk. rewrite <- Hsame in Hk.
      destruct (get_prop k qs) eqn:E; [discriminate Hk|].
      apply get_prop_None in E. apply E. apply list_elem_of_In in Hin.
      apply (in_map fst) in Hin. exact Hin.
    + intros k x Hin. split.
      * rewrite Hsame. apply get_prop_nodup; [apply NoDup_keys_pick|exact Hin].
      * apply diff_refl, no_object_nodup. eapply pick_no_object, Hin.
Qed.

(** ** The hooks together *)

(** The loop of [restoreBackup] returns, only extends the heap, pushes
    behind the parcels that are there, and the names of what it pushes are
    the names of the entries that resolve. *)
Lemma restoreBackup_loop_returns (graph : PackagesGraph) (entries : list (string * value)) :
  forall parcels st,
    exists restored new,
      restoreBackup_loop graph entries parcels st
        = Return (parcels ++ restored) (with_heap (st_heap st ++ new) st) /\
      map parcel_name restored = filter (fun name => resolves graph name = true) (keys entries).
Proof.
  induction entries as [|[name bag] rest IH]; intros parcels st.
  - exists [], []. simpl. rewrite !app_nil_r. split; [|reflexivity].
    destruct st; reflexivity.
  - destruct (getNode graph name) as [node|] eqn:Hnode.
    + rewrite (restoreBackup_loop_resolved _ _ _ _ _ _ node Hnode).
      match goal with
      | |- context [restoreBackup_loop graph rest (parcels ++ [?p]) (with_heap (_ ++ ?n) st)] =>
          destruct (IH (parcels ++ [p]) (with_heap (st_heap st ++ n) st))
            as (restored & new & Hloop & Hnames);
          exists (p :: restored), (n ++ new)
      end.
      rewrite Hloop, <- app_assoc. cbn [st_heap with_heap]. rewrite <- app_assoc.
      split; [reflexivity|].
      simpl. rewrite filter_cons_True by (unfold resolves; rewrite Hnode; reflexivity).
      rewrite Hnames. unfold parcel_name at 1. simpl.
      rewrite (getNode_name _ _ _ Hnode). reflexivity.
    + rewrite (restoreBackup_loop_unresolved _ _ _ _ _ _ Hnode).
      destruct (IH parcels st) as (restored & new & Hloop & Hnames).
      exists restored, new. split; [exact Hloop|].
      simpl. rewrite filter_cons_False by (unfold resolves; rewrite Hnode; discriminate).
      exact Hnames.
Qed.

(** X1. A checkpoint that has just been captured is valid: for the payload
    that [createBackupData] returns for the options of an invocation,
    [validateBackup] of any invocation with the same kept options returns
    [true] as long as the Git head is the head of the capture, and [false]
    once the head has moved. *)
Theorem createBackupData_then_validateBackup (task : Task) (parcels : list Parcel)
    (options : CommandOptions) (st st1 st2 : State) (d : PublishBackupData)
    (backup : TasksRunnerBackup) :
  createBackupData task parcels options st = Return d st1 ->
  data backup = Present d ->
  pickBackupableOptions (st_options st2) = pickBackupableOptions options ->
  validateBackup backup st2 =
  Return (VBool (String.eqb (st_head st2) (st_head st))) st2.
Proof.
  intros Hcapture Hdata Hopts.
  rewrite createBackupData_eval in Hcapture.
  destruct (createBackupData_loop parcels empty_object st) as [states st'|e st'] eqn:Hloop;
    [|discriminate Hcapture].
  assert (Hd : d = {| data_options := pickBackupableOptions options;
                      data_head := st_head st;
                      data_state := own_properties states |}) by congruence.
  rewrite validateBackup_eval, Hdata, Hd. cbn [data_head data_options].
  rewrite Hopts.
  assert (Hdiff : diff (pickBackupableOptions options) (pickBackupableOptions options) = None).
  { unfold pickBackupableOptions. apply diff_picked_none_iff.
    eexists. split; reflexivity. }
  rewrite Hdiff. cbn [js_not]. rewrite andb_true_r. reflexivity.
Qed.

(** X2. [validateBackup] never reads the state map of a backup: two
    backups whose payloads have the same head and the same options get the
    same verdict, whatever their state maps and their timestamps are.  A
    truthy verdict vouches for the head and the options only. *)
Theorem validateBackup_ignores_state (backup backup' : TasksRunnerBackup)
    (d d' : PublishBackupData) (st : State) :
  data backup = Present d ->
  data backup' = Present d' ->
  data_head d = data_head d' ->
  data_options d = data_options d' ->
  validateBackup backup st = validateBackup backup' st.
Proof.
  intros Hd Hd' Hhead Hopts.
  rewrite !validateBackup_eval, Hd, Hd', Hhead, Hopts. reflexivity.
Qed.

(** X3. Without its payload a backup cannot be restored: [restoreBackup]
    raises a [TypeError] when [backup.data] is [undefined] or [null], after
    it has logged that it restores; nothing else of the state has
    changed. *)
Theorem restoreBackup_missing_data (backup : TasksRunnerBackup) (parcels : list Parcel)
    (st : State) :
  data backup = Undefined \/ data backup = Null ->
  exists msg,
    restoreBackup backup parcels st =
    Raise (TypeError msg)
      (with_log
         (st_log st ++
          [LogInfo [Plain "♻️  Restoring from backup saved on ";
                    Magenta (st_locale st (timestamp backup)); Plain "..."]]) st).
Proof.
  intros [H|H]; unfold restoreBackup, bind, gets, logger_info, log, getListOfPackagesAsync;
    rewrite H; eexists; reflexivity.
Qed.

(** X4. [restoreBackup] writes one line to the log and only allocates: on
    every outcome the state is the state before with the line
    [Restoring from backup saved on ...] at the end of the log and new
    objects at the end of the heap.  No object that is there, of a parcel
    or of the backup, is changed. *)
Theorem restoreBackup_frame (backup : TasksRunnerBackup) (parcels : list Parcel)
    (st : State) :
  exists new,
    final_state (restoreBackup backup parcels st) =
    with_heap (st_heap st ++ new)
      (with_log
         (st_log st ++
          [LogInfo [Plain "♻️  Restoring from backup saved on ";
                    Magenta (st_locale st (timestamp backup)); Plain "..."]]) st).
Proof.
  destruct (data backup) as [| |d] eqn:Hdata.
  - exists []. unfold restoreBackup, bind, gets, logger_info, log, getListOfPackagesAsync.
    rewrite Hdata. cbn. rewrite app_nil_r. reflexivity.
  - exists []. unfold restoreBackup, bind, gets, logger_info, log, getListOfPackagesAsync.
    rewrite Hdata. cbn. rewrite app_nil_r. reflexivity.
  - rewrite (restoreBackup_eval backup parcels st d Hdata).
    match goal with
    | |- context [restoreBackup_loop ?g ?es parcels ?s] =>
        destruct (restoreBackup_loop_returns g es parcels s) as (restored & new & Hloop & _)
    end.
    rewrite Hloop. exists new. reflexivity.
Qed.

Lemma JSON_clone_frame (v : value) (st : State) :
  exists new, final_state (JSON_clone v st) = with_heap (st_heap st ++ new) st.
Proof.
  unfold JSON_clone, bind, gets, lift, ret, set_heap, throw, JSON_parse.
  destruct (JSON_stringify (st_heap st) v) as [[j|]|e].
  - destruct (parse_extends j (st_heap st)) as [new Hnew].
    exists new. cbn. rewrite Hnew. reflexivity.
  - exists []. cbn. rewrite app_nil_r. destruct st; reflexivity.
  - exists []. cbn. rewrite app_nil_r. destruct st; reflexivity.
Qed.

Lemma createBackupData_loop_frame (parcels : list Parcel) :
  forall acc st,
    exists new,
      final_state (createBackupData_loop parcels acc st) = with_heap (st_heap st ++ new) st.
Proof.
  induction parcels as [|p rest IH]; intros acc st.
  - exists []. cbn. rewrite app_nil_r. destruct st; reflexivity.
  - cbn [createBackupData_loop]. unfold bind at 1.
    destruct (JSON_clone_frame (state p) st) as [n1 H1].
    destruct (JSON_clone (state p) st) as [copy s1|e s1]; cbn [final_state] in H1; subst s1.
    + unfold bind at 1. unfold gets at 1.
      destruct (IH (put_member (st_heap (with_heap (st_heap st ++ n1) st))
                      (packageName (pkg p)) copy acc)
                  (with_heap (st_heap st ++ n1) st)) as [n2 H2].
      exists (n1 ++ n2). rewrite H2. cbn [st_heap with_heap]. rewrite <- app_assoc.
      reflexivity.
    + exists n1. reflexivity.
Qed.

(** X5. [createBackupData] only allocates: whether it returns or raises,
    the state afterwards is the state before with new objects at the end
    of the heap.  The bags of the live parcels, the log, the head and the
    options are as they were. *)
Theorem createBackupData_frame (task : Task) (parcels : list Parcel)
    (options : CommandOptions) (st : State) :
  exists new,
    final_state (createBackupData task parcels options st) =
    with_heap (st_heap st ++ new) st.
Proof.
  rewrite createBackupData_eval.
  destruct (createBackupData_loop_frame parcels empty_object st) as [new Hnew].
  exists new. destruct (createBackupData_loop parcels empty_object st); exact Hnew.
Qed.

(** X6. The task is chosen by the four flags [listUnpublished],
    [grantAccess], [checkIntegrity] and [canary] alone: two option objects
    that have the same four flags get the same task, whatever their package
    names and their other options are. *)
Theorem tasksForOptions_flags_only (o o' : CommandOptions) :
  listUnpublished o = listUnpublished o' ->
  grantAccess o = grantAccess o' ->
  checkIntegrity o = checkIntegrity o' ->
  canary o = canary o' ->
  tasksForOptions o = tasksForOptions o'.
Proof.
  intros H1 H2 H3 H4. unfold tasksForOptions. rewrite H1, H2, H3, H4. reflexivity.
Qed.

(** *** The order of the own keys *)

Lemma array_index_Some (k : string) (n : N) : array_index k = Some n -> k = pretty n.
Proof.
  unfold array_index. destruct k as [|c k]; [discriminate|].
  destruct (numeral_value (String c k) 0) as [m|]; [|discriminate].
  destruct (andb _ _) eqn:E; [|discriminate].
  intros H. injection H as <-. apply andb_true_iff in E as [E _].
  apply String.eqb_eq in E. symmetry. exact E.
Qed.

Lemma index_below_trans (a b c : string) :
  index_below a b -> index_below b c -> index_below a c.
Proof.
  unfold index_below.
  destruct (array_index a), (array_index b), (array_index c); try tauto. lia.
Qed.

(** A new property with an array index goes among the indices, which stay
    in ascending order; the other keys are as they were. *)
Lemma insert_index_order {A} (n : N) (k : string) (v : A) (ixs : list string) :
  forall (ps : list (string * A)) (strs : list string),
    array_index k = Some n ->
    ~ In k (keys ps) ->
    keys ps = ixs ++ strs ->
    StronglySorted index_below ixs ->
    Forall (fun x => is_array_index x = true) ixs ->
    Forall (fun x => is_array_index x = false) strs ->
    exists ixs',
      keys (insert_index n k v ps) = ixs' ++ strs /\
      StronglySorted index_below ixs' /\
      ixs' ≡ₚ k :: ixs.
Proof.
  induction ixs as [|i ixs IH]; intros ps strs Hk Hnew Hkeys Hsorted Hix Hstr.
  - exists [k]. simpl in Hkeys. split; [|split; [repeat constructor|reflexivity]].
    destruct ps as [|[k0 v0] ps]; simpl in *; [subst strs; reflexivity|].
    subst strs. apply Forall_cons in Hstr as [H0 _].
    unfold is_array_index in H0. destruct (array_index k0); [discriminate H0|].
    reflexivity.
  - destruct ps as [|[k0 v0] ps]; [discriminate Hkeys|].
    simpl in Hkeys. injection Hkeys as -> Hkeys.
    apply Forall_cons in Hix as [Hi Hix].
    apply StronglySorted_cons in Hsorted as [Hbelow Hsorted].
    unfold is_array_index in Hi. simpl.
    destruct (array_index i) as [m|] eqn:Em; [|discriminate Hi].
    destruct (m <? n)%N eqn:Hmn.
    + destruct (IH ps strs Hk) as (ixs' & Hkeys' & Hsorted' & Hperm); auto.
      { intros H. apply Hnew. right. exact H. }
      exists (i :: ixs'). simpl. rewrite Hkeys'. split; [reflexivity|]. split.
      * apply StronglySorted_cons. split; [|exact Hsorted'].
        rewrite Hperm. apply Forall_cons. split; [|exact Hbelow].
        unfold index_below. rewrite Em, Hk. apply N.ltb_lt, Hmn.
      * rewrite Hperm. apply Permutation_swap.
    + exists (k :: i :: ixs). simpl. rewrite Hkeys. split; [reflexivity|].
      split; [|reflexivity].
      assert (Hki : index_below k i).
      { unfold index_below. rewrite Hk, Em. apply N.ltb_ge in Hmn.
        assert (n <> m); [|lia]. intros ->.
        apply array_index_Some in Hk, Em. apply Hnew. left. simpl. congruence. }
      apply StronglySorted_cons. split.
      * apply Forall_cons. split; [exact Hki|].
        eapply Forall_impl; [exact Hbelow|]. intros x Hx.
        eapply index_below_trans; eassumption.
      * apply StronglySorted_cons. split; assumption.
Qed.

Lemma create_prop_order {A} (k : string) (v : A) (ps : list (string * A))
    (ixs strs : list string) :
  ~ In k (keys ps) ->
  keys ps = ixs ++ strs ->
  StronglySorted index_below ixs ->
  Forall (fun x => is_array_index x = true) ixs ->
  Forall (fun x => is_array_index x = false) strs ->
  exists ixs',
    keys (create_prop k v ps)
      = ixs' ++ (strs ++ filter (fun x => is_array_index x = false) [k]) /\
    StronglySorted index_below ixs' /\
    ixs' ≡ₚ ixs ++ filter (fun x => is_array_index x = true) [k].
Proof.
  intros Hnew Hkeys Hsorted Hix Hstr. unfold create_prop.
  destruct (array_index k) as [n|] eqn:Ek.
  - destruct (insert_index_order n k v ixs ps strs Ek Hnew Hkeys Hsorted Hix Hstr)
      as (ixs' & Hkeys' & Hsorted' & Hperm).
    exists ixs'.
    rewrite filter_cons_False by (unfold is_array_index; rewrite Ek; discriminate).
    rewrite filter_cons_True by (unfold is_array_index; rewrite Ek; reflexivity).
    rewrite !filter_nil, app_nil_r. split; [exact Hkeys'|]. split; [exact Hsorted'|].
    rewrite Hperm. apply Permutation_cons_append.
  - exists ixs.
    rewrite filter_cons_True by (unfold is_array_index; rewrite Ek; reflexivity).
    rewrite filter_cons_False by (unfold is_array_index; rewrite Ek; discriminate).
    rewrite !filter_nil, app_nil_r. unfold keys. rewrite map_app. fold (keys ps).
    rewrite Hkeys, <- app_assoc. split; [reflexivity|]. split; [exact Hsorted|reflexivity].
Qed.

(** [o[k] = v] for a new key other than [__proto__] creates the property. *)
Lemma put_member_new (h : heap) (k : string) (v : value) (o : OrdinaryObject) :
  ~ In k (keys (own_properties o)) -> k <> "__proto__" ->
  own_properties (put_member h k v o) = create_prop k v (own_properties o).
Proof.
  intros Hnew Hk. unfold put_member.
  apply has_prop_false in Hnew. rewrite Hnew.
  apply String.eqb_neq in Hk. rewrite Hk. reflexivity.
Qed.

(** With distinct names that are new to the object and none of which is
    [__proto__], the loop of [createBackupData] leaves the own keys in the
    order of enumeration: the names that are array indices among the
    indices, in ascending order, the other names behind the keys that are
    there, in the order of the parcels. *)
Lemma createBackupData_loop_keys (parcels : list Parcel) :
  forall acc st states st' ixs strs,
    createBackupData_loop parcels acc st = Return states st' ->
    NoDup (map parcel_name parcels) ->
    (forall p, In p parcels -> ~ In (parcel_name p) (keys (own_properties acc))) ->
    (forall p, In p parcels -> parcel_name p <> "__proto__") ->
    keys (own_properties acc) = ixs ++ strs ->
    StronglySorted index_below ixs ->
    Forall (fun x => is_array_index x = true) ixs ->
    Forall (fun x => is_array_index x = false) strs ->
    exists ixs',
      keys (own_properties states)
        = ixs' ++ (strs ++ filter (fun x => is_array_index x = false)
                             (map parcel_name parcels)) /\
      StronglySorted index_below ixs' /\
      ixs' ≡ₚ ixs ++ filter (fun x => is_array_index x = true) (map parcel_name parcels).
Proof.
  induction parcels as [|p rest IH];
    intros acc st states st' ixs strs Hloop Hnd Hnew Hproto Hkeys Hsorted Hix Hstr.
  - simpl in Hloop. injection Hloop as <- _. exists ixs. simpl.
    rewrite !filter_nil, !app_nil_r. split; [exact Hkeys|]. split; [exact Hsorted|reflexivity].
  - cbn [createBackupData_loop] in Hloop. unfold bind at 1 in Hloop.
    destruct (JSON_clone (state p) st) as [copy s1|e s1]; [|discriminate Hloop].
    unfold bind at 1 in Hloop. unfold gets at 1 in Hloop.
    simpl in Hnd. apply NoDup_cons in Hnd as [Hp Hnd].
    assert (Hfresh : ~ In (packageName (pkg p)) (keys (own_properties acc)))
      by (apply (Hnew p); left; reflexivity).
    pose proof (put_member_new (st_heap s1) (packageName (pkg p)) copy acc Hfresh
                  (Hproto p (or_introl eq_refl))) as Hput.
    destruct (create_prop_order (packageName (pkg p)) copy (own_properties acc) ixs strs
                Hfresh Hkeys Hsorted Hix Hstr) as (ixs1 & Hkeys1 & Hsorted1 & Hperm1).
    rewrite <- Hput in Hkeys1.
    assert (Hnew1 : forall q, In q rest ->
              ~ In (parcel_name q)
                  (keys (own_properties
                           (put_member (st_heap s1) (packageName (pkg p)) copy acc)))).
    { intros q Hq Hin. rewrite Hput in Hin. apply In_keys_create_prop in Hin as [Hin|Hin].
      - apply Hp. unfold parcel_name in *. rewrite <- Hin.
        apply list_elem_of_In. apply in_map with (f := fun x => packageName (pkg x)).
        exact Hq.
      - apply (Hnew q); [right; exact Hq|exact Hin]. }
    assert (Hix1 : Forall (fun x => is_array_index x = true) ixs1).
    { rewrite Hperm1. apply Forall_app. split; [exact Hix|]. apply Forall_forall.
      intros x Hx. apply list_elem_of_filter in Hx as [Hx _]. exact Hx. }
    assert (Hstr1 : Forall (fun x => is_array_index x = false)
                      (strs ++ filter (fun x => is_array_index x = false)
                                 [packageName (pkg p)])).
    { apply Forall_app. split; [exact Hstr|]. apply Forall_forall.
      intros x Hx. apply list_elem_of_filter in Hx as [Hx _]. exact Hx. }
    destruct (IH _ _ _ _ ixs1
                (strs ++ filter (fun x => is_array_index x = false) [packageName (pkg p)])
                Hloop Hnd Hnew1 (fun q Hq => Hproto q (or_intror Hq)) Hkeys1 Hsorted1
                Hix1 Hstr1) as (ixs' & Hkeys' & Hsorted' & Hperm').
    exists ixs'. split; [|split; [exact Hsorted'|]].
    + rewrite Hkeys'. rewrite <- !app_assoc. f_equal. f_equal.
      change (map parcel_name (p :: rest))
        with ([packageName (pkg p)] ++ map parcel_name rest).
      rewrite filter_app. reflexivity.
    + rewrite Hperm', Hperm1. rewrite <- app_assoc.
      change (map parcel_name (p :: rest))
        with ([packageName (pkg p)] ++ map parcel_name rest).
      rewrite filter_app. reflexivity.
Qed.

Lemma filter_index_split (names : list string) :
  filter (fun x => is_array_index x = true) names
    ++ filter (fun x => is_array_index x = false) names ≡ₚ names.
Proof.
  induction names as [|x names IH]; [reflexivity|].
  destruct (is_array_index x) eqn:E.
  - rewrite filter_cons_True by exact E.
    rewrite filter_cons_False by (rewrite E; discriminate).
    simpl. rewrite IH. reflexivity.
  - rewrite filter_cons_False by (rewrite E; discriminate).
    rewrite filter_cons_True by exact E.
    rewrite <- Permutation_middle, IH. reflexivity.
Qed.

Lemma filter_all {A} (P : A -> Prop) `{forall x, Decision (P x)} (l : list A) :
  Forall P l -> filter P l = l.
Proof.
  induction 1 as [|x l Hx _ IH]; [reflexivity|].
  rewrite filter_cons_True by exact Hx. rewrite IH. reflexivity.
Qed.

Lemma filter_none {A} (P : A -> Prop) `{forall x, Decision (P x)} (l : list A) :
  Forall (fun x => ~ P x) l -> filter P l = [].
Proof.
  induction 1 as [|x l Hx _ IH]; [reflexivity|].
  rewrite filter_cons_False by exact Hx. exact IH.
Qed.

Lemma resolves_member (packages : list Package) (p : Package) :
  In p packages -> resolves (new_PackagesGraph packages) (packageName p) = true.
Proof.
  intros Hin. unfold resolves, getNode.
  destruct (find _ (new_PackagesGraph packages)) eqn:E; [reflexivity|].
  pose proof (find_none _ _ E {| node_pkg := p |}) as Hnone. cbn in Hnone.
  rewrite String.eqb_refl in Hnone. discriminate Hnone.
  unfold new_PackagesGraph. apply in_map with (f := fun q => {| node_pkg := q |}). exact Hin.
Qed.

(** X7. Capture and restore keep the parcels, in the order in which the
    keys of an object are enumerated.  For parcels with distinct package
    names, none of them [__proto__], restoring the payload that
    [createBackupData] returned pushes, behind the parcels that are there,
    one parcel for each captured parcel whose package is still in the
    repository: first those whose names are array indices, in ascending
    order of the index, then the others in the order of the capture.  When
    no name is an array index this is the order of the capture; when all
    the packages are still there, the restored names are the captured names
    up to this order. *)
Theorem capture_then_restore_names (task : Task) (parcels existing : list Parcel)
    (options : CommandOptions) (st st1 st2 : State) (d : PublishBackupData)
    (backup : TasksRunnerBackup) :
  NoDup (map parcel_name parcels) ->
  (forall p, In p parcels -> parcel_name p <> "__proto__") ->
  createBackupData task parcels options st = Return d st1 ->
  data backup = Present d ->
  exists restored st3 indices,
    restoreBackup backup existing st2 = Return (existing ++ restored) st3 /\
    indices ≡ₚ filter (fun name => is_array_index name = true) (map parcel_name parcels) /\
    StronglySorted index_below indices /\
    map parcel_name restored =
      filter (fun name => resolves (new_PackagesGraph (st_packages st2)) name = true)
        (indices ++
         filter (fun name => is_array_index name = false) (map parcel_name parcels)) /\
    ((forall p, In p parcels -> is_array_index (parcel_name p) = false) ->
     map parcel_name restored =
       filter (fun name => resolves (new_PackagesGraph (st_packages st2)) name = true)
         (map parcel_name parcels)) /\
    ((forall p, In p parcels -> In (pkg p) (st_packages st2)) ->
     map parcel_name restored ≡ₚ map parcel_name parcels).
Proof.
  intros Hnd Hproto Hcapture Hdata.
  rewrite createBackupData_eval in Hcapture.
  destruct (createBackupData_loop parcels empty_object st) as [states st'|e st'] eqn:Hloop;
    [|discriminate Hcapture].
  assert (Hd : data_state d = own_properties states)
    by (injection Hcapture as <- _; reflexivity).
  destruct (createBackupData_loop_keys parcels empty_object st states st' [] []
              Hloop Hnd (fun _ _ H => H) Hproto eq_refl)
    as (indices & Hkeys & Hsorted & Hperm); try constructor.
  simpl in Hkeys, Hperm.
  rewrite (restoreBackup_eval backup existing st2 d Hdata), Hd.
  match goal with
  | |- context [restoreBackup_loop ?g (own_properties states) existing ?s] =>
      destruct (restoreBackup_loop_returns g (own_properties states) existing s)
        as (restored & new & Hrestore & Hnames)
  end.
  rewrite Hkeys in Hnames.
  exists restored. eexists. exists indices.
  split; [exact Hrestore|]. split; [exact Hperm|]. split; [exact Hsorted|].
  split; [exact Hnames|]. split.
  - intros Hnone.
    assert (Hall : Forall (fun name => is_array_index name = false)
                     (map parcel_name parcels)).
    { apply Forall_forall. intros name Hname. apply list_elem_of_In in Hname.
      apply in_map_iff in Hname as (p & <- & Hp). apply Hnone, Hp. }
    rewrite Hnames. rewrite filter_none in Hperm.
    + apply Permutation_nil_r in Hperm. subst indices. simpl.
      rewrite (filter_all _ _ Hall). reflexivity.
    + eapply Forall_impl; [exact Hall|]. intros x Hx. rewrite Hx. discriminate.
  - intros Hall. rewrite Hnames. rewrite filter_all.
    + rewrite Hperm. apply filter_index_split.
    + apply Forall_forall. intros name Hname.
      assert (Hin : name ∈ map parcel_name parcels).
      { rewrite <- (filter_index_split (map parcel_name parcels)), <- Hperm. exact Hname. }
      apply list_elem_of_In in Hin. apply in_map_iff in Hin as (p & <- & Hp).
      unfold parcel_name. apply resolves_member. apply Hall, Hp.
Qed.



Lemma reach_app (h n : heap) (v : value) (l : loc) : reach h v l -> reach (h ++ n) v l.
Proof.
  induction 1 as [l|l o v l' Ho Hv _ IH]; [apply reach_here|].
  eapply reach_step; [|exact Hv|exact IH]. apply lookup_app_l_Some, Ho.
Qed.

Lemma circular_app (h n : heap) (v : value) : circular h v -> circular (h ++ n) v.
Proof.
  intros (c & Hreach & Hloop). exists c. split; [apply reach_app, Hreach|].
  assert (Hedge : forall a b, edge h a b -> edge (h ++ n) a b).
  { intros a b (o & Ho & Hin). exists o. split; [apply lookup_app_l_Some, Ho|exact Hin]. }
  assert (Htc : forall a b, tc (edge h) a b -> tc (edge (h ++ n)) a b).
  { intros a b Hab. induction Hab as [a b H|a b d H _ IH].
    - apply tc_once, Hedge, H.
    - eapply tc_l; [apply Hedge, H|exact IH]. }
  apply Htc, Hloop.
Qed.

(** Only [undefined] serialises to [undefined]. *)
Lemma stringify_None (n : nat) (h : heap) (v : value) :
  stringify n h v = Ok None -> v = VUndefined.
Proof.
  destruct n as [|n]; (destruct v as [| | | | |l]; simpl; intros H; try discriminate H;
    [reflexivity|..]).
  destruct (h !! l) as [[ps|xs]|]; [| |discriminate H].
  - destruct (stringify_props (stringify n h) ps); discriminate H.
  - destruct (stringify_items (stringify n h) xs); discriminate H.
Qed.

(** What [JSON.parse(JSON.stringify(v))] needs of a value of a well-formed
    heap: it is not [undefined] and reaches no cycle. *)
Lemma serializable_iff (h : heap) (v : value) :
  heap_ok h -> value_ok (length h) v ->
  serializable h v <-> v <> VUndefined /\ ~ circular h v.
Proof.
  intros Hok Hv. split.
  - intros [j Hj]. split.
    + intros ->. discriminate Hj.
    + intros Hc. exact (stringify_circular_raises h v Hc _ _ Hj).
  - intros [Hdef Hc].
    destruct (JSON_stringify_total h v Hok Hv Hc) as [[j|] Hr].
    + exists j. exact Hr.
    + exfalso. apply Hdef. eapply stringify_None. exact Hr.
Qed.

Lemma serializable_app_inv (h n : heap) (v : value) :
  heap_ok h -> value_ok (length h) v -> serializable (h ++ n) v -> serializable h v.
Proof.
  intros Hok Hv [j Hj]. apply serializable_iff; [exact Hok|exact Hv|]. split.
  - intros ->. discriminate Hj.
  - intros Hc. apply (circular_app h n) in Hc.
    exact (stringify_circular_raises _ _ Hc _ _ Hj).
Qed.

Lemma JSON_clone_Return_inv (v copy : value) (st st' : State) :
  JSON_clone v st = Return copy st' -> serializable (st_heap st) v.
Proof.
  unfold JSON_clone, bind, gets, lift, ret, throw, JSON_parse, serializable.
  destruct (JSON_stringify (st_heap st) v) as [[j|]|e]; intros H;
    [eauto|discriminate H|discriminate H].
Qed.

Lemma createBackupData_loop_Return_inv (parcels : list Parcel) :
  forall acc st states st',
    heap_ok (st_heap st) ->
    Forall (fun p => value_ok (length (st_heap st)) (state p)) parcels ->
    createBackupData_loop parcels acc st = Return states st' ->
    forall p, In p parcels -> serializable (st_heap st) (state p).
Proof.
  induction parcels as [|q rest IH]; intros acc st states st' Hok Hvals Hloop p Hp;
    [destruct Hp|].
  apply Forall_cons in Hvals as [Hq Hvals].
  cbn [createBackupData_loop] in Hloop. unfold bind at 1 in Hloop.
  destruct (JSON_clone (state q) st) as [copy s1|e s1] eqn:Hclone; [|discriminate Hloop].
  pose proof (JSON_clone_Return_inv _ _ _ _ Hclone) as Hser.
  destruct Hp as [<-|Hp]; [exact Hser|].
  destruct Hser as [j Hj].
  destruct (JSON_clone_returns (state q) st j Hj) as (copy' & n1 & Hclone' & Halloc).
  rewrite Hclone in Hclone'. injection Hclone' as _ ->.
  specialize (Halloc Hok).
  assert (Hok1 : heap_ok (st_heap st ++ n1)).
  { destruct Halloc as (_ & _ & Hreg & Hn). apply heap_ok_app; assumption. }
  apply (serializable_app_inv (st_heap st) n1); [exact Hok| |].
  - rewrite Forall_forall in Hvals. apply Hvals. apply list_elem_of_In. exact Hp.
  - unfold bind at 1 in Hloop. unfold gets at 1 in Hloop.
    apply (IH (put_member (st_heap st ++ n1) (packageName (pkg q)) copy acc)
             (with_heap (st_heap st ++ n1) st) states st' Hok1); [|exact Hloop|exact Hp].
    eapply Forall_impl; [exact Hvals|]. intros x Hx. cbn [st_heap with_heap].
    eapply value_ok_weaken; [|exact Hx]. rewrite length_app. lia.
Qed.

(** X9. When a capture fails.  For parcels whose states are values of a
    well-formed heap, [createBackupData] returns exactly when no state is
    [undefined] and no state reaches a cycle of objects; otherwise it
    raises, as [JSON.stringify] rejects a circular structure and
    [JSON.parse] rejects [undefined]. *)
Theorem createBackupData_returns_iff (task : Task) (parcels : list Parcel)
    (options : CommandOptions) (st : State) :
  heap_ok (st_heap st) ->
  Forall (fun p => value_ok (length (st_heap st)) (state p)) parcels ->
  (exists d st', createBackupData task parcels options st = Return d st') <->
  Forall (fun p => state p <> VUndefined /\ ~ circular (st_heap st) (state p)) parcels.
Proof.
  intros Hok Hvals.
  assert (Hiff : forall p, In p parcels ->
            (serializable (st_heap st) (state p) <->
             state p <> VUndefined /\ ~ circular (st_heap st) (state p))).
  { intros p Hp. apply serializable_iff; [exact Hok|].
    rewrite Forall_forall in Hvals. apply Hvals. apply list_elem_of_In. exact Hp. }
  rewrite createBackupData_eval. split.
  - intros (d & st' & Hret).
    destruct (createBackupData_loop parcels empty_object st) as [states s1|e s1] eqn:Hloop;
      [|discriminate Hret].
    apply Forall_forall. intros p Hp. apply list_elem_of_In in Hp. apply Hiff; [exact Hp|].
    eapply createBackupData_loop_Return_inv; eassumption.
  - intros Hall.
    destruct (createBackupData_loop_spec parcels empty_object st)
      as (states & new & Hloop & _).
    { intros p Hp. apply Hiff; [exact Hp|].
      rewrite Forall_forall in Hall. apply Hall. apply list_elem_of_In. exact Hp. }
    rewrite Hloop. eauto.
Qed.

End PublishPackages.

(** ** The properties on the small repository *)

(** The backup of the small repository is valid for the invocation that
    made it. *)
Lemma validateBackup_valid_iff_witness :
  validateBackup example_fields example_backup example_state
  = Return (VBool true) example_state.
Proof.
  apply (validateBackup_valid_iff example_fields example_backup example_state).
  exists example_data. split; [reflexivity|]. split; vm_compute; reflexivity.
Defined.

(** A backup without payload is not valid, and nothing is raised. *)
Lemma validateBackup_missing_data_witness :
  exists v,
    validateBackup example_fields missing_backup example_state = Return v example_state /\
    truthy v = false /\ (v = VUndefined \/ v = VNull).
Proof.
  apply (validateBackup_missing_data example_fields missing_backup example_state).
  left. reflexivity.
Defined.

(** Scenario 3 of the specification: with [--retry] added, the backup is
    still valid; with another [--tag] it is not. *)
Lemma validateBackup_noninterference_witness :
  returned (validateBackup example_fields example_backup retry_state) = Ok (VBool true) /\
  returned (validateBackup example_fields example_backup latest_state) = Ok (VBool false).
Proof.
  split.
  - destruct (validateBackup_noninterference example_fields example_backup
                example_state retry_state eq_refl) as (_ & _ & Hretry & _).
    rewrite <- (Hretry
      ltac:(intros H; repeat (apply elem_of_cons in H as [H|H]; [discriminate H|]); inversion H)
      true eq_refl).
    vm_compute. reflexivity.
  - destruct (validateBackup_noninterference example_fields example_backup
                example_state latest_state eq_refl) as (_ & _ & _ & Hkept).
    apply (Hkept OptTag).
    + unfold example_fields. repeat constructor.
    + simpl. discriminate.
    + vm_compute. reflexivity.
Defined.

(** With [--list-unpublished], [--check-integrity] and [--canary] together,
    the packages are listed. *)
Lemma tasksForOptions_exclusive_witness :
  tasksForOptions list_and_canary_options = [listUnpublished_task].
Proof.
  destruct (tasksForOptions_exclusive list_and_canary_options) as (_ & Hlist & _).
  apply Hlist. reflexivity.
Defined.

Lemma example_heap_ok : heap_ok example_heap.
Proof.
  unfold heap_ok, example_heap. repeat constructor; simpl; try lia.
  all: intros H; repeat (apply elem_of_cons in H as [H|H]; [discriminate H|]); inversion H.
Qed.

Lemma example_parcels_serializable (p : Parcel) :
  In p example_parcels -> serializable (st_heap example_state) (state p).
Proof.
  intros [<-|[]]. eexists. vm_compute. reflexivity.
Qed.

Lemma example_data_ok :
  Forall (fun e : string * value => value_ok (length (st_heap example_state)) e.2)
    (data_state example_data).
Proof. repeat constructor. Qed.

Lemma example_parcels_named (p : Parcel) :
  In p example_parcels -> packageName (pkg p) <> "__proto__".
Proof. intros [<-|[]]. discriminate. Qed.


(** Scenario 2 of the specification: the backup names [old-pkg], which is
    not in the repository; the restore returns and no parcel is pushed for
    it. *)
Lemma restoreBackup_tolerates_gaps_witness :
  exists restored st',
    restoreBackup example_defaultState example_backup [] example_state
    = Return restored st' /\
    map parcel_name restored = ["pkgA"] /\
    ~ In "old-pkg" (map parcel_name restored).
Proof.
  destruct (restoreBackup_tolerates_gaps example_defaultState example_backup []
              example_state example_data eq_refl)
    as (restored & st' & Hret & Hnames & Hnot & _).
  exists restored, st'. split; [exact Hret|]. split; [exact Hnames|].
  assert (Hgap : getNode (new_PackagesGraph (st_packages example_state)) "old-pkg" = None)
    by reflexivity.
  exact (proj1 (Hnot "old-pkg" Hgap)).
Defined.

(** The restored parcel of [pkgA] has the persisted version and the default
    [published]. *)
Lemma restoreBackup_merges_witness :
  exists p st' l ps,
    restoreBackup example_defaultState example_backup [] example_state
    = Return [p] st' /\
    state p = VRef l /\
    st_heap st' !! l = Some (Obj ps) /\
    get_prop "version" ps = Some (VString "1.2.0") /\
    get_prop "published" ps = Some (VBool false).
Proof.
  destruct (restoreBackup_merges example_defaultState example_backup []
              example_state example_data eq_refl example_data_ok)
    as (restored & st' & Hret & Hall).
  vm_compute in Hall.
  apply Forall2_cons_inv_l in Hall as (p & rest & Hp & Hrest & ->).
  apply Forall2_nil_inv_l in Hrest as ->.
  destruct Hp as (node & l & ps & _ & _ & Hs & Hlook & Hprops).
  exists p, st', l, ps. split; [exact Hret|]. split; [exact Hs|]. split; [exact Hlook|].
  split; [apply (Hprops "version")|apply (Hprops "published")].
Defined.

(** On the small repository: the bag stored for [pkgA] is a clone that no
    live bag reaches into, and the bag of the restored parcel is a new
    object with the persisted version. *)
Lemma capture_clones_restore_copies_members_witness :
  (exists d st' bag,
     createBackupData example_fields publishPackagesPipeline example_parcels
       example_options example_state = Return d st' /\
     get_prop "pkgA" (data_state d) = Some bag /\
     clone_of (st_heap example_state) (st_heap st') (VRef 1) bag /\
     ~ aliased (st_heap st') bag (VRef 1)) /\
  (exists p st' l ps,
     restoreBackup example_defaultState example_backup [] example_state = Return [p] st' /\
     state p = VRef l /\ 5 <= l /\
     st_heap st' !! l = Some (Obj ps) /\
     get_prop "logs" ps = Some (VRef 2)).
Proof.
  destruct (capture_clones_restore_copies_members example_fields example_defaultState)
    as [Hcapture Hrestore].
  split.
  - destruct (Hcapture publishPackagesPipeline example_parcels example_options
                example_state example_heap_ok example_parcels_serializable)
      as (d & st' & new & Hret & _ & Hbags & Hall).
    destruct (Hall ltac:(repeat constructor; intros H; inversion H)
                {| pkg := {| packageName := "pkgA" |}; state := VRef 1 |}
                ltac:(left; reflexivity) ltac:(discriminate))
      as (bag & Hbag & Hclone).
    exists d, st', bag. split; [exact Hret|]. split; [exact Hbag|]. split; [exact Hclone|].
    destruct (Hbags "pkgA" bag Hbag) as [_ Hnot].
    apply (Hnot {| pkg := {| packageName := "pkgA" |}; state := VRef 1 |}).
    left. reflexivity.
  - destruct (Hrestore example_backup [] example_state example_data eq_refl example_data_ok)
      as (restored & st' & new & Hret & _ & Hall).
    vm_compute in Hall.
    apply Forall2_cons_inv_l in Hall as (p & rest & Hp & Hrest & ->).
    apply Forall2_nil_inv_l in Hrest as ->.
    destruct Hp as (l & ps & Hs & Hl & _ & Hlook & Hprops).
    exists p, st', l, ps. split; [exact Hret|]. split; [exact Hs|]. split; [exact Hl|].
    split; [exact Hlook|]. apply (Hprops "logs"). reflexivity.
Defined.

(** C2, the claim as it was stated, fails on restore: the state of the
    parcel restored for [pkgA], the new object at 6, and the bag of [pkgA]
    in the backup, the object at 3, both reach the array of logs of the
    backup at 2, which [restoreBackup] has not cloned. *)
Lemma restoreBackup_aliases_backup :
  exists st',
    restoreBackup example_defaultState example_backup [] example_state
    = Return [{| pkg := {| packageName := "pkgA" |}; state := VRef 6 |}] st' /\
    get_prop "pkgA" (data_state example_data) = Some (VRef 3) /\
    aliased (st_heap st') (VRef 6) (VRef 3).
Proof.
  eexists. split; [vm_compute; reflexivity|]. split; [reflexivity|].
  exists 2. split.
  - eapply reach_step; [reflexivity| |apply reach_here]. simpl. auto.
  - eapply reach_step; [reflexivity| |apply reach_here]. simpl. auto.
Qed.

(** On the state in which Commander calls [main]: the runner gets the
    options with the package names of the command line, and with a runner
    that does nothing these are the options at the end. *)
Lemma options_written_by_main_only_witness :
  (exists taskRunner,
     main example_fields example_defaultState example_shouldUseBackupAsync
       ".publish-backup.json" 1800000 idle_runner ["expo-gl"] commander_state
     = idle_runner taskRunner [] (set_packageNames ["expo-gl"] commander_options)
         (with_options (set_packageNames ["expo-gl"] commander_options) commander_state) /\
     tasks taskRunner = [publishPackagesPipeline]) /\
  st_options
    (final_state
       (main example_fields example_defaultState example_shouldUseBackupAsync
          ".publish-backup.json" 1800000 idle_runner ["expo-gl"] commander_state))
  = set_packageNames ["expo-gl"] commander_options /\
  preserves_options (shouldUseBackup example_shouldUseBackupAsync).
Proof.
  destruct (options_written_by_main_only example_fields example_defaultState
              example_shouldUseBackupAsync ".publish-backup.json" 1800000 idle_runner
              ["expo-gl"] commander_state)
    as ((taskRunner & Hmain & Htasks) & _ & Hend & _ & Hshould & _).
  split; [exists taskRunner; split; [exact Hmain|exact Htasks]|]. split.
  - apply Hend. intros runner args options s. reflexivity.
  - apply Hshould. intros options s. reflexivity.
Defined.

(** C7, the claim as it was stated, fails for [main]: after [main] the
    options object is not the one Commander delivered, it has the package
    names of the command line. *)
Lemma main_writes_options :
  st_options
    (final_state
       (main example_fields example_defaultState example_shouldUseBackupAsync
          ".publish-backup.json" 1800000 idle_runner ["expo-gl"] commander_state))
  <> st_options commander_state.
Proof. vm_compute. discriminate. Qed.

(** ** Serialisation on small heaps *)

(** A member that is [undefined] is not in the clone. *)
Lemma JSON_clone_drops_undefined :
  JSON_stringify sparse_heap (VRef 0) = Ok (Some (JObject [("version", JString "2.0.0")])) /\
  parse (JObject [("version", JString "2.0.0")]) sparse_heap
  = (VRef 1, sparse_heap ++ [Obj [("version", VString "2.0.0")]]).
Proof. split; reflexivity. Qed.

(** A bag that holds itself is refused, and [createBackupData] raises. *)
Lemma circular_bag_raises :
  circular knot_heap (VRef 0) /\
  JSON_stringify knot_heap (VRef 0) = Err circular_error /\
  returned
    (createBackupData example_fields publishPackagesPipeline
       [{| pkg := {| packageName := "pkgA" |}; state := VRef 0 |}]
       example_options (with_heap knot_heap example_state))
  = Err circular_error.
Proof.
  split; [|split; reflexivity].
  exists 0. split; [apply reach_here|]. apply tc_once.
  exists (Obj [("self", VRef 0)]). split; [reflexivity|]. left. reflexivity.
Qed.

(** The assignment to [__proto__] makes no key: only [pkgA] is in the
    state map. *)
Lemma proto_parcel_has_no_key :
  exists d st',
    createBackupData example_fields publishPackagesPipeline proto_parcels
      example_options example_state = Return d st' /\
    data_state d = [("pkgA", VRef 7)].
Proof. eexists. eexists. split; [vm_compute; reflexivity|reflexivity]. Qed.

(** The names that are array indices are enumerated first, in ascending
    order. *)
Lemma numbered_parcels_order :
  exists d st',
    createBackupData example_fields publishPackagesPipeline numbered_parcels
      example_options example_state = Return d st' /\
    keys (data_state d) = ["9"; "10"; "b"].
Proof. eexists. eexists. split; [vm_compute; reflexivity|reflexivity]. Qed.

(** Of two parcels of the same package the second is the one in the
    payload. *)
Lemma twin_parcels_last_wins :
  exists d st',
    createBackupData example_fields publishPackagesPipeline twin_parcels
      example_options example_state = Return d st' /\
    data_state d = [("pkgA", VRef 7)] /\
    st_heap st' !! 7 = Some (Obj [("version", VString "0.9.0")]).
Proof. eexists. eexists. split; [vm_compute; reflexivity|]. split; reflexivity. Qed.

(** ** The build properties: what the functions do *)

Section BuildPropertiesFacts.

Context (getProjectPackageJsonPathAsync : string -> M string).
Context (path_dirname : string -> string).
Context (getConfig : string -> bool -> M value).

#[local] Abbreviation getBuildProperties :=
  (getBuildPropertiesAsync getProjectPackageJsonPathAsync path_dirname getConfig).
#[local] Abbreviation resolveExtraDependencies :=
  (resolveExtraDependenciesAsync getProjectPackageJsonPathAsync path_dirname getConfig).
#[local] Abbreviation loads :=
  (loads_config getProjectPackageJsonPathAsync path_dirname getConfig).

Lemma bind_Return_inv {A B} (m : M A) (f : A -> M B) (s s' : State) (b : B) :
  bind m f s = Return b s' -> exists a s1, m s = Return a s1 /\ f a s1 = Return b s'.
Proof.
  unfold bind. destruct (m s) as [a s1|e s1]; [|discriminate].
  intros H. exists a, s1. split; [reflexivity|exact H].
Qed.

Lemma js_get_defined (v : value) (k : string) (st : State) :
  nullish v = false -> js_get v k st = Return (own_member (st_heap st) v k) st.
Proof. destruct v; simpl; try discriminate; reflexivity. Qed.

Lemma js_get_nullish (v : value) (k : string) (st : State) :
  nullish v = true -> exists msg, js_get v k st = Raise (TypeError msg) st.
Proof. destruct v; simpl; try discriminate; eexists; reflexivity. Qed.

Lemma js_get_Return (v : value) (k : string) (st st' : State) (r : value) :
  js_get v k st = Return r st' ->
  nullish v = false /\ st' = st /\ r = own_member (st_heap st) v k.
Proof.
  destruct (nullish v) eqn:E.
  - destruct (js_get_nullish v k st E) as [msg ->]. discriminate.
  - rewrite (js_get_defined v k st E). intros [= <- <-]. auto.
Qed.

(** A plugin that is listed by its name is a string: its [0] is its first
    character, which is not the name of the build properties. *)
Lemma names_build_properties_string (h : heap) (s : string) :
  names_build_properties h (VString s) = false.
Proof.
  unfold names_build_properties, own_member. simpl.
  destruct s as [|c s]; [reflexivity|]. simpl.
  destruct (Ascii.eqb c _); reflexivity.
Qed.

Lemma names_build_properties_defined (h : heap) (item : value) :
  names_build_properties h item = true -> nullish item = false.
Proof. destruct item; try reflexivity; discriminate. Qed.

(** The callback of the search, on an item that is not nullish. *)
Lemma callback_defined (item : value) (st : State) :
  nullish item = false ->
  (let* name := js_index item 0 in
   ret (strict_eq_string name "expo-build-properties")) st
  = Return (names_build_properties (st_heap st) item) st.
Proof.
  intros H. unfold bind, js_index.
  change (pretty 0) with "0". rewrite (js_get_defined item "0" st H). reflexivity.
Qed.

Lemma callback_nullish (item : value) (st : State) :
  nullish item = true ->
  exists msg,
    (let* name := js_index item 0 in
     ret (strict_eq_string name "expo-build-properties")) st
    = Raise (TypeError msg) st.
Proof.
  intros H. unfold bind, js_index.
  destruct (js_get_nullish item (pretty 0) st H) as [msg ->]. exists msg. reflexivity.
Qed.

(** The search goes over the items it passes. *)
Lemma find_item_passed (st : State) (pre rest : list value) :
  Forall (passed (st_heap st)) pre ->
  find_item
    (fun item => let* name := js_index item 0 in
                 ret (strict_eq_string name "expo-build-properties"))
    (pre ++ rest) st
  = find_item
      (fun item => let* name := js_index item 0 in
                   ret (strict_eq_string name "expo-build-properties"))
      rest st.
Proof.
  induction 1 as [|item pre [Hdef Hno] _ IH]; [reflexivity|].
  simpl. unfold bind at 1. rewrite (callback_defined item st Hdef), Hno. exact IH.
Qed.

Lemma plugins_found (config : value) (st : State) (l : loc) (items : list value) :
  st_heap st !! l = Some (Arr items) ->
  js_optional (VRef l) (fun plugins =>
    js_find plugins (fun item =>
      let* name := js_index item 0 in
      ret (strict_eq_string name "expo-build-properties"))) st
  = find_item
      (fun item => let* name := js_index item 0 in
                   ret (strict_eq_string name "expo-build-properties"))
      items st.
Proof. intros H. unfold js_optional, js_find, bind, gets. simpl. rewrite H. reflexivity. Qed.

(** After the app config is read, the rest of [getBuildPropertiesAsync]
    runs on it. *)
Lemma getBuildProperties_loaded (projectRoot : string) (st st1 : State) (config : value) :
  loads projectRoot st config st1 ->
  getBuildProperties projectRoot st =
  (let* plugins := js_get config "plugins" in
   let* entry :=
     js_optional plugins (fun plugins =>
       js_find plugins (fun item =>
         let* name := js_index item 0 in
         ret (strict_eq_string name "expo-build-properties"))) in
   let* buildPropertiesPlugin := js_optional entry (fun entry => js_index entry 1) in
   js_coalesce buildPropertiesPlugin (alloc (Obj []))) st1.
Proof.
  intros (path & s1 & projectConfig & Hpath & Hconfig & Hexp).
  unfold getBuildPropertiesAsync. unfold bind at 1. rewrite Hpath.
  unfold bind at 1. rewrite Hconfig. unfold bind at 1. rewrite Hexp. reflexivity.
Qed.

Lemma alloc_eval (o : object) (st : State) :
  alloc o st = Return (VRef (length (st_heap st))) (with_heap (st_heap st ++ [o]) st).
Proof. reflexivity. Qed.

(** What [getBuildPropertiesAsync] returns is not nullish. *)
Lemma getBuildProperties_defined (projectRoot : string) (st st1 : State) (v : value) :
  getBuildProperties projectRoot st = Return v st1 -> nullish v = false.
Proof.
  unfold getBuildPropertiesAsync. intros H.
  repeat (apply bind_Return_inv in H as (? & ? & _ & H)).
  unfold js_coalesce in H.
  match type of H with
  | (if nullish ?x then _ else _) _ = _ => destruct (nullish x) eqn:E
  end.
  - rewrite alloc_eval in H. injection H as <- _. reflexivity.
  - injection H as <- _. exact E.
Qed.

Lemma js_coalesce_alloc (v : value) (o : object) (st : State) :
  js_coalesce v (alloc o) st =
  if nullish v
  then Return (VRef (length (st_heap st))) (with_heap (st_heap st ++ [o]) st)
  else Return v st.
Proof. unfold js_coalesce. destruct (nullish v); reflexivity. Qed.

Lemma js_optional_get (v : value) (k : string) (st : State) :
  js_optional v (fun x => js_get x k) st =
  Return (if nullish v then VUndefined else own_member (st_heap st) v k) st.
Proof.
  unfold js_optional. destruct (nullish v) eqn:E; [reflexivity|].
  apply js_get_defined, E.
Qed.

(** When no entry is found, the result is a new empty object. *)
Lemma nothing_found (st : State) :
  (let* buildPropertiesPlugin := js_optional VUndefined (fun entry => js_index entry 1) in
   js_coalesce buildPropertiesPlugin (alloc (Obj []))) st
  = Return (VRef (length (st_heap st))) (with_heap (st_heap st ++ [Obj []]) st).
Proof. reflexivity. Qed.

Lemma find_item_all_passed (st : State) (items : list value) :
  Forall (passed (st_heap st)) items ->
  find_item
    (fun item => let* name := js_index item 0 in
                 ret (strict_eq_string name "expo-build-properties"))
    items st
  = Return VUndefined st.
Proof.
  intros H. rewrite <- (app_nil_r items). rewrite (find_item_passed st items [] H).
  reflexivity.
Qed.

(** X10. Without an entry of the build properties the settings are a new
    empty object: when the app config has no [plugins] ([undefined] or
    [null]), and when [plugins] is an array in which no item has the name
    [expo-build-properties] at [0]. *)
Theorem getBuildProperties_without_entry (projectRoot : string) (st st1 : State)
    (config : value) :
  loads projectRoot st config st1 ->
  nullish config = false ->
  (nullish (own_member (st_heap st1) config "plugins") = true \/
   exists l items,
     own_member (st_heap st1) config "plugins" = VRef l /\
     st_heap st1 !! l = Some (Arr items) /\
     Forall (passed (st_heap st1)) items) ->
  getBuildProperties projectRoot st =
  Return (VRef (length (st_heap st1))) (with_heap (st_heap st1 ++ [Obj []]) st1).
Proof.
  intros Hload Hconfig Hplugins.
  rewrite (getBuildProperties_loaded projectRoot st st1 config Hload).
  unfold bind at 1. rewrite (js_get_defined config "plugins" st1 Hconfig).
  destruct Hplugins as [Hnull|(l & items & Hl & Hitems & Hall)].
  - unfold bind at 1. unfold js_optional at 1. rewrite Hnull. apply nothing_found.
  - rewrite Hl. unfold bind at 1. rewrite (plugins_found config st1 l items Hitems).
    rewrite (find_item_all_passed st1 items Hall). apply nothing_found.
Qed.

(** X11. Plugins that are listed by their names only are never the entry of
    the build properties, not even the name [expo-build-properties]
    itself: with such a list the settings are a new empty object. *)
Theorem getBuildProperties_names_only (projectRoot : string) (st st1 : State)
    (config : value) (l : loc) (items : list value) :
  loads projectRoot st config st1 ->
  nullish config = false ->
  own_member (st_heap st1) config "plugins" = VRef l ->
  st_heap st1 !! l = Some (Arr items) ->
  Forall (fun item => exists name, item = VString name) items ->
  getBuildProperties projectRoot st =
  Return (VRef (length (st_heap st1))) (with_heap (st_heap st1 ++ [Obj []]) st1).
Proof.
  intros Hload Hconfig Hl Hitems Hnames.
  rewrite (getBuildProperties_loaded projectRoot st st1 config Hload).
  unfold bind at 1. rewrite (js_get_defined config "plugins" st1 Hconfig), Hl.
  unfold bind at 1. rewrite (plugins_found config st1 l items Hitems).
  rewrite (find_item_all_passed st1 items); [apply nothing_found|].
  eapply Forall_impl; [exact Hnames|]. intros item [name ->].
  split; [reflexivity|apply names_build_properties_string].
Qed.

(** X12. The first entry wins: when the items before it are passed, the
    first item with the name [expo-build-properties] at [0] gives the
    settings, whatever follows it.  The settings are its [1], the very
    value of the app config and not a copy, and a new empty object when
    its [1] is missing or [null]. *)
Theorem getBuildProperties_first_entry (projectRoot : string) (st st1 : State)
    (config : value) (l : loc) (pre post : list value) (entry : value) :
  loads projectRoot st config st1 ->
  nullish config = false ->
  own_member (st_heap st1) config "plugins" = VRef l ->
  st_heap st1 !! l = Some (Arr (pre ++ entry :: post)) ->
  Forall (passed (st_heap st1)) pre ->
  names_build_properties (st_heap st1) entry = true ->
  getBuildProperties projectRoot st =
  if nullish (own_member (st_heap st1) entry "1")
  then Return (VRef (length (st_heap st1))) (with_heap (st_heap st1 ++ [Obj []]) st1)
  else Return (own_member (st_heap st1) entry "1") st1.
Proof.
  intros Hload Hconfig Hl Hitems Hpre Hentry.
  rewrite (getBuildProperties_loaded projectRoot st st1 config Hload).
  unfold bind at 1. rewrite (js_get_defined config "plugins" st1 Hconfig), Hl.
  unfold bind at 1. rewrite (plugins_found config st1 l _ Hitems).
  rewrite (find_item_passed st1 pre (entry :: post) Hpre).
  pose proof (names_build_properties_defined _ _ Hentry) as Hdef.
  simpl find_item. unfold bind at 1. rewrite (callback_defined entry st1 Hdef), Hentry.
  unfold ret at 1. unfold bind at 1. unfold js_optional. rewrite Hdef.
  unfold js_index. change (pretty 1) with "1".
  rewrite (js_get_defined entry "1" st1 Hdef). apply js_coalesce_alloc.
Qed.

(** X13. The search raises a [TypeError] when [plugins] is there but is not
    an array, and when it comes to an item that is [undefined] or [null]
    before it has found an entry. *)
Theorem getBuildProperties_raises (projectRoot : string) (st st1 : State)
    (config : value) :
  loads projectRoot st config st1 ->
  nullish config = false ->
  (nullish (own_member (st_heap st1) config "plugins") = false /\
   (forall l items, own_member (st_heap st1) config "plugins" = VRef l ->
                    st_heap st1 !! l <> Some (Arr items))) \/
  (exists l pre bad post,
     own_member (st_heap st1) config "plugins" = VRef l /\
     st_heap st1 !! l = Some (Arr (pre ++ bad :: post)) /\
     Forall (passed (st_heap st1)) pre /\
     nullish bad = true) ->
  exists msg, getBuildProperties projectRoot st = Raise (TypeError msg) st1.
Proof.
  intros Hload Hconfig Hcase.
  rewrite (getBuildProperties_loaded projectRoot st st1 config Hload).
  unfold bind at 1. rewrite (js_get_defined config "plugins" st1 Hconfig).
  destruct Hcase as [[Hdef Hnot]|(l & pre & bad & post & Hl & Hitems & Hpre & Hbad)].
  - unfold bind at 1. unfold js_optional at 1. rewrite Hdef.
    unfold js_find, bind, gets.
    destruct (own_member (st_heap st1) config "plugins") as [| | | | |l] eqn:E;
      try (eexists; reflexivity).
    destruct (st_heap st1 !! l) as [[ps|items]|] eqn:El; try (eexists; reflexivity).
    exfalso. apply (Hnot l items eq_refl). exact El.
  - rewrite Hl. unfold bind at 1. rewrite (plugins_found config st1 l _ Hitems).
    rewrite (find_item_passed st1 pre (bad :: post) Hpre).
    simpl find_item. unfold bind at 1.
    destruct (callback_nullish bad st1 Hbad) as [msg ->]. exists msg. reflexivity.
Qed.

(** Reading a member of a value of the old heap is not changed by
    allocations. *)
Lemma own_member_app (h h2 : heap) (v : value) (k : string) :
  value_ok (length h) v -> own_member (h ++ h2) v k = own_member h v k.
Proof.
  intros Hv. unfold own_member. rewrite (own_props_app h h2 v Hv).
  destruct v as [| | | | |l]; try reflexivity.
  simpl in Hv. rewrite lookup_app_l by exact Hv. reflexivity.
Qed.

Lemma get_prop_imap_In {A} (f : A -> value) (k : string) (v : value) (xs : list A) :
  get_prop k (imap (fun i x => (pretty i, f x)) xs) = Some v -> In v (map f xs).
Proof.
  intros H. apply get_prop_In in H. apply list_elem_of_In in H.
  apply elem_of_lookup_imap in H as (i & x & Heq & Hx).
  injection Heq as _ ->. apply in_map. apply list_elem_of_In.
  eapply list_elem_of_lookup_2. exact Hx.
Qed.

(** In a well-formed heap a member of a value is a value of the heap. *)
Lemma own_member_ok (h : heap) (v : value) (k : string) :
  heap_ok h -> value_ok (length h) (own_member h v k).
Proof.
  intros Hh.
  assert (Hprops : forall x, get_prop k (own_props h v) = Some x -> value_ok (length h) x).
  { intros x Hx. destruct v as [| | | |s|l]; simpl in Hx; try discriminate Hx.
    - apply (get_prop_imap_In (fun c => VString (String c EmptyString))) in Hx.
      apply in_map_iff in Hx as (c & <- & _). exact I.
    - destruct (h !! l) as [[ps|xs]|] eqn:El; [| |discriminate Hx].
      + apply get_prop_In in Hx.
        pose proof (proj1 (Forall_lookup _ _) Hh l _ El) as [Hc _].
        simpl in Hc. rewrite Forall_forall in Hc. apply Hc.
        apply list_elem_of_In. apply (in_map snd) in Hx. exact Hx.
      + apply (get_prop_imap_In (fun x => x)) in Hx. rewrite map_id in Hx.
        pose proof (proj1 (Forall_lookup _ _) Hh l _ El) as [Hc _].
        simpl in Hc. rewrite Forall_forall in Hc. apply Hc.
        apply list_elem_of_In. exact Hx. }
  assert (Hdef : value_ok (length h) (default VUndefined (get_prop k (own_props h v)))).
  { destruct (get_prop k (own_props h v)) as [x|] eqn:E; [apply Hprops; reflexivity|exact I]. }
  unfold own_member.
  destruct v as [| | | |s|l]; try exact Hdef.
  - destruct (String.eqb k "length"); [exact I|exact Hdef].
  - destruct (String.eqb k "length"); [|exact Hdef].
    destruct (h !! l) as [[ps|xs]|]; try exact Hdef. exact I.
Qed.

(** What [resolveExtraDependenciesAsync] does with the build properties. *)
Lemma resolveExtraDependencies_eval (projectRoot : string) (st st1 : State)
    (buildProps : value) :
  getBuildProperties projectRoot st = Return buildProps st1 ->
  resolveExtraDependencies projectRoot st =
  let h1 := st_heap st1 in
  let repos := optional_member h1 buildProps "android" "extraMavenRepos" in
  let h2 := if nullish repos then h1 ++ [Arr []] else h1 in
  let pods := optional_member h2 buildProps "ios" "extraPods" in
  let h3 := if nullish pods then h2 ++ [Obj []] else h2 in
  Return (VRef (length h3))
    (with_heap
       (h3 ++ [Obj [("androidMavenRepos", if nullish repos then VRef (length h1) else repos);
                    ("iosPods", if nullish pods then VRef (length h2) else pods)]])
       st1).
Proof.
  intros Hbp. pose proof (getBuildProperties_defined _ _ _ _ Hbp) as Hdef.
  unfold resolveExtraDependenciesAsync. unfold bind at 1. rewrite Hbp.
  unfold bind at 1. rewrite (js_get_defined buildProps "android" st1 Hdef).
  unfold bind at 1. rewrite js_optional_get.
  fold (optional_member (st_heap st1) buildProps "android" "extraMavenRepos").
  unfold bind at 1. rewrite js_coalesce_alloc.
  destruct (nullish (optional_member (st_heap st1) buildProps "android" "extraMavenRepos"));
    unfold bind at 1; rewrite (js_get_defined buildProps "ios" _ Hdef);
    unfold bind at 1; rewrite js_optional_get;
    cbn [st_heap with_heap];
    match goal with
    | |- context [own_member ?h buildProps "ios"] =>
        fold (optional_member h buildProps "ios" "extraPods")
    end;
    unfold bind at 1; rewrite js_coalesce_alloc;
    match goal with
    | |- context [nullish (optional_member ?h buildProps "ios" "extraPods")] =>
        destruct (nullish (optional_member h buildProps "ios" "extraPods"))
    end; reflexivity.
Qed.

(** X16. [resolveExtraDependenciesAsync] fails only where
    [getBuildPropertiesAsync] does, with its error.  Where that returns, the
    settings are never [undefined] or [null], and the result is a new
    object with the two members [androidMavenRepos] and [iosPods], in this
    order and neither of them [undefined] or [null]; the heap is only
    extended and nothing else of the state changes. *)
Theorem resolveExtraDependencies_shape (projectRoot : string) (st : State) :
  match getBuildProperties projectRoot st with
  | Raise e st1 => resolveExtraDependencies projectRoot st = Raise e st1
  | Return buildProps st1 =>
      nullish buildProps = false /\
      exists l new repos pods,
        resolveExtraDependencies projectRoot st =
          Return (VRef l) (with_heap (st_heap st1 ++ new) st1) /\
        length (st_heap st1) <= l /\
        (st_heap st1 ++ new) !! l =
          Some (Obj [("androidMavenRepos", repos); ("iosPods", pods)]) /\
        nullish repos = false /\ nullish pods = false
  end.
Proof.
  destruct (getBuildProperties projectRoot st) as [buildProps st1|e st1] eqn:Hbp.
  - split; [exact (getBuildProperties_defined _ _ _ _ Hbp)|].
    rewrite (resolveExtraDependencies_eval projectRoot st st1 buildProps Hbp).
    cbv zeta.
    destruct (nullish (optional_member (st_heap st1) buildProps "android" "extraMavenRepos"))
      eqn:Erepos;
    match goal with
    | |- context [nullish (optional_member ?h buildProps "ios" "extraPods")] =>
        destruct (nullish (optional_member h buildProps "ios" "extraPods")) eqn:Epods
    end.
    + exists (length ((st_heap st1 ++ [Arr []]) ++ [Obj []])),
        [Arr []; Obj [];
         Obj [("androidMavenRepos", VRef (length (st_heap st1)));
              ("iosPods", VRef (length (st_heap st1 ++ [Arr []])))]],
        (VRef (length (st_heap st1))), (VRef (length (st_heap st1 ++ [Arr []]))). split; [|split; [|split; [|split; reflexivity]]].
      * rewrite <- !app_assoc. reflexivity.
      * rewrite !length_app. lia.
      * rewrite lookup_app_r by (rewrite !length_app; simpl; lia).
        rewrite !length_app. simpl.
        replace (length (st_heap st1) + 1 + 1 - length (st_heap st1)) with 2 by lia.
        reflexivity.
    + exists (length (st_heap st1 ++ [Arr []])),
        [Arr [];
         Obj [("androidMavenRepos", VRef (length (st_heap st1)));
              ("iosPods", optional_member (st_heap st1 ++ [Arr []]) buildProps "ios" "extraPods")]],
        (VRef (length (st_heap st1))),
        (optional_member (st_heap st1 ++ [Arr []]) buildProps "ios" "extraPods"). split; [|split; [|split; [|split; [reflexivity|exact Epods]]]].
      * rewrite <- !app_assoc. reflexivity.
      * rewrite !length_app. lia.
      * rewrite lookup_app_r by (rewrite !length_app; simpl; lia).
        rewrite !length_app. simpl.
        replace (length (st_heap st1) + 1 - length (st_heap st1)) with 1 by lia.
        reflexivity.
    + exists (length (st_heap st1 ++ [Obj []])),
        [Obj [];
         Obj [("androidMavenRepos", optional_member (st_heap st1) buildProps "android" "extraMavenRepos");
              ("iosPods", VRef (length (st_heap st1)))]],
        (optional_member (st_heap st1) buildProps "android" "extraMavenRepos"),
        (VRef (length (st_heap st1))). split; [|split; [|split; [|split; [exact Erepos|reflexivity]]]].
      * rewrite <- !app_assoc. reflexivity.
      * rewrite !length_app. lia.
      * rewrite lookup_app_r by (rewrite !length_app; simpl; lia).
        rewrite !length_app. simpl.
        replace (length (st_heap st1) + 1 - length (st_heap st1)) with 1 by lia.
        reflexivity.
    + exists (length (st_heap st1)),
        [Obj [("androidMavenRepos", optional_member (st_heap st1) buildProps "android" "extraMavenRepos");
              ("iosPods", optional_member (st_heap st1) buildProps "ios" "extraPods")]],
        (optional_member (st_heap st1) buildProps "android" "extraMavenRepos"),
        (optional_member (st_heap st1) buildProps "ios" "extraPods"). split; [|split; [|split; [|split; [exact Erepos|exact Epods]]]].
      * reflexivity.
      * lia.
      * rewrite lookup_app_r by lia. rewrite Nat.sub_diag. reflexivity.
  - unfold resolveExtraDependenciesAsync. unfold bind at 1. rewrite Hbp. reflexivity.
Qed.

Lemma optional_member_app (h h2 : heap) (v : value) (k m : string) :
  heap_ok h -> value_ok (length h) v ->
  optional_member (h ++ h2) v k m = optional_member h v k m.
Proof.
  intros Hh Hv. unfold optional_member.
  rewrite (own_member_app h h2 v k Hv).
  rewrite (own_member_app h h2 (own_member h v k) m (own_member_ok h v k Hh)).
  reflexivity.
Qed.

(** X17. The members of the result of [resolveExtraDependenciesAsync], for
    settings of a well-formed heap.  What the settings have under
    [android.extraMavenRepos] and [ios.extraPods] is passed on as it is,
    the same object and not a copy, and also when it is a falsy value such
    as [false], [0] or the empty string; where [android] or [ios] or the
    member itself is [undefined] or [null], [androidMavenRepos] is a new
    empty array and [iosPods] a new empty object. *)
Theorem resolveExtraDependencies_members (projectRoot : string) (st st1 : State)
    (buildProps : value) :
  getBuildProperties projectRoot st = Return buildProps st1 ->
  heap_ok (st_heap st1) ->
  value_ok (length (st_heap st1)) buildProps ->
  let h1 := st_heap st1 in
  let repos := optional_member h1 buildProps "android" "extraMavenRepos" in
  let pods := optional_member h1 buildProps "ios" "extraPods" in
  exists l st2 androidMavenRepos iosPods,
    resolveExtraDependencies projectRoot st = Return (VRef l) st2 /\
    st_heap st2 !! l =
      Some (Obj [("androidMavenRepos", androidMavenRepos); ("iosPods", iosPods)]) /\
    (if nullish repos
     then exists la, androidMavenRepos = VRef la /\ length h1 <= la /\
                     st_heap st2 !! la = Some (Arr [])
     else androidMavenRepos = repos) /\
    (if nullish pods
     then exists li, iosPods = VRef li /\ length h1 <= li /\
                     st_heap st2 !! li = Some (Obj [])
     else iosPods = pods) /\
    androidMavenRepos <> VRef l /\ iosPods <> VRef l.
Proof.
  intros Hbp Hh Hv h1 repos pods.
  rewrite (resolveExtraDependencies_eval projectRoot st st1 buildProps Hbp).
  cbv zeta. fold h1. fold repos.
  assert (Hpods : forall h2, optional_member (h1 ++ h2) buildProps "ios" "extraPods" = pods)
    by (intros h2; apply optional_member_app; assumption).
  assert (Hrepos_ok : value_ok (length h1) repos).
  { unfold repos, optional_member.
    destruct (nullish (own_member h1 buildProps "android")); [exact I|].
    apply own_member_ok, Hh. }
  assert (Hpods_ok : value_ok (length h1) pods).
  { unfold pods, optional_member.
    destruct (nullish (own_member h1 buildProps "ios")); [exact I|].
    apply own_member_ok, Hh. }
  assert (Hfresh : forall v n, value_ok (length h1) v -> length h1 <= n -> v <> VRef n).
  { intros v n Hok Hn ->. simpl in Hok. lia. }
  destruct (nullish repos) eqn:Erepos.
  - rewrite (Hpods [Arr []]). destruct (nullish pods) eqn:Epods.
    + do 4 eexists. split; [reflexivity|]. cbn [st_heap with_heap].
      split; [|split; [|split; [|split]]].
      * rewrite lookup_app_r by lia. rewrite Nat.sub_diag. reflexivity.
      * exists (length h1). split; [reflexivity|]. split; [lia|].
        rewrite <- !app_assoc. rewrite lookup_app_r by lia. rewrite Nat.sub_diag. reflexivity.
      * exists (length (h1 ++ [Arr []])). split; [reflexivity|].
        split; [rewrite length_app; lia|].
        rewrite lookup_app_l by (rewrite !length_app; simpl; lia).
        rewrite lookup_app_r by lia. rewrite Nat.sub_diag. reflexivity.
      * rewrite !length_app. simpl. intros [= H]. lia.
      * rewrite !length_app. simpl. intros [= H]. lia.
    + do 4 eexists. split; [reflexivity|]. cbn [st_heap with_heap].
      split; [|split; [|split; [|split]]].
      * rewrite lookup_app_r by lia. rewrite Nat.sub_diag. reflexivity.
      * exists (length h1). split; [reflexivity|]. split; [lia|].
        rewrite <- !app_assoc. rewrite lookup_app_r by lia. rewrite Nat.sub_diag. reflexivity.
      * reflexivity.
      * rewrite !length_app. simpl. intros [= H]. lia.
      * apply Hfresh; [exact Hpods_ok|]. rewrite length_app. lia.
  - specialize (Hpods []). rewrite app_nil_r in Hpods. rewrite Hpods.
    destruct (nullish pods) eqn:Epods.
    + do 4 eexists. split; [reflexivity|]. cbn [st_heap with_heap].
      split; [|split; [|split; [|split]]].
      * rewrite lookup_app_r by lia. rewrite Nat.sub_diag. reflexivity.
      * reflexivity.
      * exists (length h1). split; [reflexivity|]. split; [lia|].
        rewrite <- !app_assoc. rewrite lookup_app_r by lia. rewrite Nat.sub_diag. reflexivity.
      * apply Hfresh; [exact Hrepos_ok|]. rewrite length_app. lia.
      * rewrite !length_app. simpl. intros [= H]. lia.
    + do 4 eexists. split; [reflexivity|]. cbn [st_heap with_heap].
      split; [|split; [|split; [|split]]].
      * rewrite lookup_app_r by lia. rewrite Nat.sub_diag. reflexivity.
      * reflexivity.
      * reflexivity.
      * apply Hfresh; [exact Hrepos_ok|lia].
      * apply Hfresh; [exact Hpods_ok|lia].
Qed.

Lemma js_get_state (v : value) (k : string) (st : State) :
  final_state (js_get v k st) = st.
Proof. destruct v; reflexivity. Qed.

Lemma find_item_state (items : list value) (st : State) :
  final_state
    (find_item
       (fun item => let* name := js_index item 0 in
                    ret (strict_eq_string name "expo-build-properties"))
       items st) = st.
Proof.
  induction items as [|item rest IH]; [reflexivity|].
  simpl. unfold bind at 1. destruct (nullish item) eqn:E.
  - destruct (callback_nullish item st E) as [msg ->]. reflexivity.
  - rewrite (callback_defined item st E).
    destruct (names_build_properties (st_heap st) item); [reflexivity|exact IH].
Qed.

Lemma js_find_state (plugins : value) (st : State) :
  final_state
    (js_find plugins
       (fun item => let* name := js_index item 0 in
                    ret (strict_eq_string name "expo-build-properties")) st) = st.
Proof.
  unfold js_find, bind, gets.
  destruct plugins as [| | | | |l]; try reflexivity.
  destruct (st_heap st !! l) as [[ps|items]|]; try reflexivity.
  apply find_item_state.
Qed.

(** X15. [getBuildPropertiesAsync] does not write to the app config: from
    the state in which the config was read, it changes nothing, or
    allocates the one empty object that it returns; this on every outcome,
    also when it raises. *)
Theorem getBuildProperties_frame (projectRoot : string) (st st1 : State) (config : value) :
  loads projectRoot st config st1 ->
  final_state (getBuildProperties projectRoot st) = st1 \/
  getBuildProperties projectRoot st =
    Return (VRef (length (st_heap st1))) (with_heap (st_heap st1 ++ [Obj []]) st1).
Proof.
  intros Hload.
  rewrite (getBuildProperties_loaded projectRoot st st1 config Hload).
  unfold bind, js_optional, js_index.
  pose proof (js_get_state config "plugins" st1) as Hget.
  destruct (js_get config "plugins" st1) as [plugins s|e s]; cbn [final_state] in Hget;
    subst s; [|left; reflexivity].
  destruct (nullish plugins); [right; reflexivity|].
  pose proof (js_find_state plugins st1) as Hfind. unfold bind, js_index in Hfind.
  match goal with
  | |- context [js_find plugins ?cb st1] =>
      destruct (js_find plugins cb st1) as [entry s|e s]
  end; cbn [final_state] in Hfind; subst s; [|left; reflexivity].
  destruct (nullish entry); [right; reflexivity|].
  pose proof (js_get_state entry (pretty 1) st1) as Hprops.
  destruct (js_get entry (pretty 1) st1) as [props s|e s]; cbn [final_state] in Hprops;
    subst s; [|left; reflexivity].
  rewrite js_coalesce_alloc.
  destruct (nullish props); [right; reflexivity|left; reflexivity].
Qed.

(** X14. An app config without [exp]: when the config object that
    [getConfig] returns has no [exp], or has [null] there, reading its
    [plugins] raises a [TypeError]. *)
Theorem getBuildProperties_without_config (projectRoot : string) (st st1 : State)
    (config : value) :
  loads projectRoot st config st1 ->
  nullish config = true ->
  exists msg, getBuildProperties projectRoot st = Raise (TypeError msg) st1.
Proof.
  intros Hload Hconfig.
  rewrite (getBuildProperties_loaded projectRoot st st1 config Hload).
  unfold bind at 1.
  destruct (js_get_nullish config "plugins" st1 Hconfig) as [msg ->].
  exists msg. reflexivity.
Qed.

Lemma optional_member_empty (h : heap) (l : loc) (k m : string) :
  h !! l = Some (Obj []) -> optional_member h (VRef l) k m = VUndefined.
Proof.
  intros H. unfold optional_member, own_member. simpl. rewrite H.
  destruct (String.eqb k "length"); reflexivity.
Qed.

(** The run of [resolveExtraDependenciesAsync] for a project without build
    properties. *)
Lemma resolveExtraDependencies_defaults_eval (projectRoot : string) (st st1 : State)
    (config : value) :
  loads projectRoot st config st1 ->
  nullish config = false ->
  (nullish (own_member (st_heap st1) config "plugins") = true \/
   exists l items,
     own_member (st_heap st1) config "plugins" = VRef l /\
     st_heap st1 !! l = Some (Arr items) /\
     Forall (passed (st_heap st1)) items) ->
  let n := length (st_heap st1) in
  resolveExtraDependencies projectRoot st =
  Return (VRef (n + 3))
    (with_heap
       (st_heap st1 ++
        [Obj []; Arr []; Obj [];
         Obj [("androidMavenRepos", VRef (n + 1)); ("iosPods", VRef (n + 2))]])
       st1).
Proof.
  intros Hload Hconfig Hplugins n.
  assert (Hbp : getBuildProperties projectRoot st =
                Return (VRef n) (with_heap (st_heap st1 ++ [Obj []]) st1)).
  { rewrite (getBuildProperties_loaded projectRoot st st1 config Hload).
    unfold bind at 1. rewrite (js_get_defined config "plugins" st1 Hconfig).
    destruct Hplugins as [Hnull|(l & items & Hl & Hitems & Hall)].
    - unfold bind at 1. unfold js_optional at 1. rewrite Hnull. apply nothing_found.
    - rewrite Hl. unfold bind at 1. rewrite (plugins_found config st1 l items Hitems).
      rewrite (find_item_all_passed st1 items Hall). apply nothing_found. }
  rewrite (resolveExtraDependencies_eval projectRoot st _ _ Hbp).
  cbv zeta. cbn [st_heap with_heap].
  rewrite (optional_member_empty (st_heap st1 ++ [Obj []]) n)
    by (apply list_lookup_middle; reflexivity).
  cbn [nullish].
  rewrite (optional_member_empty ((st_heap st1 ++ [Obj []]) ++ [Arr []]) n)
    by (rewrite <- app_assoc; apply list_lookup_middle; reflexivity).
  cbn [nullish]. rewrite !length_app. cbn [length].
  fold n. replace (n + 1 + 1) with (n + 2) by lia.
  replace (n + 2 + 1) with (n + 3) by lia.
  unfold with_heap. cbn [st_options st_heap st_log st_head st_packages st_locale].
  rewrite <- !app_assoc. reflexivity.
Qed.

(** X18. A project without build properties has no extra dependencies:
    when the app config has no [plugins], or its [plugins] have no entry of
    the build properties, [resolveExtraDependenciesAsync] returns a new
    object whose [androidMavenRepos] is an empty array and whose [iosPods]
    is an empty object; the three objects are new and distinct, and the
    objects that were there are as they were. *)
Theorem resolveExtraDependencies_defaults (projectRoot : string) (st st1 : State)
    (config : value) :
  loads projectRoot st config st1 ->
  nullish config = false ->
  (nullish (own_member (st_heap st1) config "plugins") = true \/
   exists l items,
     own_member (st_heap st1) config "plugins" = VRef l /\
     st_heap st1 !! l = Some (Arr items) /\
     Forall (passed (st_heap st1)) items) ->
  exists l repos pods new,
    resolveExtraDependencies projectRoot st =
      Return (VRef l) (with_heap (st_heap st1 ++ new) st1) /\
    (st_heap st1 ++ new) !! l =
      Some (Obj [("androidMavenRepos", VRef repos); ("iosPods", VRef pods)]) /\
    (st_heap st1 ++ new) !! repos = Some (Arr []) /\
    (st_heap st1 ++ new) !! pods = Some (Obj []) /\
    length (st_heap st1) <= l /\ length (st_heap st1) <= repos /\
    length (st_heap st1) <= pods /\
    l <> repos /\ l <> pods /\ repos <> pods.
Proof.
  intros Hload Hconfig Hplugins.
  pose proof (resolveExtraDependencies_defaults_eval projectRoot st st1 config
                Hload Hconfig Hplugins) as Heval.
  cbv zeta in Heval.
  exists (length (st_heap st1) + 3), (length (st_heap st1) + 1),
    (length (st_heap st1) + 2).
  eexists. split; [exact Heval|].
  split; [|split; [|split]].
  - rewrite lookup_app_r by lia.
    replace (length (st_heap st1) + 3 - length (st_heap st1)) with 3 by lia. reflexivity.
  - rewrite lookup_app_r by lia.
    replace (length (st_heap st1) + 1 - length (st_heap st1)) with 1 by lia. reflexivity.
  - rewrite lookup_app_r by lia.
    replace (length (st_heap st1) + 2 - length (st_heap st1)) with 2 by lia. reflexivity.
  - lia.
Qed.

End BuildPropertiesFacts.

(** ** The build properties of the example apps *)

Lemma config_heap_ok : heap_ok config_heap.
Proof.
  unfold heap_ok, config_heap. repeat constructor; simpl; try lia.
  all: intros H; repeat (apply elem_of_cons in H as [H|H]; [discriminate H|]); inversion H.
Qed.

(** The app without plugins gets a new empty object. *)
Lemma getBuildProperties_without_entry_witness :
  getBuildPropertiesAsync example_getProjectPackageJsonPathAsync example_dirname
    (config_at 1) "/app" bare_state
  = Return (VRef 16) (with_heap (bare_heap ++ [Obj []]) bare_state).
Proof.
  apply (getBuildProperties_without_entry example_getProjectPackageJsonPathAsync
           example_dirname (config_at 1) "/app" bare_state bare_state (VRef 0)).
  - exists "/app/package.json", bare_state, (VRef 1). repeat split; reflexivity.
  - reflexivity.
  - left. reflexivity.
Defined.

(** The app that lists [expo-font] and [expo-build-properties] by their
    names gets a new empty object. *)
Lemma getBuildProperties_names_only_witness :
  getBuildPropertiesAsync example_getProjectPackageJsonPathAsync example_dirname
    (config_at 4) "/app" bare_state
  = Return (VRef 16) (with_heap (bare_heap ++ [Obj []]) bare_state).
Proof.
  apply (getBuildProperties_names_only example_getProjectPackageJsonPathAsync
           example_dirname (config_at 4) "/app" bare_state bare_state (VRef 3) 2
           [VString "expo-font"; VString "expo-build-properties"]).
  - exists "/app/package.json", bare_state, (VRef 4). repeat split; reflexivity.
  - reflexivity.
  - reflexivity.
  - reflexivity.
  - repeat constructor; eexists; reflexivity.
Defined.

(** The app with [expo-font] before the build properties gets the settings
    object of its config. *)
Lemma getBuildProperties_first_entry_witness :
  getBuildPropertiesAsync example_getProjectPackageJsonPathAsync example_dirname
    (config_at 7) "/app" config_state
  = Return (VRef 3) config_state.
Proof.
  apply (getBuildProperties_first_entry example_getProjectPackageJsonPathAsync
           example_dirname (config_at 7) "/app" config_state config_state (VRef 6) 5
           [VString "expo-font"] [] (VRef 4)).
  - exists "/app/package.json", config_state, (VRef 7). repeat split; reflexivity.
  - reflexivity.
  - reflexivity.
  - reflexivity.
  - repeat constructor.
  - reflexivity.
Defined.

(** The app with [null] as its first plugin. *)
Lemma getBuildProperties_raises_witness :
  exists msg,
    getBuildPropertiesAsync example_getProjectPackageJsonPathAsync example_dirname
      (config_at 8) "/app" bare_state
    = Raise (TypeError msg) bare_state.
Proof.
  apply (getBuildProperties_raises example_getProjectPackageJsonPathAsync
           example_dirname (config_at 8) "/app" bare_state bare_state (VRef 6)).
  - exists "/app/package.json", bare_state, (VRef 8). repeat split; reflexivity.
  - reflexivity.
  - right. exists 5, [], VNull, [VRef 7]. repeat split; [constructor].
Defined.

(** The Maven repositories of the example app are passed on, its pods are a
    new empty object. *)
Lemma resolveExtraDependencies_members_witness :
  exists l st2 iosPods li,
    resolveExtraDependenciesAsync example_getProjectPackageJsonPathAsync example_dirname
      (config_at 7) "/app" config_state = Return (VRef l) st2 /\
    st_heap st2 !! l = Some (Obj [("androidMavenRepos", VRef 1); ("iosPods", iosPods)]) /\
    iosPods = VRef li /\ 8 <= li /\ st_heap st2 !! li = Some (Obj []).
Proof.
  destruct (resolveExtraDependencies_members example_getProjectPackageJsonPathAsync
              example_dirname (config_at 7) "/app" config_state config_state (VRef 3)
              eq_refl config_heap_ok ltac:(simpl; lia))
    as (l & st2 & a & i & Hret & Hl & Ha & Hi & _).
  cbv zeta in Ha, Hi. vm_compute in Ha. subst a.
  change (nullish (optional_member (st_heap config_state) (VRef 3) "ios" "extraPods"))
    with true in Hi.
  cbv iota in Hi. destruct Hi as (li & Hi & Hle & Hli).
  exists l, st2, i, li. repeat split; assumption.
Defined.

(** The app whose project config has no [exp]. *)
Lemma getBuildProperties_without_config_witness :
  exists msg,
    getBuildPropertiesAsync example_getProjectPackageJsonPathAsync example_dirname
      (config_at 12) "/app" bare_state
    = Raise (TypeError msg) bare_state.
Proof.
  apply (getBuildProperties_without_config example_getProjectPackageJsonPathAsync
           example_dirname (config_at 12) "/app" bare_state bare_state VUndefined).
  - exists "/app/package.json", bare_state, (VRef 12). repeat split; reflexivity.
  - reflexivity.
Defined.

(** Reading the settings of the example app leaves the state as it is. *)
Lemma getBuildProperties_frame_witness :
  final_state
    (getBuildPropertiesAsync example_getProjectPackageJsonPathAsync example_dirname
       (config_at 7) "/app" config_state) = config_state \/
  getBuildPropertiesAsync example_getProjectPackageJsonPathAsync example_dirname
    (config_at 7) "/app" config_state
  = Return (VRef 8) (with_heap (config_heap ++ [Obj []]) config_state).
Proof.
  apply (getBuildProperties_frame example_getProjectPackageJsonPathAsync
           example_dirname (config_at 7) "/app" config_state config_state (VRef 6)).
  exists "/app/package.json", config_state, (VRef 7). repeat split; reflexivity.
Defined.

(** ** The hooks together, on the small repository *)

(** The payload captured for [pkgA] is valid for the same invocation with
    [--retry]. *)
Lemma createBackupData_then_validateBackup_witness :
  exists d st1,
    createBackupData example_fields publishPackagesPipeline example_parcels
      example_options example_state = Return d st1 /\
    validateBackup example_fields {| timestamp := 0; data := Present d |} retry_state
    = Return (VBool true) retry_state.
Proof.
  destruct (createBackupData example_fields publishPackagesPipeline example_parcels
              example_options example_state) as [d st1|e st1] eqn:E;
    [|vm_compute in E; discriminate E].
  exists d, st1. split; [reflexivity|].
  exact (createBackupData_then_validateBackup example_fields publishPackagesPipeline
           example_parcels example_options example_state st1 retry_state d
           {| timestamp := 0; data := Present d |} E eq_refl eq_refl).
Defined.


(** The backup of the small repository and one with no state at all get
    the same verdict. *)
Lemma validateBackup_ignores_state_witness :
  validateBackup example_fields example_backup example_state =
  validateBackup example_fields
    {| timestamp := 1;
       data := Present {| data_options := data_options example_data;
                          data_head := "abc123"; data_state := [] |} |}
    example_state.
Proof.
  apply (validateBackup_ignores_state example_fields example_backup _ example_data
           {| data_options := data_options example_data;
              data_head := "abc123"; data_state := [] |} example_state);
    reflexivity.
Defined.

Lemma restoreBackup_missing_data_witness :
  exists msg,
    restoreBackup example_defaultState missing_backup [] example_state =
    Raise (TypeError msg)
      (with_log
         [LogInfo [Plain "♻️  Restoring from backup saved on ";
                   Magenta "1/1/2026, 12:00:00 AM"; Plain "..."]] example_state).
Proof.
  apply (restoreBackup_missing_data example_defaultState missing_backup [] example_state).
  left. reflexivity.
Defined.

(** Another [--tag] does not change the task. *)
Lemma tasksForOptions_flags_only_witness :
  tasksForOptions example_options = tasksForOptions latest_options.
Proof. apply tasksForOptions_flags_only; reflexivity. Defined.

(** What is captured of [pkgA] is restored as [pkgA]. *)
Lemma capture_then_restore_names_witness :
  exists d st1 restored st3,
    createBackupData example_fields publishPackagesPipeline example_parcels
      example_options example_state = Return d st1 /\
    restoreBackup example_defaultState {| timestamp := 0; data := Present d |} []
      example_state = Return restored st3 /\
    map parcel_name restored = ["pkgA"].
Proof.
  destruct (createBackupData example_fields publishPackagesPipeline example_parcels
              example_options example_state) as [d st1|e st1] eqn:E;
    [|vm_compute in E; discriminate E].
  destruct (capture_then_restore_names example_fields example_defaultState
              publishPackagesPipeline example_parcels [] example_options
              example_state st1 example_state d {| timestamp := 0; data := Present d |}
              ltac:(repeat constructor; intros H; inversion H)
              example_parcels_named E eq_refl)
    as (restored & st3 & indices & Hret & _ & _ & _ & Hall & _).
  exists d, st1, restored, st3. split; [reflexivity|]. split; [exact Hret|].
  rewrite Hall; [reflexivity|]. intros p [<-|[]]. reflexivity.
Defined.


(** The capture of the parcel of [pkgA] returns: its bag is there and has
    no cycle. *)
Lemma createBackupData_returns_iff_witness :
  (exists d st',
     createBackupData example_fields publishPackagesPipeline example_parcels
       example_options example_state = Return d st') <->
  Forall (fun p => state p <> VUndefined /\ ~ circular example_heap (state p))
    example_parcels.
Proof.
  apply (createBackupData_returns_iff example_fields publishPackagesPipeline
           example_parcels example_options example_state example_heap_ok).
  constructor; [simpl; lia|constructor].
Defined.

(** The app without plugins has no extra dependencies. *)
Lemma resolveExtraDependencies_defaults_witness :
  exists l repos pods new,
    resolveExtraDependenciesAsync example_getProjectPackageJsonPathAsync example_dirname
      (config_at 1) "/app" bare_state
    = Return (VRef l) (with_heap (bare_heap ++ new) bare_state) /\
    (bare_heap ++ new) !! l =
      Some (Obj [("androidMavenRepos", VRef repos); ("iosPods", VRef pods)]) /\
    (bare_heap ++ new) !! repos = Some (Arr []) /\
    (bare_heap ++ new) !! pods = Some (Obj []).
Proof.
  destruct (resolveExtraDependencies_defaults example_getProjectPackageJsonPathAsync
              example_dirname (config_at 1) "/app" bare_state bare_state (VRef 0))
    as (l & repos & pods & new & Hret & Hl & Hrepos & Hpods & _).
  - exists "/app/package.json", bare_state, (VRef 1). repeat split; reflexivity.
  - reflexivity.
  - left. reflexivity.
  - exists l, repos, pods, new. repeat split; assumption.
Defined.
